(** * XanaAI: ingestion chunker, embedding adapter and query orchestrator

    A shallow embedding of the TypeScript back end:
    - [RagIngestService.chunkByTokens] and the per-run dedup of
      [ingestFolder] / [processPdfs]   (rag-ingest.service.ts, in
      endpoints/ionos-rest/rag.module.ts),
    - [IonosService.createEmbeddings]  (endpoints/ionos-rest/ionos.service.ts),
    - [QueryService]                   (query.service.ts, in
      endpoints/query/dto/query.dto.ts).

    JavaScript strings are sequences of UTF-16 code units; they are modelled
    as lists of code units ([N]).  JavaScript array indices and the numeric
    parameters of the chunker are modelled as integers ([Z]); fractional and
    NaN parameters of the chunker are outside the model.  The target
    dimension of the adapter is what [parseInt] returns: an integer or
    NaN. *)

From Stdlib Require Import String Ascii List ZArith NArith QArith Lia Bool DecimalString.
From stdpp Require gmap.
Import ListNotations.
Close Scope Q_scope.

(* ===================================================================== *)
(** ** JavaScript strings and arrays *)
(* ===================================================================== *)

Module JS.

(** A string: its UTF-16 code units. *)
Definition jsstring := list N.

(** A literal with ASCII characters only. *)
Fixpoint js (s : string) : jsstring :=
  match s with
  | EmptyString => []
  | String c s' => N_of_ascii c :: js s'
  end.

Definition str_eqb (a b : jsstring) : bool :=
  if list_eq_dec N.eq_dec a b then true else false.

(** Code units of the regular-expression class [\s] (WhiteSpace and
    LineTerminator of ECMAScript); [String.prototype.trim] strips the same
    class. *)
Definition is_ws (c : N) : bool :=
  ((9 <=? c) && (c <=? 13) || (c =? 32) || (c =? 160) || (c =? 5760)
   || (8192 <=? c) && (c <=? 8202) || (c =? 8232) || (c =? 8233)
   || (c =? 8239) || (c =? 8287) || (c =? 12288) || (c =? 65279))%N.

Definition SP : N := 32.  (* ' '  *)
Definition LF : N := 10.  (* '\n' *)

(** Truthiness of a string: [Boolean(s)], [if (s)]. *)
Definition nonempty {A} (l : list A) : bool :=
  match l with [] => false | _ :: _ => true end.

(** [Array.prototype.slice] / [String.prototype.slice]: a negative index
    counts from the end, an index past the end is clamped. *)
Definition rel_index (len i : Z) : Z :=
  if (i <? 0)%Z then Z.max (len + i) 0 else Z.min i len.

Definition slice {A} (l : list A) (from to : Z) : list A :=
  let len := Z.of_nat (length l) in
  let k := rel_index len from in
  let f := rel_index len to in
  firstn (Z.to_nat (f - k)) (skipn (Z.to_nat k) l).

(** [arr.join(sep)] for an array of strings. *)
Fixpoint join (sep : jsstring) (l : list jsstring) : jsstring :=
  match l with
  | [] => []
  | [x] => x
  | x :: rest => x ++ sep ++ join sep rest
  end.

(** [s.split(/\s+/)]: the pieces between maximal runs of whitespace.  A
    string that starts (ends) with whitespace has an empty first (last)
    piece, and the empty string has the single piece [""]. *)
Fixpoint split_ws (s : jsstring) : list jsstring :=
  match s with
  | [] => [[]]
  | c :: s' =>
      let r := split_ws s' in
      if is_ws c then
        match s' with
        | c' :: _ => if is_ws c' then r else [] :: r
        | [] => [] :: r
        end
      else
        match r with
        | p :: ps => (c :: p) :: ps
        | [] => [[c]]
        end
  end.

(** [s.split(/\s+/).filter(Boolean)]: the whitespace-delimited words. *)
Definition words_of (s : jsstring) : list jsstring :=
  filter nonempty (split_ws s).

Fixpoint drop_ws (s : jsstring) : jsstring :=
  match s with
  | c :: s' => if is_ws c then drop_ws s' else s
  | [] => []
  end.

(** [s.trim()]. *)
Definition trim (s : jsstring) : jsstring :=
  rev (drop_ws (rev (drop_ws s))).

Fixpoint starts_with (sub s : jsstring) : bool :=
  match sub, s with
  | [], _ => true
  | _ :: _, [] => false
  | a :: sub', b :: s' => (a =? b)%N && starts_with sub' s'
  end.

(** [s.lastIndexOf(sub)], the positions of [s] being numbered from [i];
    [-1] when [sub] does not occur. *)
Fixpoint lastIndexOf_from (i : Z) (s sub : jsstring) : Z :=
  match s with
  | [] => if nonempty sub then (-1)%Z else i
  | _ :: s' =>
      let r := lastIndexOf_from (i + 1) s' sub in
      if (0 <=? r)%Z then r
      else if starts_with sub s then i else (-1)%Z
  end.

Definition lastIndexOf (s sub : jsstring) : Z := lastIndexOf_from 0 s sub.

(** [s.includes(sub)]. *)
Fixpoint includes (s sub : jsstring) : bool :=
  starts_with sub s ||
  match s with
  | [] => false
  | _ :: s' => includes s' sub
  end.

End JS.
Import JS.

(* ===================================================================== *)
(** ** The chunker: [RagIngestService.chunkByTokens] *)
(* ===================================================================== *)

Module Chunker.

Local Open Scope Z_scope.

Section Loop.

Variable words : list jsstring.
Variables minTokens maxTokens overlap : Z.

Definition words_length : Z := Z.of_nat (length words).

(** The index [end] that the body of the [while] loop computes at cursor
    [start]: the window's target, or the paragraph break found in the
    window's text. *)
Definition window_end (start : Z) : Z :=
  let target := Z.min words_length (start + maxTokens) in
  let windowText := join [SP] (slice words start target) in
  let localBreak := lastIndexOf windowText [LF; LF] in
  if -1 <? localBreak then
    let upto := slice windowText 0 localBreak in
    let uptoCount := Z.of_nat (length (words_of upto)) in
    if minTokens <=? uptoCount then start + uptoCount else target
  else target.

(** [words.slice(start, end).join(' ').trim()]. *)
Definition piece (start end_ : Z) : jsstring :=
  trim (join [SP] (slice words start end_)).

(** [if (piece) chunks.push(piece)]. *)
Definition push_piece (chunks : list jsstring) (p : jsstring) : list jsstring :=
  if nonempty p then chunks ++ [p] else chunks.

(** The [while (start < words.length)] loop.  [fuel] bounds the number of
    iterations; [None] means the bound was reached before the loop left. *)
Fixpoint chunk_loop (fuel : nat) (start : Z) (chunks : list jsstring)
  : option (list jsstring) :=
  match fuel with
  | O => None
  | S fuel' =>
      if start <? words_length then
        let end_ := window_end start in
        let chunks' := push_piece chunks (piece start end_) in
        if words_length <=? end_ then Some chunks'
        else chunk_loop fuel' (Z.max 0 (end_ - overlap)) chunks'
      else Some chunks
  end.

End Loop.

(** [chunkByTokens(text, minTokens, maxTokens, overlap)] run for at most
    [fuel] iterations of its loop. *)
Definition chunkByTokens_fuel (fuel : nat) (text : jsstring)
    (minTokens maxTokens overlap : Z) : option (list jsstring) :=
  let words := words_of text in
  if nonempty words then chunk_loop words minTokens maxTokens overlap fuel 0 []
  else Some [].

(** [chunkByTokens(text, minTokens, maxTokens, overlap)]; [None]: the call
    does not return.  (A call that returns does so within
    [words.length + 1] iterations.) *)
Definition chunkByTokens (text : jsstring) (minTokens maxTokens overlap : Z)
  : option (list jsstring) :=
  chunkByTokens_fuel (S (length (words_of text))) text minTokens maxTokens overlap.

(** The call returns [chunks]. *)
Definition chunkByTokens_returns (text : jsstring)
    (minTokens maxTokens overlap : Z) (chunks : list jsstring) : Prop :=
  exists fuel, chunkByTokens_fuel fuel text minTokens maxTokens overlap = Some chunks.

(** The call never leaves its loop. *)
Definition chunkByTokens_diverges (text : jsstring)
    (minTokens maxTokens overlap : Z) : Prop :=
  forall fuel, chunkByTokens_fuel fuel text minTokens maxTokens overlap = None.

End Chunker.

(* ===================================================================== *)
(** ** Specification vocabulary for the chunker *)
(* ===================================================================== *)

Module ChunkSpec.

(** A word: non-empty and free of whitespace. *)
Definition word (w : jsstring) : Prop :=
  w <> [] /\ Forall (fun c => is_ws c = false) w.

(** The words at positions [a], ..., [b - 1]. *)
Definition seg {A} (l : list A) (a b : nat) : list A :=
  firstn (b - a) (skipn a l).

(** The last [k] elements. *)
Definition lastn {A} (k : nat) (l : list A) : list A :=
  skipn (length l - k) l.

(** The token sequence rebuilt from a chunk list: the first chunk whole,
    every later chunk without its leading [ov] overlap words. *)
Definition strip_overlaps (ov : nat) (chunks : list jsstring) : list jsstring :=
  match chunks with
  | [] => []
  | c :: rest => words_of c ++ flat_map (fun c' => skipn ov (words_of c')) rest
  end.

(** Chunks [c] and [c'] share exactly [ov] words: the last [ov] words of [c]
    are the first [ov] words of [c']. *)
Definition share_overlap (ov : nat) (c c' : jsstring) : Prop :=
  (ov <= length (words_of c))%nat /\
  (ov <= length (words_of c'))%nat /\
  lastn ov (words_of c) = firstn ov (words_of c').

(** The chunk list cut from cursor [s] on: full windows of [m] words, each
    starting [o] words before the end of its predecessor, and a final
    window that ends with the input. *)
Inductive chunks_at (W : list jsstring) (m o : nat) : nat -> list jsstring -> Prop :=
| chunks_last : forall s,
    (length W <= s + m)%nat ->
    chunks_at W m o s [join [SP] (seg W s (length W))]
| chunks_more : forall s rest,
    (s + m < length W)%nat ->
    chunks_at W m o (s + m - o) rest ->
    chunks_at W m o s (join [SP] (seg W s (s + m)) :: rest).

End ChunkSpec.
Import ChunkSpec.

(* ===================================================================== *)
(** ** JavaScript numbers *)
(* ===================================================================== *)

Module Num.

(** A number: a finite value, or one of the three non-finite ones.  The
    finite doubles are rationals; the code below only compares numbers and
    fills arrays with them, which involves no rounding.  [-0] and [+0] are
    not told apart (they print the same). *)
Inductive number : Type :=
| Fin (q : Q)
| NaN
| PosInf
| NegInf.

Definition zero : number := Fin 0%Q.

Definition of_nat (n : nat) : number := Fin (inject_Z (Z.of_nat n)).

(** [Number.isFinite]. *)
Definition isFinite (x : number) : bool :=
  match x with Fin _ => true | _ => false end.

(** [a < b]. *)
Definition ltb (a b : number) : bool :=
  match a, b with
  | NaN, _ | _, NaN => false
  | Fin x, Fin y => negb (Qle_bool y x)
  | Fin _, PosInf => true
  | Fin _, NegInf => false
  | PosInf, _ => false
  | NegInf, NegInf => false
  | NegInf, _ => true
  end.

(** [a <= b]. *)
Definition leb (a b : number) : bool :=
  match a, b with
  | NaN, _ | _, NaN => false
  | Fin x, Fin y => Qle_bool x y
  | Fin _, PosInf => true
  | Fin _, NegInf => false
  | PosInf, PosInf => true
  | PosInf, _ => false
  | NegInf, _ => true
  end.

Definition min2 (a b : number) : number :=
  match a, b with
  | NaN, _ | _, NaN => NaN
  | _, _ => if ltb b a then b else a
  end.

Definition max2 (a b : number) : number :=
  match a, b with
  | NaN, _ | _, NaN => NaN
  | _, _ => if ltb a b then b else a
  end.

(** [Math.min(...vals)] and [Math.max(...vals)]. *)
Definition Math_min (vals : list number) : number := fold_left min2 vals PosInf.
Definition Math_max (vals : list number) : number := fold_left max2 vals NegInf.

End Num.
Import Num.

(* ===================================================================== *)
(** ** The embedding adapter: [IonosService.createEmbeddings] *)
(* ===================================================================== *)

Module Embedding.

(** [out[i] = x].  Past the end JavaScript extends the array, leaving
    holes; [hole] stands for what a hole reads as. *)
Definition array_set {A} (hole : A) (out : list A) (i : nat) (x : A) : list A :=
  if (i <? length out)%nat then firstn i out ++ x :: skipn (S i) out
  else out ++ repeat hole (i - length out) ++ [x].

(** [for (let i = 0; i < v.length; i++) out[i] = v[i]], from index [i] on. *)
Fixpoint copy_from (i : nat) (v out : list number) : list number :=
  match v with
  | [] => out
  | x :: v' => copy_from (S i) v' (array_set NaN out i x)
  end.

(** What [parseInt(s, 10)] evaluates to: [NaN] when [s] does not start
    with a number, else an integer.  ([Infinity] and [-Infinity], which a
    string of several hundred digits gives, compare and behave in [fit] as
    an integer beyond every array length.) *)
Inductive ParsedInt : Type :=
| PNaN
| PInt (z : Z).

(** The lengths that [new Array(n)] accepts are the integers from 0 to
    [2^32 - 1]; for every other [n] it throws a [RangeError]. *)
Definition array_length_limit : Z := 2 ^ 32.

(** The closure [fit] of [createEmbeddings]; [targetDim] is
    [parseInt(process.env.RAG_EMBED_DIM ?? '1024', 10)].  [None]:
    [new Array(targetDim)] throws a [RangeError].  Both comparisons with
    [NaN] are false. *)
Definition fit (targetDim : ParsedInt) (v : list number) : option (list number) :=
  match targetDim with
  | PNaN => None
  | PInt d =>
      let len := Z.of_nat (length v) in
      if (len =? d)%Z then Some v
      else if (d <? len)%Z then Some (slice v 0 d)
      else if (d <? array_length_limit)%Z then
        (* new Array(targetDim).fill(0) *)
        let out := repeat zero (Z.to_nat d) in
        Some (copy_from 0 v out)
      else None
  end.

(** [xs.map(f)] for an [f] that may throw: the results, unless a call
    throws. *)
Fixpoint map_throwing {A B} (f : A -> option B) (xs : list A) : option (list B) :=
  match xs with
  | [] => Some []
  | x :: rest =>
      match f x with
      | None => None
      | Some y =>
          match map_throwing f rest with
          | None => None
          | Some ys => Some (y :: ys)
          end
      end
  end.

(** The [embedding] fields of the [data] that [createEmbeddings] returns,
    [raw] being the vectors the embedding service sent.  [None]: a call of
    [fit] throws its [RangeError], and [createEmbeddings] rejects with
    it. *)
Definition createEmbeddings_vectors (targetDim : ParsedInt)
    (raw : list (list number)) : option (list (list number)) :=
  map_throwing (fit targetDim) raw.

End Embedding.

(* ===================================================================== *)
(** ** JavaScript values, exceptions and service calls *)
(* ===================================================================== *)

Module Value.

(** The values that travel through the query service untyped ([any]):
    parsed JSON and [undefined]. *)
#[warnings="-register-all"]
Inductive JSValue : Type :=
| JUndefined
| JNull
| JBool (b : bool)
| JNum (n : number)
| JStr (s : jsstring)
| JArr (items : list JSValue)
| JObj (fields : list (jsstring * JSValue)).

(** The exceptions the service raises or meets. *)
Inductive Exn : Type :=
| TypeError
| RangeError
| RequestFailed
| Error (message : jsstring)
| BadRequestException (message : jsstring)
| InternalServerErrorException (message : jsstring).

Inductive Res (A : Type) : Type :=
| Ok (a : A)
| Throw (e : Exn).
Arguments Ok {A} a.
Arguments Throw {A} e.

(** [Boolean(v)]. *)
Definition truthy (v : JSValue) : bool :=
  match v with
  | JUndefined | JNull => false
  | JBool b => b
  | JNum (Fin q) => negb (Qeq_bool q 0)
  | JNum NaN => false
  | JNum _ => true
  | JStr s => nonempty s
  | JArr _ | JObj _ => true
  end.

(** [v == null]. *)
Definition nullish (v : JSValue) : bool :=
  match v with JUndefined | JNull => true | _ => false end.

(** Every array, the empty one included, is truthy. *)
Definition array_truthy {A} (l : list A) : bool := truthy (JArr []).

Fixpoint assoc (k : jsstring) (fields : list (jsstring * JSValue)) : option JSValue :=
  match fields with
  | [] => None
  | (k', v) :: rest => if str_eqb k k' then Some v else assoc k rest
  end.

(** [v.k] for a property name [k] that no prototype defines, or
    [k = "length"]. *)
Definition get (v : JSValue) (k : jsstring) : Res JSValue :=
  match v with
  | JUndefined | JNull => Throw TypeError
  | JObj fields =>
      Ok match assoc k fields with Some x => x | None => JUndefined end
  | JArr items =>
      Ok (if str_eqb k (js "length") then JNum (Num.of_nat (length items))
          else JUndefined)
  | JStr s =>
      Ok (if str_eqb k (js "length") then JNum (Num.of_nat (length s))
          else JUndefined)
  | _ => Ok JUndefined
  end.

(** [v?.k]. *)
Definition opt_get (v : JSValue) (k : jsstring) : JSValue :=
  match get v k with Ok x => x | Throw _ => JUndefined end.

(** [v[0]]. *)
Definition get_0 (v : JSValue) : Res JSValue :=
  match v with
  | JUndefined | JNull => Throw TypeError
  | JArr items => Ok (nth 0 items JUndefined)
  | JStr s => Ok match s with c :: _ => JStr [c] | [] => JUndefined end
  | JObj fields =>
      Ok match assoc (js "0") fields with Some x => x | None => JUndefined end
  | _ => Ok JUndefined
  end.

(** [v?.[0]]. *)
Definition opt_get_0 (v : JSValue) : JSValue :=
  match get_0 v with Ok x => x | Throw _ => JUndefined end.

(** The built-in functions that are taken as given. *)
Record Builtins : Type := {
  (** [JSON.parse]; [None] is a [SyntaxError]. *)
  JSON_parse : jsstring -> option JSValue;
  JSON_stringify : JSValue -> jsstring;
  (** [Number.prototype.toString]. *)
  Number_toString : number -> jsstring
}.

Section Strings.
Variable B : Builtins.

(** [String(v)], also the conversion inside a template literal. *)
Fixpoint ToString (v : JSValue) : jsstring :=
  match v with
  | JUndefined => js "undefined"
  | JNull => js "null"
  | JBool true => js "true"
  | JBool false => js "false"
  | JNum n => Number_toString B n
  | JStr s => s
  | JArr items =>
      join (js ",")
        (map (fun x => match x with
                       | JUndefined | JNull => []
                       | _ => ToString x
                       end) items)
  | JObj _ => js "[object Object]"
  end.

(** [items.join(sep)] for an array of arbitrary values. *)
Definition array_join (sep : jsstring) (items : list JSValue) : jsstring :=
  join sep (map (fun x => if nullish x then [] else ToString x) items).

End Strings.

End Value.
Import Value.

(* ===================================================================== *)
(** ** The query service: [QueryService] *)
(* ===================================================================== *)

Module Query.

Definition DQ : N := 34.        (* the double quote *)
Definition APOS : N := 8217.    (* the typographic apostrophe *)

(** [ChatMsg]; the role arrives as a string of the request body. *)
Record ChatMsg : Type := { role : jsstring; content : jsstring }.

(** The argument of [IonosService.chatCompletion]. *)
Record ChatParams : Type := {
  messages : list ChatMsg;
  temperature : Q;
  maxTokens : Z
}.

Record ChartPoint : Type := { t : jsstring; v : number }.

(** [ChartResult]: the series and [meta.assetUrn], [meta.metric]
    ([meta.source] is the constant ['postgres']). *)
Record ChartResult : Type := {
  series : list ChartPoint;
  assetUrn : jsstring;
  metric : JSValue
}.

(** [AlertResult]: [alerts] and [meta.assetUrn]. *)
Record AlertResult : Type := { alerts : JSValue; alertUrn : jsstring }.

(** What [handleQuery] resolves to. *)
Inductive QueryResult : Type :=
| ChartReply (reply : jsstring) (chart : ChartResult)
             (first10 last10 : list ChartPoint)
| NoDataReply (reply : jsstring) (chart : ChartResult)
| AlertsReply (reply : jsstring) (alerts : JSValue)
| NoAlertsReply (reply : jsstring) (alerts : JSValue)
| TextReply (reply : JSValue).

(** A request sent to a collaborator. *)
Inductive Event : Type :=
| ChatCompletion (p : ChatParams)
| PgQuery (assetUrn : jsstring) (metric from to : JSValue)
| AlertaGet (assetUrn : jsstring)
| EmbeddingsPost (input : list jsstring)
| MilvusSearch (collection : jsstring) (queryVec : list number).

(** The collaborators of one request.  Each answers a request with a value
    or fails ([None]). *)
Record Services : Type := {
  (** the body of the completion service's response *)
  completion : ChatParams -> option JSValue;
  (** [!!process.env.PGHOST]: the pool exists *)
  pgPool : bool;
  (** the rows of the time-series query, already mapped to points
      ([t] the ISO timestamp, [v = Number(value)]); [None] when the query or
      the mapping throws *)
  pgSeries : jsstring -> JSValue -> JSValue -> JSValue -> option (list ChartPoint);
  (** the body of the alert service's response *)
  alerta : jsstring -> option JSValue;
  (** the vectors the embedding service returns for the inputs *)
  embeddings : list jsstring -> option (list (list number));
  (** [parseInt(process.env.RAG_EMBED_DIM ?? '1024', 10)] *)
  targetDim : Embedding.ParsedInt;
  (** [process.env.MILVUS_COLLECTION_NAME], empty when unset *)
  milvusCollection : jsstring;
  (** the hits of a vector search *)
  milvus : jsstring -> list number -> option (list JSValue)
}.

(** A computation that sends requests: it extends the log of the requests
    sent so far and returns a value or throws. *)
Definition IO (A : Type) : Type := list Event -> Res A * list Event.

Definition ret {A} (a : A) : IO A := fun log => (Ok a, log).
Definition throw {A} (e : Exn) : IO A := fun log => (Throw e, log).
Definition bind {A B} (m : IO A) (k : A -> IO B) : IO B :=
  fun log =>
    match m log with
    | (Ok a, log') => k a log'
    | (Throw e, log') => (Throw e, log')
    end.
(** [try { m } catch { h }]. *)
Definition try_catch {A} (m : IO A) (h : Exn -> IO A) : IO A :=
  fun log =>
    match m log with
    | (Ok a, log') => (Ok a, log')
    | (Throw e, log') => h e log'
    end.
Definition lift {A} (r : Res A) : IO A := fun log => (r, log).
(** Send request [ev]; the collaborator's answer is [answer]. *)
Definition request {A} (ev : Event) (answer : option A) : IO A :=
  fun log =>
    (match answer with Some a => Ok a | None => Throw RequestFailed end,
     log ++ [ev]).

Notation "x <- m ;; k" := (bind m (fun x => k))
  (at level 61, m at next level, right associativity).

Section Service.
Variable bi : Builtins.
Variable sv : Services.

(** [flattenChatHistoryToString]. *)
Definition flattenChatHistoryToString (msgs : list ChatMsg) : jsstring :=
  join [LF]
    (map (fun m => role m ++ js ": " ++ trim (content m))
       (filter (fun m => (0 <? length (trim (content m)))%nat) msgs)).

(** [fetchSeriesFromPostgres]. *)
Definition fetchSeriesFromPostgres (assetUrn : jsstring) (metric from to : JSValue)
  : IO ChartResult :=
  if pgPool sv then
    series <- try_catch
                (request (PgQuery assetUrn metric from to)
                   (pgSeries sv assetUrn metric from to))
                (fun _ => ret []) ;;
    ret {| series := series; assetUrn := assetUrn; metric := metric |}
  else throw (Error (js "Postgres pool not initialized")).

(** [fetchAlertData]. *)
Definition fetchAlertData (assetUrn : jsstring) : IO AlertResult :=
  alerts <- try_catch
              (data <- request (AlertaGet assetUrn) (alerta sv assetUrn) ;;
               a <- lift (get data (js "alerts")) ;;
               ret (if truthy a then a else JArr []))
              (fun _ => ret (JArr [])) ;;
  ret {| alerts := alerts; alertUrn := assetUrn |}.

(** The closure [asString] of the two intent detectors. *)
Definition asString (x : JSValue) : jsstring :=
  match x with
  | JStr s => s
  | JArr items =>
      join [LF]
        (filter nonempty
           (map (fun p =>
                   match p with
                   | JStr s => s
                   | _ =>
                       match opt_get p (js "text") with
                       | JStr s => s
                       | tx =>
                           match opt_get tx (js "value") with
                           | JStr s => s
                           | _ => []
                           end
                       end
                   end) items))
  | JObj _ => JSON_stringify bi x
  | _ => []
  end.

Definition strip_prefix (p s : jsstring) : option jsstring :=
  if starts_with p s then Some (skipn (length p) s) else None.

Definition strip_suffix (p s : jsstring) : option jsstring :=
  match strip_prefix (rev p) (rev s) with
  | Some r => Some (rev r)
  | None => None
  end.

Definition FENCE : jsstring := js "```".

(** [out.replace(/^```(?:json)?\s*|\s*```$/g, '')]: an opening fence with
    the whitespace after it is removed at the start, a closing fence with
    the whitespace before it at the end of what is left. *)
Definition strip_fences (out : jsstring) : jsstring :=
  let rest :=
    match strip_prefix FENCE out with
    | Some r =>
        let r' := match strip_prefix (js "json") r with
                  | Some r' => r'
                  | None => r
                  end in
        drop_ws r'
    | None => out
    end in
  match strip_suffix FENCE rest with
  | Some r => rev (drop_ws (rev r))
  | None => rest
  end.

(** [r?.choices?.[0]?.message?.content], cleaned: the text handed to
    [JSON.parse]. *)
Definition intent_text (r : JSValue) : jsstring :=
  let content :=
    opt_get (opt_get (opt_get_0 (opt_get r (js "choices"))) (js "message"))
      (js "content") in
  trim (strip_fences (asString content)).

Definition chartIntentPrompt (lastUserText : jsstring) : jsstring :=
  js "You extract data chart intent from a single user message." ++ [LF] ++
  js "- If the user asks for a chart/plot/graph/trend or with an id, ignore alerts or notification queries, set wants_chart=true." ++ [LF] ++
  js "- Extract the asset URN exactly if present (e.g., " ++ [DQ] ++ js "urn:iff:asset:123" ++ [DQ] ++ js "). if else, a product name or some string is present." ++ [LF] ++
  js "- If a range like " ++ [DQ] ++ js "last 24h/7d/30m" ++ [DQ] ++ js " is present, fill last {value,unit}." ++ [LF] ++
  js "- Be strict in decision, if in doubt assume that there is no intent." ++ [LF] ++
  js "- If explicit dates exist, set from/to as ISO. if not present, take CEST from yesterday to today. The format must match 2025-08-14T12:36:04.868Z " ++ [LF] ++
  js "- metric is optional but fetch it. if two words present use like ab_ba (e.g., temperature, power, load, rpm, pressure, current, voltage, speed, energy, consumption)." ++ [LF] ++
  js "Return pure JSON object in this format [object Object]." ++ [LF; LF] ++
  js "User: " ++ lastUserText.

Definition alertIntentPrompt (lastUserText : jsstring) : jsstring :=
  js "You extract data alert intent from a single user message." ++ [LF] ++
  js "- If the user asks for an alert or alerts or notifications and you know better, set wants_alert=true." ++ [LF] ++
  js "- Extract the asset URN exactly if present (e.g., " ++ [DQ] ++ js "urn:iff:asset:123" ++ [DQ] ++ js ")." ++ [LF] ++
  js "- Be strict in decision, if in doubt assume that there is no intent." ++ [LF] ++
  js "Return pure JSON object in this format [object Object]." ++ [LF; LF] ++
  js "User: " ++ lastUserText.

Definition intentParams (prompt : jsstring) : ChatParams :=
  {| messages := [{| role := js "user"; content := prompt |}];
     temperature := 1 # 10;
     maxTokens := 250 |}.

Definition chatCompletion (p : ChatParams) : IO JSValue :=
  request (ChatCompletion p) (completion sv p).

(** [detectChartIntentWithLLM]. *)
Definition detectChartIntentWithLLM (lastUserText : jsstring) : IO JSValue :=
  r <- chatCompletion (intentParams (chartIntentPrompt lastUserText)) ;;
  match JSON_parse bi (intent_text r) with
  | Some nlu => ret nlu
  | None => ret (JObj [(js "wants_chart", JBool false)])
  end.

(** [detectAlertIntentWithLLM]. *)
Definition detectAlertIntentWithLLM (lastUserText : jsstring) : IO JSValue :=
  r <- chatCompletion (intentParams (alertIntentPrompt lastUserText)) ;;
  match JSON_parse bi (intent_text r) with
  | Some nlu => ret nlu
  | None => ret (JObj [(js "wants_alert", JBool false)])
  end.

(** [[...messages].reverse().find(m => m.role === 'user')]. *)
Definition lastUserOf (msgs : list ChatMsg) : option ChatMsg :=
  find (fun m => str_eqb (role m) (js "user")) (rev msgs).

Definition is_string (x : JSValue) : bool :=
  match x with JStr _ => true | _ => false end.

(** [maybeGetChartData]. *)
Definition maybeGetChartData (msgs : list ChatMsg) : IO (option ChartResult) :=
  match lastUserOf msgs with
  | None => ret None
  | Some lastUser =>
      nlu <- detectChartIntentWithLLM (content lastUser) ;;
      wants_chart <- lift (get nlu (js "wants_chart")) ;;
      if negb (truthy wants_chart) then ret None else
      asset_urn <- lift (get nlu (js "asset_urn")) ;;
      if negb (truthy asset_urn) then ret None else
      nlu_from <- lift (get nlu (js "from")) ;;
      let from := if truthy nlu_from then nlu_from else JStr [] in
      nlu_to <- lift (get nlu (js "to")) ;;
      let to := if truthy nlu_to then nlu_to else JStr [] in
      nlu_metric <- lift (get nlu (js "metric")) ;;
      let metric := if nullish nlu_metric then JUndefined else nlu_metric in
      match asset_urn with
      | JStr urn =>
          if pgPool sv && truthy from && truthy to then
            c <- fetchSeriesFromPostgres urn metric from to ;;
            ret (Some c)
          else ret None
      | _ => ret None
      end
  end.

(** [maybeGetAlertData]. *)
Definition maybeGetAlertData (msgs : list ChatMsg) : IO (option AlertResult) :=
  match lastUserOf msgs with
  | None => ret None
  | Some lastUser =>
      nlu <- detectAlertIntentWithLLM (content lastUser) ;;
      wants_alert <- lift (get nlu (js "wants_alert")) ;;
      if negb (truthy wants_alert) then ret None else
      asset_urn <- lift (get nlu (js "asset_urn")) ;;
      if negb (truthy asset_urn) then ret None else
      match asset_urn with
      | JStr urn => a <- fetchAlertData urn ;; ret (Some a)
      | _ => ret None
      end
  end.

(** The finite values of the series: [chart.series.map(p => p.v)
    .filter(v => Number.isFinite(v))]. *)
Definition finite_values (series : list ChartPoint) : list number :=
  filter isFinite (map v series).

Definition show_nat (n : nat) : jsstring := Number_toString bi (Num.of_nat n).

(** [formatChartSummary]: the summary, [first10] and [last10]. *)
Definition formatChartSummary (chart : ChartResult)
  : jsstring * list ChartPoint * list ChartPoint :=
  let pts := length (series chart) in
  let first10 := slice (series chart) 0 100 in
  let last10 := slice (series chart) (Z.max 0 (Z.of_nat pts - 100))
                  (Z.of_nat pts) in
  let vals := finite_values (series chart) in
  let min := if nonempty vals then Some (Math_min vals) else None in
  let max := if nonempty vals then Some (Math_max vals) else None in
  let summary :=
    join [LF]
      [ js "Live data (" ++
          (if nullish (metric chart) then js "metric" else ToString bi (metric chart))
          ++ js ") for " ++ assetUrn chart;
        js "Points: " ++ show_nat pts ++
          match min, max with
          | Some mn, Some mx =>
              js ", Min: " ++ Number_toString bi mn ++
              js ", Max: " ++ Number_toString bi mx
          | _, _ => []
          end ] in
  (summary, first10, last10).

Definition chartReplyHeader : jsstring :=
  js "Here" ++ [APOS] ++ js "s the live chart summary:" ++ [LF; LF].

(** [getChartSummaryIfAny]. *)
Definition getChartSummaryIfAny (msgs : list ChatMsg) : IO (option QueryResult) :=
  chart <- try_catch (maybeGetChartData msgs) (fun _ => ret None) ;;
  match chart with
  | Some c =>
      if array_truthy (series c) then
        let '(summary, first10, last10) := formatChartSummary c in
        ret (Some (ChartReply (chartReplyHeader ++ summary) c first10 last10))
      else if (length (series c) =? 0)%nat then
        ret (Some (NoDataReply
                     (js "No live data available for " ++ assetUrn c ++
                      js " (" ++ ToString bi (metric c) ++ js ").") c))
      else ret None
  | None => ret None
  end.

(** [getAlertsDataIfAny]. *)
Definition getAlertsDataIfAny (msgs : list ChatMsg) : IO (option QueryResult) :=
  alert <- try_catch (maybeGetAlertData msgs) (fun _ => ret None) ;;
  match alert with
  | Some a =>
      if truthy (alerts a) then
        ret (Some (AlertsReply
                     (js "Here" ++ [APOS] ++ js "s the live alerts:" ++ [LF; LF])
                     (alerts a)))
      else
        len <- lift (get (alerts a) (js "length")) ;;
        match len with
        | JNum (Fin q) =>
            if Qeq_bool q 0 then
              ret (Some (NoAlertsReply
                           (js "No live data available for " ++ alertUrn a ++ js ".")
                           (alerts a)))
            else ret None
        | _ => ret None
        end
  | None => ret None
  end.

(** The closure [coerceLabels] of [milvusSearch]. *)
Definition coerceLabels (input : JSValue) : JSValue :=
  match input with
  | JObj _ => input
  | JStr s0 =>
      let s := trim s0 in
      if starts_with (js "{") s || starts_with (js "[") s then
        match JSON_parse bi s with
        | Some (JObj f) => JObj f
        | Some (JArr l) => JArr l
        | _ => JObj []
        end
      else JObj []
  | _ => JObj []
  end.

(** The text of one hit: [labels?.text] coerced to a string. *)
Definition hit_text (hit : JSValue) : jsstring :=
  let labels := coerceLabels (opt_get hit (js "labels")) in
  match opt_get labels (js "text") with
  | JUndefined | JNull => []
  | JStr s => s
  | JArr items => array_join bi [SP] items
  | JObj f => JSON_stringify bi (JObj f)
  | other => ToString bi other
  end.

Fixpoint mapi_from {A C} (i : nat) (f : nat -> A -> C) (l : list A) : list C :=
  match l with
  | [] => []
  | x :: rest => f i x :: mapi_from (S i) f rest
  end.

Definition contextSeparator : jsstring :=
  [LF; LF] ++ js "-----" ++ [LF; LF].

(** The context built from the hits of the search. *)
Definition contextOf (hits : list JSValue) : jsstring :=
  join contextSeparator
    (filter (fun s => (4 <? length s)%nat)
       (mapi_from 0
          (fun i hit => js "[S" ++ show_nat (i + 1) ++ js "] " ++ trim (hit_text hit))
          hits)).

(** [milvusSearch]: the context text and the sources. *)
Definition milvusSearch (msgs : list ChatMsg) : IO (jsstring * list JSValue) :=
  let question :=
    fold_left (fun q m => if str_eqb (role m) (js "user")
                          then q ++ content m ++ js " " else q) msgs [] in
  raw <- request (EmbeddingsPost [question]) (embeddings sv [question]) ;;
  match Embedding.createEmbeddings_vectors (targetDim sv) raw with
  | None => throw RangeError
  | Some [] => throw TypeError
  | Some (queryVec :: _) =>
      let collection := if nonempty (milvusCollection sv) then milvusCollection sv
                        else js "custom_setup_6" in
      hits <- request (MilvusSearch collection queryVec)
                (milvus sv collection queryVec) ;;
      ret (contextOf hits, hits)
  end.

(** The system prompt of [handleQuery] before the context is appended. *)
Definition systemPromptContent (vectorStoreIds : list jsstring) : jsstring :=
  js "You are XANA " ++ [8212%N] ++ js " an industrial machine support assistant for shop-floor operators and technicians." ++ [LF] ++
  js "- Use provided machine files/context (vector store file_search) first; quote exact parameter names, menu paths, and setpoints from docs, and dont tell that you are provided a context." ++ [LF] ++
  js "- If docs are empty or unrelated, say so briefly and continue with best-practice guidance." ++ [LF] ++
  js "- Safety first: never suggest bypassing interlocks/guards; reference E-Stop and LOTO when relevant." ++ [LF] ++
  js "- Style: short, scannable, practical; metric units; don" ++ [APOS] ++ js "t invent values. If uncertain, say " ++ [8220%N] ++ js "Not enough data" ++ [8221%N] ++ js " and ask one targeted question." ++ [LF] ++
  js "- Include preventive maintenance tips, part numbers, and specs only if present in the data." ++ [LF] ++
  js "- selected asset or product name explicitly for questions by the user is " ++ join (js ", ") vectorStoreIds.

Definition MAX_MESSAGES : Z := 10.

(** [messages.slice(-MAX_MESSAGES)]. *)
Definition recentMessages (msgs : list ChatMsg) : list ChatMsg :=
  slice msgs (- MAX_MESSAGES) (Z.of_nat (length msgs)).

(** [systemPrompt] after [systemPrompt.content += ...]: the system turn with
    the context appended. *)
Definition systemPrompt (vectorStoreIds : list jsstring) (contextText : jsstring)
  : ChatMsg :=
  {| role := js "system";
     content := systemPromptContent vectorStoreIds ++ [LF; LF] ++
                js "Context for the question:" ++ [LF; LF] ++ contextText |}.

(** [fullMessages]: the system turn, then the recent turns. *)
Definition fullMessages (vectorStoreIds : list jsstring) (contextText : jsstring)
    (msgs : list ChatMsg) : list ChatMsg :=
  systemPrompt vectorStoreIds contextText :: recentMessages msgs.

(** The argument of the final call of the completion service. *)
Definition answerParams (vectorStoreIds : list jsstring) (contextText : jsstring)
    (msgs : list ChatMsg) : ChatParams :=
  {| messages :=
       [{| role := js "user";
           content := flattenChatHistoryToString
                        (fullMessages vectorStoreIds contextText msgs) |}];
     temperature := 2 # 10;
     maxTokens := 1500 |}.

(** [r.choices[0]?.message.content ?? ... ?? 'No output_text.']. *)
Definition replyOf (r : JSValue) : Res JSValue :=
  match get r (js "choices") with
  | Throw e => Throw e
  | Ok choices =>
      match get_0 choices with
      | Throw e => Throw e
      | Ok c0 =>
          if nullish c0 then Ok (JStr (js "No output_text."))
          else
            match get c0 (js "message") with
            | Throw e => Throw e
            | Ok m =>
                match get m (js "content") with
                | Throw e => Throw e
                | Ok c => Ok (if nullish c then JStr (js "No output_text.") else c)
                end
            end
      end
  end.

(** [handleQuery]. *)
Definition handleQuery (msgs : list ChatMsg) (vectorStoreIds : list jsstring)
  : IO QueryResult :=
  if (length msgs =? 0)%nat then
    throw (BadRequestException (js "messages[] is required"))
  else
    a <- getChartSummaryIfAny msgs ;;
    match a with
    | Some res => ret res
    | None =>
        b <- getAlertsDataIfAny msgs ;;
        match b with
        | Some res => ret res
        | None =>
            found <- milvusSearch msgs ;;
            let contextText := fst found in
            try_catch
              (r <- chatCompletion (answerParams vectorStoreIds contextText msgs) ;;
               reply <- lift (replyOf r) ;;
               ret (TextReply reply))
              (fun _ => throw (InternalServerErrorException (js "Failed to call LLM")))
        end
    end.

(** The requests of a log that went to the completion service. *)
Definition completion_calls (log : list Event) : list ChatParams :=
  flat_map (fun ev => match ev with ChatCompletion p => [p] | _ => [] end) log.

End Service.

End Query.

(* ===================================================================== *)
(** ** Specification vocabulary for the query service *)
(* ===================================================================== *)

Module QuerySpec.
Import Query.

(** [m] is the least (greatest) of the values [vals]. *)
Definition is_minimum (m : number) (vals : list number) : Prop :=
  In m vals /\ Forall (fun x => Num.leb m x = true) vals.
Definition is_maximum (m : number) (vals : list number) : Prop :=
  In m vals /\ Forall (fun x => Num.leb x m = true) vals.

(** The parsed intent [nlu] is a positive chart intent for the asset [urn]
    with a resolved window [from], [to]; [metric] is what is handed to the
    time-series fetch. *)
Definition positive_chart_intent (nlu : JSValue) (urn : jsstring)
    (metric from to : JSValue) : Prop :=
  nullish nlu = false /\
  truthy (opt_get nlu (js "wants_chart")) = true /\
  opt_get nlu (js "asset_urn") = JStr urn /\ urn <> [] /\
  from = opt_get nlu (js "from") /\ truthy from = true /\
  to = opt_get nlu (js "to") /\ truthy to = true /\
  metric = (if nullish (opt_get nlu (js "metric")) then JUndefined
            else opt_get nlu (js "metric")).

(** A turn whose content is not blank. *)
Definition non_blank (m : ChatMsg) : bool := nonempty (trim (content m)).

(** One line of the flattened history. *)
Definition history_line (m : ChatMsg) : jsstring :=
  role m ++ js ": " ++ trim (content m).

(** The reply is the 'no data' reply. *)
Definition is_no_data (res : QueryResult) : bool :=
  match res with NoDataReply _ _ => true | _ => false end.

End QuerySpec.

(* ===================================================================== *)
(** ** Example requests and collaborators *)
(* ===================================================================== *)

Module Examples.
Import Query.

(** A quoted JSON string. *)
Definition quoted (s : string) : jsstring := [DQ] ++ js s ++ [DQ].

(** The body of a completion response whose message carries [text]. *)
Definition response (text : jsstring) : JSValue :=
  JObj [(js "choices",
         JArr [JObj [(js "message",
                      JObj [(js "role", JStr (js "assistant"));
                            (js "content", JStr text)])]])].

(** A positive chart intent, as JSON text and parsed. *)
Definition intentJson : jsstring :=
  js "{" ++ quoted "wants_chart" ++ js ":true," ++
  quoted "asset_urn" ++ js ":" ++ quoted "urn:iff:asset:42" ++ js "," ++
  quoted "metric" ++ js ":" ++ quoted "temperature" ++ js "," ++
  quoted "from" ++ js ":" ++ quoted "2025-08-13T00:00:00.000Z" ++ js "," ++
  quoted "to" ++ js ":" ++ quoted "2025-08-14T00:00:00.000Z" ++ js "}".

Definition intentValue : JSValue :=
  JObj [(js "wants_chart", JBool true);
        (js "asset_urn", JStr (js "urn:iff:asset:42"));
        (js "metric", JStr (js "temperature"));
        (js "from", JStr (js "2025-08-13T00:00:00.000Z"));
        (js "to", JStr (js "2025-08-14T00:00:00.000Z"))].

(** Built-ins that agree with JavaScript's on the inputs of the examples:
    [JSON.parse] on [intentJson] and on text that is no JSON, and
    [Number.prototype.toString] on integers and the non-finite values. *)
Definition builtins : Builtins :=
  {| JSON_parse := fun s => if str_eqb s intentJson then Some intentValue else None;
     JSON_stringify := fun _ => js "{}";
     Number_toString := fun n =>
       match n with
       | Fin q => js (NilEmpty.string_of_int (Z.to_int (Qnum q)))
       | NaN => js "NaN"
       | PosInf => js "Infinity"
       | NegInf => js "-Infinity"
       end |}.

(** The completion service answers every request with [text]; the
    time-series store holds [pts]. *)
Definition services (text : jsstring) (pts : list ChartPoint) : Services :=
  {| completion := fun _ => Some (response text);
     pgPool := true;
     pgSeries := fun _ _ _ _ => Some pts;
     alerta := fun _ => None;
     embeddings := fun _ => Some [[Fin 1; Fin 2]];
     targetDim := Embedding.PInt 4;
     milvusCollection := [];
     milvus := fun _ _ =>
       Some [JObj [(js "labels", JObj [(js "text", JStr (js "Pump P-101 manual"))])]] |}.

Definition askChart : list ChatMsg :=
  [{| role := js "user";
      content := js "show me the temperature trend for urn:iff:asset:42" |}].

Definition point (stamp : string) (value : number) : ChartPoint :=
  {| t := js stamp; v := value |}.

Definition twoPoints : list ChartPoint :=
  [point "2025-08-13T10:00:00.000Z" (Fin 7); point "2025-08-13T09:00:00.000Z" (Fin 3)].

Definition textPoints : list ChartPoint :=
  [point "2025-08-13T10:00:00.000Z" NaN].

Definition chat : list ChatMsg :=
  [{| role := js "user"; content := js "hello" |};
   {| role := js "assistant"; content := js "hi, how can I help?" |}].

Fixpoint turns (n i : nat) : list ChatMsg :=
  match n with
  | O => []
  | S n' =>
      {| role := if Nat.even i then js "user" else js "assistant";
         content := js "turn " ++ Number_toString builtins (Num.of_nat i) |}
      :: turns n' (S i)
  end.

(** An answer of the completion service that is fenced prose, no JSON. *)
Definition fencedProse : jsstring :=
  js "```json" ++ [LF] ++ js "I cannot tell." ++ [LF] ++ js "```".

End Examples.

(* ===================================================================== *)
(** ** SHA-256: [crypto.createHash('sha256').update(x).digest('hex')] *)
(* ===================================================================== *)

Module SHA256.

Local Open Scope N_scope.

(** The first [n] primes. *)
Definition is_prime (p : nat) : bool :=
  forallb (fun d => negb (p mod d =? 0)%nat) (seq 2 (p - 2)).

Definition primes (n : nat) : list N :=
  map N.of_nat (firstn n (filter is_prime (seq 2 400))).

(** The integer cube root, found bit by bit from bit [bits - 1] down. *)
Fixpoint cube_root (bits : nat) (r x : N) : N :=
  match bits with
  | O => r
  | S b =>
      let r' := r + N.shiftl 1 (N.of_nat b) in
      cube_root b (if r' * r' * r' <=? x then r' else r) x
  end.

(** The round constants: the first 32 bits of the fractional parts of the
    cube roots of the first 64 primes. *)
Definition K : list N :=
  Eval vm_compute in
    map (fun p => N.land (cube_root 40 0 (N.shiftl p 96)) 0xffffffff) (primes 64).

(** The initial hash value: the first 32 bits of the fractional parts of
    the square roots of the first 8 primes. *)
Definition H0 : list N :=
  Eval vm_compute in
    map (fun p => N.land (N.sqrt (N.shiftl p 64)) 0xffffffff) (primes 8).

(** 32-bit words: addition wraps around. *)
Definition w32 (x : N) : N := N.land x 0xffffffff.
Definition add32 (x y : N) : N := w32 (x + y).
Definition rotr (n x : N) : N :=
  N.lor (N.shiftr x n) (w32 (N.shiftl x (32 - n))).
Definition not32 (x : N) : N := N.lxor x 0xffffffff.

Definition Ch (x y z : N) : N := N.lxor (N.land x y) (N.land (not32 x) z).
Definition Maj (x y z : N) : N :=
  N.lxor (N.lxor (N.land x y) (N.land x z)) (N.land y z).
Definition Sigma0 (x : N) : N := N.lxor (N.lxor (rotr 2 x) (rotr 13 x)) (rotr 22 x).
Definition Sigma1 (x : N) : N := N.lxor (N.lxor (rotr 6 x) (rotr 11 x)) (rotr 25 x).
Definition sigma0 (x : N) : N := N.lxor (N.lxor (rotr 7 x) (rotr 18 x)) (N.shiftr x 3).
Definition sigma1 (x : N) : N := N.lxor (N.lxor (rotr 17 x) (rotr 19 x)) (N.shiftr x 10).

(** The message followed by the bit [1], zeros and its length in bits as a
    64-bit big-endian number, to a multiple of 64 bytes. *)
Definition be_bytes (width : nat) (x : N) : list N :=
  map (fun i => N.land (N.shiftr x (8 * N.of_nat i)) 0xff) (rev (seq 0 width)).

Definition pad (msg : list N) : list N :=
  let len := N.of_nat (length msg) in
  let zeros := (119 - len mod 64) mod 64 in
  msg ++ [0x80] ++ repeat 0 (N.to_nat zeros) ++ be_bytes 8 (8 * len).

Definition be_word (b : list N) : N :=
  fold_left (fun acc x => N.lor (N.shiftl acc 8) x) b 0.

Fixpoint words_be (n : nat) (bytes : list N) : list N :=
  match n with
  | O => []
  | S n' => be_word (firstn 4 bytes) :: words_be n' (skipn 4 bytes)
  end.

(** The message schedule, most recent word first. *)
Fixpoint schedule (n : nat) (w : list N) : list N :=
  match n with
  | O => w
  | S n' =>
      let x := add32 (add32 (sigma1 (nth 1 w 0)) (nth 6 w 0))
                 (add32 (sigma0 (nth 14 w 0)) (nth 15 w 0)) in
      schedule n' (x :: w)
  end.

Definition round (st : list N) (kw : N * N) : list N :=
  match st with
  | [a; b; c; d; e; f; g; h] =>
      let t1 := add32 (add32 (add32 h (Sigma1 e)) (add32 (Ch e f g) (fst kw))) (snd kw) in
      let t2 := add32 (Sigma0 a) (Maj a b c) in
      [add32 t1 t2; a; b; c; add32 d t1; e; f; g]
  | _ => st
  end.

Definition compress (h : list N) (block : list N) : list N :=
  let w := rev (schedule 48 (rev (words_be 16 block))) in
  let st := fold_left round (combine K w) h in
  map (fun p => add32 (fst p) (snd p)) (combine h st).

Fixpoint blocks (n : nat) (h : list N) (bytes : list N) : list N :=
  match n with
  | O => h
  | S n' => blocks n' (compress h (firstn 64 bytes)) (skipn 64 bytes)
  end.

Definition hex_digit (d : N) : N := if d <? 10 then 48 + d else 87 + d.

Definition hex_word (x : N) : list N :=
  map (fun i => hex_digit (N.land (N.shiftr x (4 * N.of_nat i)) 0xf))
      (rev (seq 0 8)).

(** The digest of a byte sequence, in lower-case hexadecimal. *)
Definition sha256_bytes (msg : list N) : jsstring :=
  let p := pad msg in
  flat_map hex_word (blocks (length p / 64) H0 p).

(** The UTF-8 encoding of a string; a lone surrogate is encoded as U+FFFD. *)
Definition utf8_3 (c : N) : list N :=
  [N.lor 0xe0 (N.shiftr c 12);
   N.lor 0x80 (N.land (N.shiftr c 6) 0x3f);
   N.lor 0x80 (N.land c 0x3f)].

Fixpoint utf8 (s : jsstring) : list N :=
  match s with
  | [] => []
  | c :: rest =>
      if c <? 0x80 then c :: utf8 rest
      else if c <? 0x800 then
        N.lor 0xc0 (N.shiftr c 6) :: N.lor 0x80 (N.land c 0x3f) :: utf8 rest
      else if (0xd800 <=? c) && (c <? 0xdc00) then
        match rest with
        | d :: rest' =>
            if (0xdc00 <=? d) && (d <? 0xe000) then
              let cp := 0x10000 + N.shiftl (c - 0xd800) 10 + (d - 0xdc00) in
              [N.lor 0xf0 (N.shiftr cp 18);
               N.lor 0x80 (N.land (N.shiftr cp 12) 0x3f);
               N.lor 0x80 (N.land (N.shiftr cp 6) 0x3f);
               N.lor 0x80 (N.land cp 0x3f)] ++ utf8 rest'
            else utf8_3 0xfffd ++ utf8 rest
        | [] => utf8_3 0xfffd
        end
      else if (0xdc00 <=? c) && (c <? 0xe000) then utf8_3 0xfffd ++ utf8 rest
      else utf8_3 c ++ utf8 rest
  end.

(** [sha256(str)]: the digest of the string's UTF-8 encoding. *)
Definition sha256 (s : jsstring) : jsstring := sha256_bytes (utf8 s).

End SHA256.

(* ===================================================================== *)
(** ** The ingestion run: [RagIngestService.ingestFolder] *)
(* ===================================================================== *)

Module Ingest.
Import stdpp.base stdpp.gmap.
Import SHA256.

(** A [labels] object: its properties in insertion order. *)
Definition Labels : Type := list (jsstring * JSValue).

(** [VectorDoc]. *)
Record VectorDoc : Type := {
  name : jsstring;
  contentType : jsstring;
  vector : list number;
  labels : Labels
}.

(** [machineMeta] of [jsonLdToParagraphsWithMeta]: each property is set
    only when one of its aliases is present in the entity. *)
Record MachineMeta : Type := {
  machine_id : option jsstring;
  asset_name : option jsstring;
  dt_version : option jsstring;
  ts_start : option JSValue;
  ts_end : option JSValue
}.

(** One JSON-LD entity after [flattenJsonLd] and
    [jsonLdToParagraphsWithMeta], which are not modelled: the names it is
    filed under, [flat.id ?? ''], [flat.type ?? ''], the metadata and the
    fact paragraphs. *)
Record Entity : Type := {
  baseName : jsstring;
  file : jsstring;
  entityId : JSValue;
  entityType : JSValue;
  machineMeta : MachineMeta;
  factParagraphs : list jsstring
}.

(** A section of a PDF's text. *)
Record PdfSection : Type := { text : jsstring; heading : option jsstring }.

(** The configuration read from the environment. *)
Record Config : Type := {
  embedDim : Z;
  tokenChunkMin : Z;
  tokenChunkMax : Z;
  tokenOverlap : Z
}.

(** The collaborators of a run and the one regular expression that is
    taken as given. *)
Record Services : Type := {
  (** the vectors the embedding service returns for one input *)
  embeddings : jsstring -> option (list (list number));
  (** [parseInt(process.env.RAG_EMBED_DIM ?? '1024', 10)] of the adapter *)
  targetDim : Embedding.ParsedInt;
  (** the body of the response to a GET of a PDF url *)
  httpGet : jsstring -> option (list N);
  (** [pdfParse]: the text and [String(numpages ?? '')] *)
  pdfParse : list N -> option (jsstring * jsstring);
  (** the test [isHeading] of [sectionizePdfText] *)
  isHeading : jsstring -> bool;
  (** whether the vector store accepts an insert *)
  addDocuments : list VectorDoc -> bool
}.

(** The state a run works on: the two dedup sets of the service instance
    and the records in the vector store. *)
Record World : Type := {
  seenHashes : gset jsstring;
  seenPdfFileHashes : gset jsstring;
  store : list VectorDoc
}.

(** How the promise of [ingestFolder] ends. *)
Inductive Outcome : Type :=
| Done
| Failed
| Hangs.

(** [String(idx)]. *)
Definition show_index (idx : nat) : jsstring :=
  js (NilEmpty.string_of_uint (Nat.to_uint idx)).

Definition opt_label {A} (k : string) (f : A -> JSValue) (o : option A) : Labels :=
  match o with Some x => [(js k, f x)] | None => [] end.

(** The properties that [...machineMeta] adds; none of them has the name of
    a property written before the spread. *)
Definition meta_labels (m : MachineMeta) : Labels :=
  opt_label "machine_id" JStr (machine_id m) ++
  opt_label "asset_name" JStr (asset_name m) ++
  opt_label "dt_version" JStr (dt_version m) ++
  opt_label "ts_start" (fun x => x) (ts_start m) ++
  opt_label "ts_end" (fun x => x) (ts_end m).

Section Run.
Variable cfg : Config.
Variable sv : Services.

(** [chunkByTokens] with the configured sizes; [None]: it does not return. *)
Definition chunks_of (text : jsstring) : option (list jsstring) :=
  Chunker.chunkByTokens text (tokenChunkMin cfg) (tokenChunkMax cfg)
    (tokenOverlap cfg).

(** [embedChunk]; [None]: the promise rejects. *)
Definition embedChunk (name content : jsstring) (labels : Labels)
  : option VectorDoc :=
  match embeddings sv content with
  | None => None
  | Some raw =>
      match Embedding.createEmbeddings_vectors (targetDim sv) raw with
      | None | Some [] => None
      | Some (vec :: _) =>
          Some {| name := name; contentType := js "text/plain";
                  vector := vec; labels := labels |}
      end
  end.

(** A call of [embedChunk] that has been started and not yet awaited. *)
Record Pending : Type := {
  p_name : jsstring;
  p_content : jsstring;
  p_labels : Labels
}.

Definition await (p : Pending) : option VectorDoc :=
  embedChunk (p_name p) (p_content p) (p_labels p).

(** [Promise.all]. *)
Fixpoint await_all (ps : list Pending) : option (list VectorDoc) :=
  match ps with
  | [] => Some []
  | p :: rest =>
      match await p, await_all rest with
      | Some d, Some ds => Some (d :: ds)
      | _, _ => None
      end
  end.

Definition jsonParentLabels (e : Entity) (parentId : jsstring) : Labels :=
  [(js "kind", JStr (js "parent"));
   (js "source", JStr (file e));
   (js "entityId", entityId e);
   (js "entityType", entityType e);
   (js "parent_id", JStr parentId)] ++ meta_labels (machineMeta e).

Definition jsonChildLabels (e : Entity) (parentId hash ch : jsstring) (idx : nat)
  : Labels :=
  [(js "sha256", JStr hash);
   (js "source", JStr (file e));
   (js "kind", JStr (js "jsonld"));
   (js "chunk", JStr (show_index idx));
   (js "parent_id", JStr parentId);
   (js "text", JStr ch);
   (js "entityId", entityId e);
   (js "entityType", entityType e)] ++ meta_labels (machineMeta e).

(** [chunks.forEach((ch, idx) => ...)] of the JSON-LD loop, from index
    [idx] on. *)
Fixpoint jsonChunks (e : Entity) (parentId : jsstring) (idx : nat)
    (chunks : list jsstring) (seen : gset jsstring) (childDocs : list Pending)
  : gset jsstring * list Pending :=
  match chunks with
  | [] => (seen, childDocs)
  | ch :: rest =>
      let hash := sha256 ch in
      if bool_decide (hash ∈ seen) then
        jsonChunks e parentId (S idx) rest seen childDocs
      else
        jsonChunks e parentId (S idx) rest ({[ hash ]} ∪ seen)
          (childDocs ++
           [{| p_name := baseName e ++ js "#" ++ show_index idx;
               p_content := ch;
               p_labels := jsonChildLabels e parentId hash ch idx |}])
  end.

(** The loop over the entities: the dedup set, [parentDocs] and
    [childDocs] after it; [None]: a call of the chunker does not return. *)
Fixpoint jsonEntities (entities : list Entity) (seen : gset jsstring)
    (parentDocs childDocs : list Pending)
  : option (gset jsstring * list Pending * list Pending) :=
  match entities with
  | [] => Some (seen, parentDocs, childDocs)
  | e :: rest =>
      if nonempty (factParagraphs e) then
        let parentId := sha256 (baseName e ++ js ":parent") in
        let joined := JS.join [LF] (factParagraphs e) in
        let parentDocs' :=
          parentDocs ++
          [{| p_name := baseName e ++ js "#parent";
              p_content := joined;
              p_labels := jsonParentLabels e parentId |}] in
        match chunks_of joined with
        | None => None
        | Some chunks =>
            let '(seen', childDocs') :=
              jsonChunks e parentId 0 chunks seen childDocs in
            jsonEntities rest seen' parentDocs' childDocs'
        end
      else jsonEntities rest seen parentDocs childDocs
  end.

(** [s.split(/\n+/)]. *)
Fixpoint split_lines (s : jsstring) : list jsstring :=
  match s with
  | [] => [[]]
  | c :: s' =>
      let r := split_lines s' in
      if (c =? LF)%N then
        match s' with
        | c' :: _ => if (c' =? LF)%N then r else [] :: r
        | [] => [] :: r
        end
      else
        match r with
        | p :: ps => (c :: p) :: ps
        | [] => [[c]]
        end
  end.

(** The first loop of [sectionizePdfText]: the sections pushed so far and
    the section being filled. *)
Fixpoint sectionLines (lines : list jsstring) (sections : list PdfSection)
    (current : option PdfSection) : list PdfSection :=
  match lines with
  | [] =>
      match current with
      | Some c => sections ++ [c]
      | None => sections
      end
  | ln :: rest =>
      if isHeading sv ln then
        sectionLines rest
          (match current with Some c => sections ++ [c] | None => sections end)
          (Some {| text := ln ++ [LF]; heading := Some ln |})
      else
        let c := match current with
                 | Some c => c
                 | None => {| text := []; heading := None |}
                 end in
        sectionLines rest sections
          (Some {| text := text c ++ ln ++ [LF]; heading := heading c |})
  end.

(** The second loop: a section of fewer than 80 words is appended to the
    section before it. *)
Definition mergeTiny (sections : list PdfSection) : list PdfSection :=
  fold_left
    (fun merged sec =>
       let tokenCount := length (words_of (text sec)) in
       match rev merged with
       | lastSec :: front =>
           if (tokenCount <? 80)%nat then
             rev front ++
             [{| text := text lastSec ++ [LF] ++ text sec;
                 heading := heading lastSec |}]
           else merged ++ [sec]
       | [] => merged ++ [sec]
       end)
    sections [].

(** [sectionizePdfText]. *)
Definition sectionizePdfText (fullText : jsstring) : list PdfSection :=
  let lines := List.filter nonempty (List.map trim (split_lines fullText)) in
  mergeTiny (sectionLines lines [] None).

(** [pickSectionForSpan]. *)
Definition pickSectionForSpan (paragraphs : list PdfSection) (span : jsstring)
  : jsstring :=
  match List.find (fun p => match heading p with
                            | Some h => nonempty h && includes span h
                            | None => false
                            end) paragraphs with
  | Some {| heading := Some h |} => h
  | _ => []
  end.

(** [url.split('/').pop()]. *)
Fixpoint last_segment (s acc : jsstring) : jsstring :=
  match s with
  | [] => acc
  | c :: rest => if (c =? 47)%N then last_segment rest [] else last_segment rest (acc ++ [c])
  end.

Definition pdfParentLabels (parentId pdfFileHash url fileName pageCount : jsstring)
  : Labels :=
  [(js "kind", JStr (js "parent"));
   (js "parent_id", JStr parentId);
   (js "pdfFileHash", JStr pdfFileHash);
   (js "sourceUrl", JStr url);
   (js "filename", JStr fileName);
   (js "pageCount", JStr pageCount)].

Definition pdfChildLabels (combinedHash pdfFileHash url fileName pageCount : jsstring)
    (idx : nat) (parentId ch sectionPath : jsstring) : Labels :=
  [(js "sha256", JStr combinedHash);
   (js "pdfFileHash", JStr pdfFileHash);
   (js "sourceUrl", JStr url);
   (js "filename", JStr fileName);
   (js "pageCount", JStr pageCount);
   (js "kind", JStr (js "pdf-text"));
   (js "chunk", JStr (show_index idx));
   (js "parent_id", JStr parentId);
   (js "text", JStr ch);
   (js "section_path", JStr sectionPath)].

(** [for (const ch of chunks)] of a PDF worker; a rejected [embedChunk]
    ends the worker (its [catch] logs and returns). *)
Fixpoint pdfChunks (pdfFileHash url fileName pageCount parentId : jsstring)
    (paragraphs : list PdfSection) (idx : nat) (chunks : list jsstring)
    (seen : gset jsstring) (out : list VectorDoc)
  : gset jsstring * list VectorDoc :=
  match chunks with
  | [] => (seen, out)
  | ch :: rest =>
      let combinedHash := sha256 (pdfFileHash ++ js ":" ++ ch) in
      if bool_decide (combinedHash ∈ seen) then
        pdfChunks pdfFileHash url fileName pageCount parentId paragraphs idx rest
          seen out
      else
        let seen' := {[ combinedHash ]} ∪ seen in
        let sectionPath := pickSectionForSpan paragraphs ch in
        match embedChunk (fileName ++ js "#" ++ show_index idx) ch
                (pdfChildLabels combinedHash pdfFileHash url fileName pageCount
                   idx parentId ch sectionPath) with
        | None => (seen', out)
        | Some d =>
            pdfChunks pdfFileHash url fileName pageCount parentId paragraphs
              (S idx) rest seen' (out ++ [d])
        end
  end.

(** The state of [processPdfs]: both dedup sets and [out]. *)
Record PdfState : Type := {
  ps_seen : gset jsstring;
  ps_files : gset jsstring;
  ps_out : list VectorDoc
}.

(** One [worker(url)]; [None]: the chunker does not return. *)
Definition pdfWorker (url : jsstring) (st : PdfState) : option PdfState :=
  match httpGet sv url with
  | None => Some st
  | Some buf =>
      let pdfFileHash := sha256_bytes buf in
      if bool_decide (pdfFileHash ∈ ps_files st) then Some st
      else
        let files' := {[ pdfFileHash ]} ∪ ps_files st in
        let st1 := {| ps_seen := ps_seen st; ps_files := files';
                      ps_out := ps_out st |} in
        match pdfParse sv buf with
        | None => Some st1
        | Some (rawText, pageCount) =>
            let fullText := trim (List.filter (fun c => negb (c =? 13)%N) rawText) in
            if nonempty fullText then
              let fileName :=
                let seg := last_segment url [] in
                if nonempty seg then seg else js "manual.pdf" in
              let parentId :=
                sha256 (fileName ++ js ":parent:" ++ pdfFileHash) in
              let parentText :=
                if (12000 <? Z.of_nat (length fullText))%Z then slice fullText 0 12000
                else fullText in
              match embedChunk (fileName ++ js "#parent") parentText
                      (pdfParentLabels parentId pdfFileHash url fileName pageCount) with
              | None => Some st1
              | Some parent =>
                  let paragraphs := sectionizePdfText fullText in
                  let joined := JS.join [LF] (List.map text paragraphs) in
                  match chunks_of joined with
                  | None => None
                  | Some chunks =>
                      let '(seen', out') :=
                        pdfChunks pdfFileHash url fileName pageCount parentId
                          paragraphs 0 chunks (ps_seen st)
                          (ps_out st ++ [parent]) in
                      Some {| ps_seen := seen'; ps_files := files';
                              ps_out := out' |}
                  end
              end
            else Some st1
        end
  end.

(** [processPdfs] with [pdfConcurrency = 1]: the workers run one after the
    other. *)
Fixpoint processPdfs (urls : list jsstring) (st : PdfState) : option PdfState :=
  match urls with
  | [] => Some st
  | url :: rest =>
      match pdfWorker url st with
      | None => None
      | Some st' => processPdfs rest st'
      end
  end.

(** [ingestFolder], from the parsed entities and the collected PDF urls
    on. *)
Definition ingestFolder (entities : list Entity) (pdfUrls : list jsstring)
    (w : World) : Outcome * World :=
  match jsonEntities entities (seenHashes w) [] [] with
  | None => (Hangs, w)
  | Some (seen1, parentDocs, childDocs) =>
      let w1 := {| seenHashes := seen1;
                   seenPdfFileHashes := seenPdfFileHashes w;
                   store := store w |} in
      match await_all parentDocs with
      | None => (Failed, w1)
      | Some jsonParents =>
          match await_all childDocs with
          | None => (Failed, w1)
          | Some jsonChildren =>
              match processPdfs pdfUrls
                      {| ps_seen := seen1; ps_files := seenPdfFileHashes w;
                         ps_out := [] |} with
              | None => (Hangs, w1)
              | Some st =>
                  let allDocs :=
                    List.filter
                      (fun d => (Z.of_nat (length (vector d)) =? embedDim cfg)%Z)
                      (jsonParents ++ jsonChildren ++ ps_out st) in
                  let w2 := {| seenHashes := ps_seen st;
                               seenPdfFileHashes := ps_files st;
                               store := store w |} in
                  if nonempty allDocs then
                    if addDocuments sv allDocs then
                      (Done, {| seenHashes := ps_seen st;
                                seenPdfFileHashes := ps_files st;
                                store := store w ++ allDocs |})
                    else (Failed, w2)
                  else (Done, w2)
              end
          end
      end
  end.

End Run.

(** The string under the name [k] in a [labels] object. *)
Definition label_string (k : string) (l : Labels) : option jsstring :=
  match Value.assoc (js k) l with
  | Some (JStr s) => Some s
  | _ => None
  end.

(** The fingerprint a record carries: its [sha256] label. *)
Definition fingerprint (d : VectorDoc) : option jsstring :=
  label_string "sha256" (labels d).

(** The content a chunk record carries: its [text] label. *)
Definition chunk_text (d : VectorDoc) : option jsstring :=
  label_string "text" (labels d).

Definition fingerprints (docs : list VectorDoc) : list jsstring :=
  flat_map (fun d => match fingerprint d with Some h => [h] | None => [] end) docs.


End Ingest.

(* ===================================================================== *)
(** ** Specification vocabulary and an example for the ingestion run *)
(* ===================================================================== *)

Module IngestSpec.
Import stdpp.base stdpp.gmap.
Import SHA256 Ingest.

(** The key under which the run deduplicates the chunk that a record with
    the labels [l] was made from: the hash of the content for a JSON-LD
    chunk; the hash of the file's hash, a colon and the content for a PDF
    chunk. *)
Definition dedup_key (l : Labels) : option jsstring :=
  match label_string "kind" l, label_string "text" l with
  | Some kind, Some content =>
      if str_eqb kind (js "jsonld") then Some (sha256 content)
      else if str_eqb kind (js "pdf-text") then
        match label_string "pdfFileHash" l with
        | Some fileHash => Some (sha256 (fileHash ++ js ":" ++ content))
        | None => None
        end
      else None
  | _, _ => None
  end.

(** Labels that carry a fingerprint carry their dedup key. *)
Definition keyed (l : Labels) : Prop :=
  forall h, label_string "sha256" l = Some h -> dedup_key l = Some h.

(** The keys [keys] were all added to the dedup set during the run, each
    once: none repeats, none was in the set [before], all are in the set
    [now]. *)
Definition fresh (before now : gset jsstring) (keys : list jsstring) : Prop :=
  List.NoDup keys /\ forall h, List.In h keys -> (h ∉ before) /\ (h ∈ now).

(** The fingerprints in a list of [labels] objects. *)
Definition keys_of (ls : list Labels) : list jsstring :=
  flat_map (fun l => match label_string "sha256" l with
                     | Some h => [h]
                     | None => []
                     end) ls.

(** The invariant of the loops of a run that started with the dedup set
    [before]. *)
Definition dedup_invariant (before now : gset jsstring) (ls : list Labels) : Prop :=
  (fresh before now (keys_of ls) /\ before ⊆ now) /\ Forall keyed ls.

End IngestSpec.

Module IngestExample.
Import stdpp.base stdpp.gmap.
Import Ingest.

Definition config : Config :=
  {| embedDim := 4; tokenChunkMin := 200; tokenChunkMax := 400;
     tokenOverlap := 80 |}.

Definition pdfUrl : jsstring := js "https://docs.example/manuals/pump.pdf".

(** The stand-in for the bytes of the PDF. *)
Definition pdfBytes : list N := SHA256.utf8 (js "%PDF-1.4 pump manual").

(** The PDF's text is [alpha beta], a line that is no heading. *)
Definition services : Services :=
  {| embeddings := fun _ => Some [[Fin 1; Fin 2]];
     targetDim := Embedding.PInt 4;
     httpGet := fun _ => Some pdfBytes;
     pdfParse := fun _ => Some (js "alpha beta", js "1");
     isHeading := fun _ => false;
     addDocuments := fun _ => true |}.

(** An entity whose facts are the one paragraph [alpha beta]. *)
Definition entity : Entity :=
  {| baseName := js "pump.json";
     file := js "pump.json";
     entityId := JStr (js "urn:iff:asset:42");
     entityType := JStr (js "Pump");
     machineMeta := {| machine_id := None; asset_name := None;
                       dt_version := None; ts_start := None; ts_end := None |};
     factParagraphs := [js "alpha beta"] |}.

Definition emptyWorld : World :=
  {| seenHashes := ∅; seenPdfFileHashes := ∅; store := [] |}.

End IngestExample.

(* ===================================================================== *)
(** ** Specification vocabulary for the PDF text *)
(* ===================================================================== *)

Module PdfSpec.
Import Ingest.

(** The words of the sections' texts, in order. *)
Definition section_words (secs : list PdfSection) : list jsstring :=
  flat_map (fun s => words_of (text s)) secs.

End PdfSpec.

(* ===================================================================== *)
(** ** More example collaborators for the ingestion run *)
(* ===================================================================== *)

Module IngestExample2.
Import stdpp.base stdpp.gmap.
Import Ingest IngestExample.

(** Collaborators like [services], but the vector store rejects every
    insert. *)
Definition rejectingServices : Services :=
  {| embeddings := embeddings services;
     targetDim := targetDim services;
     httpGet := httpGet services;
     pdfParse := pdfParse services;
     isHeading := isHeading services;
     addDocuments := fun _ => false |}.

End IngestExample2.

(* ===================================================================== *)
(** ** The JSON-LD helpers of [RagIngestService] *)
(* ===================================================================== *)

Module JsonLd.

(** Matching [cls{k,}] and then [cont]: at least [k] characters of the
    class [cls], as many as it takes for [cont] to match what follows. *)
Fixpoint at_least (cls : N -> bool) (cont : jsstring -> bool) (k : nat)
    (s : jsstring) {struct s} : bool :=
  match k with
  | O =>
      cont s ||
      match s with
      | c :: s' => cls c && at_least cls cont O s'
      | [] => false
      end
  | S k' =>
      match s with
      | c :: s' => cls c && at_least cls cont k' s'
      | [] => false
      end
  end.

Definition is_digit (c : N) : bool := ((48 <=? c) && (c <=? 57))%N.
Definition is_upper (c : N) : bool := ((65 <=? c) && (c <=? 90))%N.
Definition is_lower (c : N) : bool := ((97 <=? c) && (c <=? 122))%N.

(** [\s*:]. *)
Definition ws_colon (s : jsstring) : bool :=
  match drop_ws s with
  | c :: _ => (c =? 58)%N
  | [] => false
  end.

(** The test of [groupLinesIntoParagraphs]:
    [/^(\d+\.|[A-Z][A-Za-z0-9_\- ]{2,}|[A-Z_]{3,})\s*:/.test(line)]. *)
Definition looksLikeSectionKey (line : jsstring) : bool :=
  at_least is_digit
    (fun r => match r with
              | c :: r' => (c =? 46)%N && ws_colon r'
              | [] => false
              end) 1 line
  || match line with
     | c :: r =>
         is_upper c &&
         at_least (fun x => is_upper x || is_lower x || is_digit x ||
                            (x =? 95) || (x =? 45) || (x =? 32))%N
           ws_colon 2 r
     | [] => false
     end
  || at_least (fun x => is_upper x || (x =? 95)%N) ws_colon 3 line.

(** The closure [flush]: the paragraphs and the buffer after it. *)
Definition flush (paras buf : list jsstring) : list jsstring * list jsstring :=
  if nonempty buf then (paras ++ [join [LF] buf], []) else (paras, buf).

(** The loop of [groupLinesIntoParagraphs]. *)
Fixpoint groupLoop (lines paras buf : list jsstring)
  : list jsstring * list jsstring :=
  match lines with
  | [] => (paras, buf)
  | line :: rest =>
      if looksLikeSectionKey line then
        let '(paras1, buf1) := flush paras buf in
        let '(paras2, buf2) := flush paras1 (buf1 ++ [line]) in
        groupLoop rest paras2 buf2
      else groupLoop rest paras (buf ++ [line])
  end.

(** [groupLinesIntoParagraphs]. *)
Definition groupLinesIntoParagraphs (lines : list jsstring) : list jsstring :=
  let '(paras, buf) := groupLoop lines [] [] in
  filter nonempty (fst (flush paras buf)).

(** [/\.pdf(\?|#|$)/i.test(v)]: somewhere in [v] stands [.pdf], in
    either case, followed by [?], by [#] or by the end of [v]. *)
Definition pdf_here (s : jsstring) : bool :=
  match s with
  | a :: b :: c :: d :: rest =>
      ((a =? 46) && ((b =? 112) || (b =? 80)) && ((c =? 100) || (c =? 68))
       && ((d =? 102) || (d =? 70)))%N
      && match rest with
         | [] => true
         | e :: _ => ((e =? 63) || (e =? 35))%N
         end
  | _ => false
  end.

Fixpoint is_pdf_ref (s : jsstring) : bool :=
  pdf_here s ||
  match s with
  | _ :: s' => is_pdf_ref s'
  | [] => false
  end.

(** [set.add(x)] for a [Set] of strings, kept in insertion order (the
    order of [Array.from(set)]). *)
Definition set_add (x : jsstring) (set : list jsstring) : list jsstring :=
  if existsb (str_eqb x) set then set else set ++ [x].

(** The closure [walk] of [collectPdfUrls], applied to [v] with the set
    [set]; the set afterwards.  The fields of an object are listed in the
    order of [Object.keys]. *)
Fixpoint walk (v : JSValue) (set : list jsstring) {struct v} : list jsstring :=
  match v with
  | JUndefined | JNull => set
  | JStr s => if is_pdf_ref s then set_add s set else set
  | JArr items => fold_left (fun acc x => walk x acc) items set
  | JObj fields =>
      let set1 :=
        match assoc (js "type") fields with
        | Some (JStr ty) =>
            if str_eqb ty (js "Property") then
              (fix value (fs : list (jsstring * JSValue)) : list jsstring :=
                 match fs with
                 | [] => set
                 | (k, x) :: fs' =>
                     if str_eqb (js "value") k then
                       if nullish x then set else walk x set
                     else value fs'
                 end) fields
            else set
        | _ => set
        end in
      fold_left
        (fun acc kx =>
           let '(k, x) := kx in
           if str_eqb k (js "value") then acc else walk x acc)
        fields set1
  | _ => set
  end.

(** [collectPdfUrls(obj, set)]. *)
Definition collectPdfUrls (obj : JSValue) (set : list jsstring) : list jsstring :=
  walk obj set.

End JsonLd.

Module JsonLdSpec.
Import JsonLd.

(** The string [u] is found in [v] on a path that [collectPdfUrls]
    follows: through the elements of arrays, through the properties of
    objects other than [value], and through the [value] of an object whose
    [type] is ['Property']. *)
Inductive followed (u : jsstring) : JSValue -> Prop :=
| followed_here : followed u (JStr u)
| followed_item : forall items x,
    In x items -> followed u x -> followed u (JArr items)
| followed_field : forall fields k x,
    In (k, x) fields -> k <> js "value" -> followed u x ->
    followed u (JObj fields)
| followed_value : forall fields x,
    assoc (js "type") fields = Some (JStr (js "Property")) ->
    assoc (js "value") fields = Some x ->
    followed u x -> followed u (JObj fields).

End JsonLdSpec.

(* ===================================================================== *)
(** ** More example requests and collaborators *)
(* ===================================================================== *)

Module Examples2.
Import Query Examples.

(** Collaborators like [services], but the completion service is down. *)
Definition llmDown : Services :=
  {| completion := fun _ => None;
     pgPool := true;
     pgSeries := fun _ _ _ _ => None;
     alerta := fun _ => None;
     embeddings := embeddings (services [] []);
     targetDim := Embedding.PInt 4;
     milvusCollection := [];
     milvus := milvus (services [] []) |}.

(** Collaborators like [services intentJson []], without a Postgres pool. *)
Definition noPool : Services :=
  {| completion := completion (services intentJson []);
     pgPool := false;
     pgSeries := fun _ _ _ _ => None;
     alerta := fun _ => None;
     embeddings := embeddings (services [] []);
     targetDim := Embedding.PInt 4;
     milvusCollection := [];
     milvus := milvus (services [] []) |}.

(** Collaborators like [services intentJson []], but the time-series query
    fails. *)
Definition dbDown : Services :=
  {| completion := completion (services intentJson []);
     pgPool := true;
     pgSeries := fun _ _ _ _ => None;
     alerta := fun _ => None;
     embeddings := embeddings (services [] []);
     targetDim := Embedding.PInt 4;
     milvusCollection := [];
     milvus := milvus (services [] []) |}.

(** A positive alert intent, as JSON text and parsed. *)
Definition alertJson : jsstring :=
  js "{" ++ quoted "wants_alert" ++ js ":true," ++
  quoted "asset_urn" ++ js ":" ++ quoted "urn:iff:asset:42" ++ js "}".

Definition alertValue : JSValue :=
  JObj [(js "wants_alert", JBool true);
        (js "asset_urn", JStr (js "urn:iff:asset:42"))].

(** Built-ins like [builtins], with [JSON.parse] agreeing with
    JavaScript's on [alertJson] and on text that is no JSON. *)
Definition alertBuiltins : Builtins :=
  {| JSON_parse := fun s => if str_eqb s alertJson then Some alertValue else None;
     JSON_stringify := JSON_stringify builtins;
     Number_toString := Number_toString builtins |}.

(** The completion service answers every request with [alertJson]; the
    alert service is down. *)
Definition alertServices : Services :=
  {| completion := fun _ => Some (response alertJson);
     pgPool := true;
     pgSeries := fun _ _ _ _ => None;
     alerta := fun _ => None;
     embeddings := embeddings (services [] []);
     targetDim := Embedding.PInt 4;
     milvusCollection := [];
     milvus := milvus (services [] []) |}.

Definition askAlerts : list ChatMsg :=
  [{| role := js "user";
      content := js "any alerts for urn:iff:asset:42?" |}].

(** A conversation without a user turn. *)
Definition greeting : list ChatMsg :=
  [{| role := js "assistant"; content := js "hi, how can I help?" |}].

End Examples2.

(* ===================================================================== *)
(** ** Masking: [QueryService.mask] and [QueryService.unmask] *)
(* ===================================================================== *)

Module Mask.

(** [n.toString(16)] for an integer [n >= 0]: lower-case digits, most
    significant first, no leading zero. *)
Fixpoint to_hex (fuel : nat) (n : N) (acc : jsstring) : jsstring :=
  match fuel with
  | O => acc
  | S fuel' =>
      let acc' := SHA256.hex_digit (n mod 16) :: acc in
      if (n / 16 =? 0)%N then acc' else to_hex fuel' (n / 16) acc'
  end.

Definition toString16 (n : N) : jsstring :=
  to_hex (S (N.to_nat (N.log2 n))) n [].

(** [s.padStart(2, '0')]. *)
Definition padStart2 (s : jsstring) : jsstring :=
  repeat 48%N (2 - length s) ++ s.

(** [key.charCodeAt(i % key.length)], read as an operand of [^]: for the
    empty key the index is [NaN] and so is the code, which [^] takes
    for [0]. *)
Definition key_code (key : jsstring) (i : nat) : N :=
  match key with
  | [] => 0%N
  | _ :: _ => nth (i mod length key) key 0%N
  end.

(** [mask(input, key)]. *)
Definition mask (input key : jsstring) : jsstring :=
  concat
    (Query.mapi_from 0
       (fun i char => padStart2 (toString16 (N.lxor char (key_code key i))))
       input).

(** The characters that [.] does not match: the line terminators. *)
Definition is_line_terminator (c : N) : bool :=
  ((c =? 10) || (c =? 13) || (c =? 8232) || (c =? 8233))%N.

(** [masked.match(/.{1,2}/g)]: the matches, from left to right; the empty
    list stands for [null]. *)
Fixpoint match_pairs (s : jsstring) : list jsstring :=
  match s with
  | [] => []
  | c :: s' =>
      if is_line_terminator c then match_pairs s'
      else
        match s' with
        | [] => [[c]]
        | d :: s'' =>
            if is_line_terminator d then [c] :: match_pairs s''
            else [c; d] :: match_pairs s''
        end
  end.

(** The value of a digit of radix 16. *)
Definition hex_value (c : N) : option Z :=
  if ((48 <=? c) && (c <=? 57))%N then Some (Z.of_N c - 48)%Z
  else if ((97 <=? c) && (c <=? 102))%N then Some (Z.of_N c - 87)%Z
  else if ((65 <=? c) && (c <=? 70))%N then Some (Z.of_N c - 55)%Z
  else None.

(** The value of the longest prefix of digits, after the value [acc] of
    the digits read so far. *)
Fixpoint digits_value (acc : Z) (s : jsstring) : Z :=
  match s with
  | [] => acc
  | c :: s' =>
      match hex_value c with
      | Some d => digits_value (16 * acc + d) s'
      | None => acc
      end
  end.

(** [parseInt(h, 16)]; [None] is [NaN].  Leading whitespace is skipped,
    then a sign and a prefix [0x] or [0X] are read, then the longest prefix
    of digits. *)
Definition parseInt16 (h : jsstring) : option Z :=
  let s1 := drop_ws h in
  let '(sign, s2) :=
    match s1 with
    | 45%N :: r => ((-1)%Z, r)
    | 43%N :: r => (1%Z, r)
    | _ => (1%Z, s1)
    end in
  let s3 :=
    match s2 with
    | 48%N :: x :: r => if ((x =? 120) || (x =? 88))%N then r else s2
    | _ => s2
    end in
  match s3 with
  | [] => None
  | c :: _ =>
      match hex_value c with
      | Some _ => Some (sign * digits_value 0 s3)%Z
      | None => None
      end
  end.

(** [String.fromCharCode(x)] for the result [x] of [^]: the code unit
    [x] modulo [2^16]. *)
Definition fromCharCode (x : Z) : N := Z.to_N (x mod 65536).

(** [unmask(masked, key)].  ([NaN ^ k] is [k]: [^] takes [NaN]
    for [0].) *)
Definition unmask (masked key : jsstring) : Res jsstring :=
  if nonempty key then
    match match_pairs masked with
    | [] => Throw TypeError
    | hs =>
        Ok (Query.mapi_from 0
              (fun i h =>
                 let b := match parseInt16 h with Some z => z | None => 0%Z end in
                 fromCharCode (Z.lxor b (Z.of_N (key_code key i))))
              hs)
    end
  else Throw (Error (js "Mask secret is not defined")).

End Mask.

(* ===================================================================== *)
(** ** The vector store client: [MilvusRagService.addDocuments] *)
(* ===================================================================== *)

Module Milvus.

Section Rows.
Variable bi : Builtins.

(** The element of [data] that [addDocuments] sends for a document
    prepared by [ingestFolder] (which has a content type and no url). *)
Definition insertRow (d : Ingest.VectorDoc) : JSValue :=
  JObj [(js "vector", JArr (map JNum (Ingest.vector d)));
        (js "name", JStr (Ingest.name d));
        (js "contentType", JStr (Ingest.contentType d));
        (js "url", JNull);
        (js "labels", JStr (JSON_stringify bi (JObj (Ingest.labels d))))].

End Rows.

End Milvus.

Module Examples3.
Import Query Examples.

(** The text of a chunk record's labels, cut down to the [text] label. *)
Definition labelsJson : jsstring :=
  js "{" ++ quoted "text" ++ js ":" ++ quoted "alpha beta" ++ js "}".

Definition chunkDoc : Ingest.VectorDoc :=
  {| Ingest.name := js "pump.json#0";
     Ingest.contentType := js "text/plain";
     Ingest.vector := [Fin 1; Fin 2; zero; zero];
     Ingest.labels := [(js "text", JStr (js "alpha beta"))] |}.

(** Built-ins like [builtins], with [JSON.stringify] and [JSON.parse]
    agreeing with JavaScript's on the labels of [chunkDoc]. *)
Definition labelBuiltins : Builtins :=
  {| JSON_parse := fun s =>
       if str_eqb s labelsJson then Some (JObj (Ingest.labels chunkDoc)) else None;
     JSON_stringify := fun _ => labelsJson;
     Number_toString := Number_toString builtins |}.

End Examples3.

(* ===================================================================== *)
(** ** Key derivation: [deriveKey] *)
(* ===================================================================== *)

Module Crypto.
Import SHA256.

(** [crypto.createHash('sha256').update(x).digest()]: the bytes of the
    digest. *)
Definition sha256_digest (msg : list N) : list N :=
  let p := pad msg in
  flat_map (be_bytes 4) (blocks (length p / 64) H0 p).

(** [deriveKey(secret)], of the query service and of the front end's
    [tools.ts]: the digest of the secret's UTF-8 encoding. *)
Definition deriveKey (secret : jsstring) : list N := sha256_digest (utf8 secret).

(** The two lower-case hexadecimal digits of a byte. *)
Definition byte_hex (b : N) : jsstring :=
  [hex_digit (N.shiftr b 4); hex_digit (N.land b 0xf)].

End Crypto.

(* ===================================================================== *)
(** ** Specification vocabulary for the stored chunks *)
(* ===================================================================== *)

Module StoreSpec.

(** The chunk [ch] is a window of at most [maxTokens] words: not empty,
    and its words separated by single spaces. *)
Definition fits_window (maxTokens : Z) (ch : jsstring) : Prop :=
  ch <> [] /\
  (Z.of_nat (length (words_of ch)) <= maxTokens)%Z /\
  join [SP] (words_of ch) = ch.

End StoreSpec.

(* ##################################################################### *)
(** * Theorems *)
(* ##################################################################### *)

(* ===================================================================== *)
(** ** Words, joins and trims *)
(* ===================================================================== *)

Module StringFacts.

Lemma split_ws_not_nil (s : jsstring) : split_ws s <> [].
Proof.
  induction s as [|c s IH]; simpl; [discriminate|].
  destruct (is_ws c).
  - destruct s as [|c' s']; [discriminate|].
    destruct (is_ws c'); [exact IH | discriminate].
  - destruct (split_ws s); discriminate.
Qed.

Lemma split_ws_ws_free (s : jsstring) :
  Forall (Forall (fun c => is_ws c = false)) (split_ws s).
Proof.
  induction s as [|c s IH]; simpl.
  - repeat constructor.
  - destruct (is_ws c) eqn:Hc.
    + destruct s as [|c' s']; [repeat constructor|].
      destruct (is_ws c'); [exact IH | constructor; [constructor | exact IH]].
    + destruct (split_ws s) as [|p ps]; [repeat constructor; exact Hc|].
      inversion IH; subst. constructor; [constructor; assumption | assumption].
Qed.

Lemma words_of_words (s : jsstring) : Forall word (words_of s).
Proof.
  unfold words_of.
  pose proof (split_ws_ws_free s) as H.
  induction H as [|p ps Hp _ IH]; simpl; [constructor|].
  destruct p as [|c p]; simpl; [exact IH|].
  constructor; [split; [discriminate | exact Hp] | exact IH].
Qed.

Lemma split_ws_app_word (w s : jsstring) :
  Forall (fun c => is_ws c = false) w ->
  split_ws (w ++ s) =
  match split_ws s with
  | p :: ps => (w ++ p) :: ps
  | [] => [w]
  end.
Proof.
  induction 1 as [|c w Hc _ IH]; simpl.
  - destruct (split_ws s) eqn:E; [destruct (split_ws_not_nil _ E) | reflexivity].
  - rewrite Hc, IH. destruct (split_ws s); reflexivity.
Qed.

Lemma join_cons2 (sep x y : jsstring) (l : list jsstring) :
  join sep (x :: y :: l) = x ++ sep ++ join sep (y :: l).
Proof. reflexivity. Qed.

Lemma join_head (w : jsstring) (ws : list jsstring) :
  word w -> exists c s, join [SP] (w :: ws) = c :: s /\ is_ws c = false.
Proof.
  intros [Hne Hw]. destruct w as [|c w]; [contradiction|].
  inversion Hw; subst.
  destruct ws; simpl; eauto.
Qed.

Lemma split_ws_sp_cons (c : N) (s : jsstring) :
  is_ws c = false -> split_ws (SP :: c :: s) = [] :: split_ws (c :: s).
Proof. intros H. simpl. rewrite H. reflexivity. Qed.

(** Splitting the join of words gives the words back. *)
Lemma words_of_join (ws : list jsstring) :
  Forall word ws -> words_of (join [SP] ws) = ws.
Proof.
  induction 1 as [|w ws Hw Hws IH]; [reflexivity|].
  destruct ws as [|w2 ws].
  - simpl. unfold words_of. rewrite <- (app_nil_r w) at 1.
    rewrite split_ws_app_word by apply Hw. simpl.
    rewrite app_nil_r. destruct w; [destruct Hw; contradiction | reflexivity].
  - rewrite join_cons2. unfold words_of in *.
    rewrite split_ws_app_word by apply Hw.
    inversion Hws as [|? ? Hw2 _]; subst.
    destruct (join_head w2 ws Hw2) as (c & s & Ej & Hc).
    change ([SP] ++ join [SP] (w2 :: ws)) with (SP :: join [SP] (w2 :: ws)).
    rewrite Ej in *. rewrite split_ws_sp_cons by exact Hc.
    rewrite app_nil_r. cbn [filter].
    destruct w as [|c0 w]; [destruct Hw; contradiction|].
    cbn [nonempty]. f_equal. exact IH.
Qed.

Lemma drop_ws_id (c : N) (s : jsstring) :
  is_ws c = false -> drop_ws (c :: s) = c :: s.
Proof. intros H; simpl; rewrite H; reflexivity. Qed.

Lemma join_last (w : jsstring) (ws : list jsstring) :
  Forall word (w :: ws) ->
  exists s c, join [SP] (w :: ws) = s ++ [c] /\ is_ws c = false.
Proof.
  revert w. induction ws as [|w2 ws IH]; intros w H.
  - inversion H as [|? ? [Hne Hw] _]; subst. simpl.
    destruct (exists_last Hne) as (s & c & ->).
    exists s, c. split; [reflexivity|].
    apply Forall_app in Hw. destruct Hw as [_ Hc]. inversion Hc; assumption.
  - inversion H; subst.
    destruct (IH w2) as (s & c & E & Hc); [assumption|].
    rewrite join_cons2, E. exists (w ++ [SP] ++ s), c.
    split; [now rewrite <- !app_assoc | exact Hc].
Qed.

(** The join of words has nothing to trim. *)
Lemma trim_join (ws : list jsstring) :
  Forall word ws -> trim (join [SP] ws) = join [SP] ws.
Proof.
  intros H. destruct ws as [|w ws]; [reflexivity|].
  unfold trim.
  inversion H as [|? ? Hw _]; subst.
  destruct (join_head w ws Hw) as (c & s & E & Hc).
  destruct (join_last w ws H) as (s' & c' & E' & Hc').
  rewrite E, drop_ws_id, <- E, E' by exact Hc.
  rewrite rev_app_distr. simpl rev at 2. simpl app.
  rewrite drop_ws_id by exact Hc'.
  change (c' :: rev s') with (rev [c'] ++ rev s').
  now rewrite <- rev_app_distr, rev_involutive.
Qed.

Lemma join_chars (ws : list jsstring) :
  Forall word ws ->
  Forall (fun c => c = SP \/ is_ws c = false) (join [SP] ws).
Proof.
  induction 1 as [|w ws [_ Hw] Hws IH]; [constructor|].
  assert (Hw' : Forall (fun c => c = SP \/ is_ws c = false) w)
    by (eapply Forall_impl; [|exact Hw]; auto).
  destruct ws as [|w2 ws]; [exact Hw'|].
  rewrite join_cons2. apply Forall_app; split; [exact Hw'|].
  constructor; [now left | exact IH].
Qed.

Lemma lastIndexOf_no_break (s : jsstring) (i : Z) :
  Forall (fun c => c = SP \/ is_ws c = false) s ->
  lastIndexOf_from i s [LF; LF] = (-1)%Z.
Proof.
  intros H. revert i. induction H as [|c s Hc _ IH]; intros i; [reflexivity|].
  cbn [lastIndexOf_from]. rewrite IH.
  change (0 <=? -1)%Z with false. cbv iota. cbn [starts_with].
  destruct (N.eqb_spec LF c) as [<-|]; [|reflexivity].
  destruct Hc as [Hc|Hc]; discriminate Hc.
Qed.

Lemma join_nonempty (w : jsstring) (ws : list jsstring) :
  word w -> nonempty (join [SP] (w :: ws)) = true.
Proof.
  intros H. destruct (join_head w ws H) as (c & s & -> & _). reflexivity.
Qed.

End StringFacts.

(* ===================================================================== *)
(** ** Segments of the word list *)
(* ===================================================================== *)

Module SegFacts.

Lemma Forall_firstn {A} (P : A -> Prop) (n : nat) (l : list A) :
  Forall P l -> Forall P (firstn n l).
Proof.
  intros H. revert n. induction H; intros [|n]; simpl; constructor; auto.
Qed.

Lemma Forall_skipn {A} (P : A -> Prop) (n : nat) (l : list A) :
  Forall P l -> Forall P (skipn n l).
Proof.
  intros H. revert n. induction H; intros [|n]; simpl; auto.
Qed.

Lemma Forall_seg {A} (P : A -> Prop) (l : list A) (a b : nat) :
  Forall P l -> Forall P (seg l a b).
Proof. intros H. apply Forall_firstn, Forall_skipn, H. Qed.

Lemma Forall_slice {A} (P : A -> Prop) (l : list A) (a b : Z) :
  Forall P l -> Forall P (slice l a b).
Proof. intros H. apply Forall_firstn, Forall_skipn, H. Qed.

Lemma slice_seg {A} (l : list A) (a b : Z) :
  (0 <= a <= b)%Z -> (b <= Z.of_nat (length l))%Z ->
  slice l a b = seg l (Z.to_nat a) (Z.to_nat b).
Proof.
  intros Hab Hb. unfold slice, seg, rel_index.
  destruct (Z.ltb_spec a 0); [lia|]. destruct (Z.ltb_spec b 0); [lia|].
  rewrite !Z.min_l by lia. f_equal. lia.
Qed.

Lemma seg_length {A} (l : list A) (a b : nat) :
  b <= length l -> length (seg l a b) = b - a.
Proof. intros H. unfold seg. rewrite length_firstn, length_skipn. lia. Qed.

Lemma seg_skipn {A} (l : list A) (a b k : nat) :
  skipn k (seg l a b) = seg l (a + k) b.
Proof.
  unfold seg. rewrite skipn_firstn_comm, skipn_skipn.
  f_equal; [lia | f_equal; lia].
Qed.

Lemma seg_firstn {A} (l : list A) (a b k : nat) :
  a + k <= b -> firstn k (seg l a b) = seg l a (a + k).
Proof.
  intros H. unfold seg. rewrite firstn_firstn. f_equal. lia.
Qed.

Lemma seg_app_skipn {A} (l : list A) (a b : nat) :
  a <= b -> seg l a b ++ skipn b l = skipn a l.
Proof.
  intros H. unfold seg.
  replace (skipn b l) with (skipn (b - a) (skipn a l))
    by (rewrite skipn_skipn; f_equal; lia).
  apply firstn_skipn.
Qed.

Lemma seg_to_end {A} (l : list A) (a : nat) :
  seg l a (length l) = skipn a l.
Proof. unfold seg. apply firstn_all2. rewrite length_skipn. lia. Qed.

Lemma seg_from_0 {A} (l : list A) (b : nat) : seg l 0 b = firstn b l.
Proof. unfold seg. simpl. f_equal. lia. Qed.

Lemma In_firstn {A} (x : A) (n : nat) (l : list A) :
  In x (firstn n l) -> In x l.
Proof.
  revert l. induction n as [|n IH]; intros [|y l]; simpl; try tauto.
  intros [H|H]; [now left | right; auto].
Qed.

Lemma In_skipn {A} (x : A) (n : nat) (l : list A) :
  In x (skipn n l) -> In x l.
Proof.
  revert l. induction n as [|n IH]; intros [|y l]; simpl; try tauto.
  intros H; right; auto.
Qed.

Lemma seg_cons {A} (l : list A) (a b : nat) :
  a < b -> a < length l -> exists x xs, seg l a b = x :: xs /\ In x l.
Proof.
  intros Hab Ha.
  destruct (seg l a b) as [|x xs] eqn:E.
  - apply (f_equal (@length A)) in E. unfold seg in E.
    rewrite length_firstn, length_skipn in E. simpl in E. lia.
  - exists x, xs. split; [reflexivity|].
    assert (Hin : In x (seg l a b)) by (rewrite E; now left).
    unfold seg in Hin. now apply In_firstn, In_skipn in Hin.
Qed.

End SegFacts.

(* ===================================================================== *)
(** ** The chunking loop *)
(* ===================================================================== *)

Module LoopFacts.
Import Chunker StringFacts SegFacts.

Section WordList.

Variable W : list jsstring.
Hypothesis HW : Forall word W.
Variables minTokens maxTokens overlap : Z.

(** The joined window holds no paragraph break, so the index [end] is
    always the window's target. *)
Lemma window_end_target (start : Z) :
  window_end W minTokens maxTokens start
  = Z.min (words_length W) (start + maxTokens).
Proof.
  unfold window_end, lastIndexOf.
  rewrite lastIndexOf_no_break; [reflexivity|].
  apply join_chars, Forall_slice, HW.
Qed.

Lemma piece_join (a b : Z) : piece W a b = join [SP] (slice W a b).
Proof. unfold piece. apply trim_join, Forall_slice, HW. Qed.

Lemma chunk_loop_step (fuel : nat) (start : Z) (chunks : list jsstring) :
  chunk_loop W minTokens maxTokens overlap (S fuel) start chunks =
  if (start <? words_length W)%Z then
    let end_ := Z.min (words_length W) (start + maxTokens) in
    let chunks' := push_piece chunks (join [SP] (slice W start end_)) in
    if (words_length W <=? end_)%Z then Some chunks'
    else chunk_loop W minTokens maxTokens overlap fuel
           (Z.max 0 (end_ - overlap)) chunks'
  else Some chunks.
Proof.
  cbn [chunk_loop]. rewrite window_end_target, piece_join. reflexivity.
Qed.

End WordList.

Lemma push_piece_app (acc : list jsstring) (p : jsstring) :
  push_piece acc p = acc ++ push_piece [] p.
Proof.
  unfold push_piece. destruct (nonempty p); [reflexivity | now rewrite app_nil_r].
Qed.

(** The chunks pushed so far are only ever extended. *)
Lemma chunk_loop_acc (W : list jsstring) (mn mx ov : Z) (fuel : nat) :
  forall start acc,
  chunk_loop W mn mx ov fuel start acc
  = option_map (app acc) (chunk_loop W mn mx ov fuel start []).
Proof.
  induction fuel as [|fuel IH]; intros start acc; [reflexivity|].
  cbn [chunk_loop].
  destruct (start <? words_length W)%Z; [|simpl; now rewrite app_nil_r].
  set (p := piece W start (window_end W mn mx start)).
  rewrite (push_piece_app acc p).
  destruct (words_length W <=? window_end W mn mx start)%Z; [reflexivity|].
  rewrite IH, (IH _ (push_piece [] p)).
  destruct (chunk_loop W mn mx ov fuel _ []); simpl; [|reflexivity].
  now rewrite app_assoc.
Qed.

(** More fuel does not change a result. *)
Lemma chunk_loop_mono (W : list jsstring) (mn mx ov : Z) (fuel : nat) :
  forall fuel' start acc r,
  (fuel <= fuel')%nat ->
  chunk_loop W mn mx ov fuel start acc = Some r ->
  chunk_loop W mn mx ov fuel' start acc = Some r.
Proof.
  induction fuel as [|fuel IH]; intros fuel' start acc r Hle H; [discriminate|].
  destruct fuel' as [|fuel']; [lia|].
  cbn [chunk_loop] in *.
  destruct (start <? words_length W)%Z; [|exact H].
  destruct (words_length W <=? window_end W mn mx start)%Z; [exact H|].
  apply IH; [lia | exact H].
Qed.

Lemma chunkByTokens_fuel_mono (text : jsstring) (mn mx ov : Z)
    (fuel fuel' : nat) (r : list jsstring) :
  (fuel <= fuel')%nat ->
  chunkByTokens_fuel fuel text mn mx ov = Some r ->
  chunkByTokens_fuel fuel' text mn mx ov = Some r.
Proof.
  unfold chunkByTokens_fuel. intros Hle.
  destruct (nonempty (words_of text)); [|auto].
  now apply chunk_loop_mono.
Qed.

(** The call has at most one result. *)
Lemma chunkByTokens_returns_unique (text : jsstring) (mn mx ov : Z)
    (r1 r2 : list jsstring) :
  chunkByTokens_returns text mn mx ov r1 ->
  chunkByTokens_returns text mn mx ov r2 -> r1 = r2.
Proof.
  intros [f1 H1] [f2 H2].
  apply (chunkByTokens_fuel_mono _ _ _ _ f1 (f1 + f2)) in H1; [|lia].
  apply (chunkByTokens_fuel_mono _ _ _ _ f2 (f1 + f2)) in H2; [|lia].
  congruence.
Qed.

(** A call that diverges returns nothing. *)
Lemma diverges_not_returns (text : jsstring) (mn mx ov : Z)
    (r : list jsstring) :
  chunkByTokens_diverges text mn mx ov ->
  ~ chunkByTokens_returns text mn mx ov r.
Proof. intros D [f H]. rewrite D in H. discriminate. Qed.

(** [minTokens] is only read by the paragraph-break branch, which is never
    taken: the result does not depend on it. *)
Lemma chunk_loop_minTokens (W : list jsstring) (m1 m2 mx ov : Z) (fuel : nat) :
  Forall word W ->
  forall start acc,
  chunk_loop W m1 mx ov fuel start acc = chunk_loop W m2 mx ov fuel start acc.
Proof.
  intros HW. induction fuel as [|fuel IH]; intros start acc; [reflexivity|].
  rewrite !chunk_loop_step by exact HW.
  destruct (start <? words_length W)%Z; [|reflexivity].
  cbv zeta. destruct (words_length W <=? _)%Z; [reflexivity | apply IH].
Qed.

(** With [overlap < maxTokens] the cursor moves forward in every
    iteration, so the loop leaves within [words.length - start + 1]
    iterations. *)
Lemma chunk_loop_terminates (W : list jsstring) (mn mx ov : Z) (fuel : nat) :
  Forall word W -> (ov < mx)%Z ->
  forall start acc,
  (0 <= start)%Z ->
  (Z.to_nat (words_length W - start) < fuel)%nat ->
  exists out, chunk_loop W mn mx ov fuel start acc = Some out.
Proof.
  intros HW Hov. induction fuel as [|fuel IH]; intros start acc H0 Hf; [lia|].
  rewrite chunk_loop_step by exact HW.
  destruct (Z.ltb_spec start (words_length W)); [|eauto].
  cbv zeta. destruct (Z.leb_spec (words_length W)
                        (Z.min (words_length W) (start + mx))); [eauto|].
  apply IH; lia.
Qed.

(** With [0 <= overlap < maxTokens] the loop started at cursor [s] yields
    the chunk list described by [chunks_at]. *)
Lemma chunk_loop_chunks_at (W : list jsstring) (mn mx ov : Z) (fuel : nat) :
  Forall word W -> (0 <= ov < mx)%Z ->
  forall s,
  (s < length W)%nat -> (length W - s <= fuel)%nat ->
  exists out,
    chunk_loop W mn mx ov fuel (Z.of_nat s) [] = Some out /\
    chunks_at W (Z.to_nat mx) (Z.to_nat ov) s out.
Proof.
  intros HW Hov. induction fuel as [|fuel IH]; intros s Hs Hf; [lia|].
  rewrite chunk_loop_step by exact HW. unfold words_length.
  destruct (Z.ltb_spec (Z.of_nat s) (Z.of_nat (length W))); [|lia].
  cbv zeta.
  destruct (Z.leb_spec (Z.of_nat (length W))
              (Z.min (Z.of_nat (length W)) (Z.of_nat s + mx))) as [Hle|Hlt].
  - rewrite Z.min_l by lia.
    rewrite slice_seg by lia. rewrite !Nat2Z.id.
    destruct (seg_cons W s (length W)) as (w & ws & E & Hin); [lia..|].
    unfold push_piece. rewrite E, join_nonempty, <- E
      by (rewrite Forall_forall in HW; auto).
    eexists; split; [reflexivity|]. apply chunks_last. lia.
  - rewrite Z.min_r in * by lia.
    rewrite slice_seg by lia. rewrite Nat2Z.id.
    replace (Z.to_nat (Z.of_nat s + mx)) with (s + Z.to_nat mx)%nat by lia.
    destruct (seg_cons W s (s + Z.to_nat mx)) as (w & ws & E & Hin); [lia..|].
    unfold push_piece. rewrite E, join_nonempty, <- E
      by (rewrite Forall_forall in HW; auto).
    replace (Z.max 0 (Z.of_nat s + mx - ov))
      with (Z.of_nat (s + Z.to_nat mx - Z.to_nat ov)) by lia.
    rewrite chunk_loop_acc.
    destruct (IH (s + Z.to_nat mx - Z.to_nat ov)%nat) as (out & -> & Hout);
      [lia..|].
    simpl. eexists; split; [reflexivity|].
    apply chunks_more; [lia | exact Hout].
Qed.

(** With [maxTokens <= overlap] a window that does not reach the end of
    the input is followed by one that starts no later: the loop never
    leaves. *)
Lemma chunk_loop_stuck (W : list jsstring) (mn mx ov : Z) (fuel : nat) :
  Forall word W -> (mx <= ov)%Z ->
  forall start acc,
  (0 <= start)%Z -> (start + mx < words_length W)%Z ->
  (start < words_length W)%Z ->
  chunk_loop W mn mx ov fuel start acc = None.
Proof.
  intros HW Hov. induction fuel as [|fuel IH]; intros start acc H0 Hm Hs;
    [reflexivity|].
  rewrite chunk_loop_step by exact HW.
  destruct (Z.ltb_spec start (words_length W)); [|lia].
  cbv zeta. rewrite Z.min_r by lia.
  destruct (Z.leb_spec (words_length W) (start + mx)); [lia|].
  apply IH; lia.
Qed.

(** [chunkByTokens] is [None] only for a call that does not return. *)
Lemma chunkByTokens_None_diverges (text : jsstring) (mn mx ov : Z) :
  chunkByTokens text mn mx ov = None -> chunkByTokens_diverges text mn mx ov.
Proof.
  unfold chunkByTokens, chunkByTokens_diverges, chunkByTokens_fuel.
  pose proof (words_of_words text) as HW.
  destruct (nonempty (words_of text)) eqn:Hne; [|discriminate].
  intros Hnone fuel.
  destruct (Z.lt_ge_cases ov mx) as [Hlt|Hge].
  - destruct (chunk_loop_terminates (words_of text) mn mx ov
                (S (length (words_of text))) HW Hlt 0 []) as [out Hout];
      [lia | unfold words_length; lia | congruence].
  - rewrite chunk_loop_step in Hnone by exact HW.
    destruct (Z.ltb_spec 0 (words_length (words_of text))) as [Hpos|];
      [|discriminate].
    cbv zeta in Hnone.
    destruct (Z.leb_spec (words_length (words_of text))
                (Z.min (words_length (words_of text)) (0 + mx))) as [|Hend];
      [discriminate|].
    apply chunk_loop_stuck; [exact HW | lia | lia | lia | lia].
Qed.

Lemma chunkByTokens_Some_returns (text : jsstring) (mn mx ov : Z)
    (chunks : list jsstring) :
  chunkByTokens text mn mx ov = Some chunks ->
  chunkByTokens_returns text mn mx ov chunks.
Proof. intros H. eexists. exact H. Qed.

End LoopFacts.

(* ===================================================================== *)
(** ** Overlap and reconstruction *)
(* ===================================================================== *)

Module ChunkFacts.
Import Chunker StringFacts SegFacts LoopFacts.

Lemma chunks_at_head (W : list jsstring) (m o s : nat) (out : list jsstring) :
  chunks_at W m o s out ->
  exists rest, out = join [SP] (seg W s (Nat.min (length W) (s + m))) :: rest.
Proof.
  intros H. destruct H as [s Hs | s rest Hs _].
  - exists []. now rewrite Nat.min_l by lia.
  - exists rest. now rewrite Nat.min_r by lia.
Qed.

Lemma words_of_seg (W : list jsstring) (a b : nat) :
  Forall word W -> words_of (join [SP] (seg W a b)) = seg W a b.
Proof. intros HW. apply words_of_join, Forall_seg, HW. Qed.

(** Neighbouring chunks: the first is a full window of [m] words and its
    last [o] words open the second. *)
Lemma chunks_at_overlap (W : list jsstring) (m o : nat) :
  Forall word W -> o < m ->
  forall s out, chunks_at W m o s out ->
  forall i c c',
  nth_error out i = Some c -> nth_error out (S i) = Some c' ->
  share_overlap o c c' /\ length (words_of c) = m.
Proof.
  intros HW Hom s out H.
  induction H as [s Hs | s rest Hs Hrest IH]; intros i c c' Hc Hc'.
  - destruct i; simpl in Hc'; [discriminate | destruct i; discriminate].
  - destruct i as [|i]; [|exact (IH i c c' Hc Hc')].
    simpl in Hc, Hc'. injection Hc as <-.
    destruct (chunks_at_head _ _ _ _ _ Hrest) as [rest' ->].
    simpl in Hc'. injection Hc' as <-.
    unfold share_overlap, lastn. rewrite !words_of_seg by exact HW.
    rewrite !seg_length by lia.
    repeat split; try lia.
    rewrite seg_skipn, seg_firstn by lia.
    f_equal; lia.
Qed.

Lemma chunks_at_tail (W : list jsstring) (m o : nat) :
  Forall word W -> o < m ->
  forall s out, chunks_at W m o s out ->
  flat_map (fun c => skipn o (words_of c)) out = skipn (s + o) W.
Proof.
  intros HW Hom s out H.
  induction H as [s Hs | s rest Hs Hrest IH]; cbn [flat_map].
  - rewrite app_nil_r, words_of_seg, seg_to_end, skipn_skipn by exact HW.
    f_equal; lia.
  - rewrite IH, words_of_seg, seg_skipn by exact HW.
    replace (s + m - o + o) with (s + m) by lia.
    apply seg_app_skipn. lia.
Qed.

Lemma chunks_at_strip (W : list jsstring) (m o : nat) (out : list jsstring) :
  Forall word W -> o < m ->
  chunks_at W m o 0 out -> strip_overlaps o out = W.
Proof.
  intros HW Hom H. inversion H as [s Hs | s rest Hs Hrest]; subst;
    unfold strip_overlaps.
  - cbn [flat_map]. rewrite app_nil_r, words_of_seg, seg_to_end by exact HW.
    reflexivity.
  - rewrite (chunks_at_tail W m o HW Hom _ _ Hrest), words_of_seg by exact HW.
    rewrite seg_from_0. replace (0 + m - o + o) with m by lia.
    apply firstn_skipn.
Qed.

(** The last chunk is a window that ends with the input. *)
Lemma chunks_at_final (W : list jsstring) (m o : nat) :
  forall s out, chunks_at W m o s out -> s < length W ->
  exists front s', out = front ++ [join [SP] (seg W s' (length W))]
                   /\ s' < length W.
Proof.
  intros s out H.
  induction H as [s Hs | s rest Hs Hrest IH]; intros Hlt.
  - exists [], s. split; [reflexivity | exact Hlt].
  - destruct IH as (front & s' & -> & Hs'); [lia|].
    eexists (_ :: front), s'. split; [reflexivity | exact Hs'].
Qed.

Lemma nonempty_length {A} (l : list A) : nonempty l = true <-> 0 < length l.
Proof. destruct l; simpl; split; intros; try lia; try discriminate; auto. Qed.

(** What a call with [0 <= overlap < maxTokens] returns. *)
Lemma chunkByTokens_chunks_at (text : jsstring) (mn mx ov : Z) :
  (0 <= ov < mx)%Z -> words_of text <> [] ->
  exists chunks,
    chunkByTokens_returns text mn mx ov chunks /\
    chunks_at (words_of text) (Z.to_nat mx) (Z.to_nat ov) 0 chunks.
Proof.
  intros Hov Hne.
  assert (Hlen : 0 < length (words_of text))
    by (destruct (words_of text); [contradiction | simpl; lia]).
  destruct (chunk_loop_chunks_at (words_of text) mn mx ov
              (length (words_of text)) (words_of_words text) Hov 0)
    as (out & Hrun & Hout); [lia..|].
  exists out. split; [|exact Hout].
  exists (length (words_of text)). unfold chunkByTokens_fuel.
  destruct (words_of text); [contradiction | exact Hrun].
Qed.

End ChunkFacts.

(* ===================================================================== *)
(** ** The chunker's claims *)
(* ===================================================================== *)

Module ChunkClaims.
Import Chunker StringFacts SegFacts LoopFacts ChunkFacts.

(** C3.  For [0 <= overlapTokens < maxTokens] the call returns a chunk list
    in which every two consecutive chunks share exactly [overlapTokens]
    words (the last [overlapTokens] words of the earlier chunk, a full
    window of [maxTokens] words, are the first words of the later one), and
    the first chunk followed by every later chunk without its leading
    [overlapTokens] words is the token sequence of the input. *)
Theorem chunk_overlap_reconstructs (text : jsstring) (minTokens maxTokens overlap : Z) :
  (0 <= overlap < maxTokens)%Z ->
  exists chunks,
    chunkByTokens_returns text minTokens maxTokens overlap chunks /\
    (forall i c c',
        nth_error chunks i = Some c -> nth_error chunks (S i) = Some c' ->
        share_overlap (Z.to_nat overlap) c c' /\
        Z.of_nat (length (words_of c)) = maxTokens) /\
    strip_overlaps (Z.to_nat overlap) chunks = words_of text.
Proof.
  intros Hov.
  destruct (words_of text) as [|w ws] eqn:E.
  - exists []. split; [|split].
    + exists 0%nat. unfold chunkByTokens_fuel. now rewrite E.
    + intros [|i] c c' H; discriminate H.
    + reflexivity.
  - destruct (chunkByTokens_chunks_at text minTokens maxTokens overlap Hov)
      as (chunks & Hret & Hat); [rewrite E; discriminate|].
    exists chunks. rewrite <- E. split; [exact Hret | split].
    + intros i c c' Hc Hc'.
      destruct (chunks_at_overlap (words_of text) (Z.to_nat maxTokens)
                  (Z.to_nat overlap) (words_of_words text) ltac:(lia)
                  0%nat chunks Hat i c c' Hc Hc') as [Hs Hl].
      split; [exact Hs | lia].
    + apply (chunks_at_strip (words_of text) (Z.to_nat maxTokens));
        [apply words_of_words | lia | exact Hat].
Qed.

Lemma chunk_overlap_reconstructs_witness :
  (0 <= 1 < 3)%Z /\
  exists chunks,
    chunkByTokens_returns (js "a b c d e f g") 2 3 1 chunks /\
    (forall i c c',
        nth_error chunks i = Some c -> nth_error chunks (S i) = Some c' ->
        share_overlap (Z.to_nat 1) c c' /\
        Z.of_nat (length (words_of c)) = 3%Z) /\
    strip_overlaps (Z.to_nat 1) chunks = words_of (js "a b c d e f g").
Proof.
  split; [lia|].
  apply (chunk_overlap_reconstructs (js "a b c d e f g") 2 3 1). lia.
Defined.

(** The paragraph-break branch of the loop body is dead code: whatever
    [minTokens] is, the call computes the same thing. *)
Lemma chunkByTokens_ignores_minTokens (fuel : nat) (text : jsstring)
    (m1 m2 maxTokens overlap : Z) :
  chunkByTokens_fuel fuel text m1 maxTokens overlap
  = chunkByTokens_fuel fuel text m2 maxTokens overlap.
Proof.
  unfold chunkByTokens_fuel. destruct (nonempty (words_of text)); [|reflexivity].
  apply chunk_loop_minTokens, words_of_words.
Qed.

(** C4.  The text [a b\n\nc d e] has a paragraph break inside its first
    window of [maxTokens = 4] words, and cutting there leaves two words,
    no fewer than [minTokens = 1]; the call nevertheless cuts the first
    chunk after four words: the words were split on whitespace before the
    window was joined, so no break is ever found. *)
Theorem paragraph_break_ignored :
  chunkByTokens_returns (js "a b" ++ [LF; LF] ++ js "c d e") 1 4 0
    [js "a b c d"; js "e"].
Proof. exists 2%nat. vm_compute. reflexivity. Qed.

Lemma loop_stuck (fuel : nat) (acc : list jsstring) :
  chunk_loop [js "a"; js "b"] 1 1 1 fuel 0 acc = None.
Proof.
  revert acc. induction fuel as [|fuel IH]; intros acc; [reflexivity|].
  rewrite chunk_loop_step by (apply (words_of_words (js "a b"))).
  apply IH.
Qed.

(** C5, as stated, fails: with [overlapTokens = maxTokens = 1] the cursor
    never moves and the loop over the text [a b] never leaves. *)
Lemma chunk_loop_forever : chunkByTokens_diverges (js "a b") 1 1 1.
Proof. intros fuel. apply loop_stuck. Qed.

(** C5, amended.  For [overlapTokens < maxTokens] the call returns; when
    moreover [0 <= overlapTokens] and the input has a word, the last chunk
    is a window that reaches the end of the input. *)
Theorem chunk_terminates (text : jsstring) (minTokens maxTokens overlap : Z) :
  (overlap < maxTokens)%Z ->
  exists chunks,
    chunkByTokens_returns text minTokens maxTokens overlap chunks /\
    ((0 <= overlap)%Z -> words_of text <> [] ->
     exists front s,
       chunks = front ++ [join [SP] (seg (words_of text) s (length (words_of text)))]
       /\ s < length (words_of text)).
Proof.
  intros Hov.
  destruct (Z.leb_spec 0 overlap) as [H0|Hneg].
  - destruct (words_of text) as [|w ws] eqn:E.
    + exists []. split; [|intros _ H; now destruct H].
      exists 0%nat. unfold chunkByTokens_fuel. now rewrite E.
    + destruct (chunkByTokens_chunks_at text minTokens maxTokens overlap)
        as (chunks & Hret & Hat); [lia | rewrite E; discriminate |].
      exists chunks. split; [exact Hret|]. intros _ _. rewrite <- E.
      apply (chunks_at_final _ _ _ _ _ Hat). rewrite E. simpl. lia.
  - destruct (chunk_loop_terminates (words_of text) minTokens maxTokens overlap
                (S (length (words_of text))) (words_of_words text) Hov 0 [])
      as [out Hout]; [lia | unfold words_length; lia |].
    exists (if nonempty (words_of text) then out else []).
    split; [|lia].
    exists (S (length (words_of text))). unfold chunkByTokens_fuel.
    destruct (nonempty (words_of text)); [exact Hout | reflexivity].
Qed.

Lemma chunk_terminates_witness :
  (1 < 3)%Z /\
  exists chunks,
    chunkByTokens_returns (js "a b c d e f g") 2 3 1 chunks /\
    ((0 <= 1)%Z -> words_of (js "a b c d e f g") <> [] ->
     exists front s,
       chunks = front ++ [join [SP] (seg (words_of (js "a b c d e f g")) s
                                       (length (words_of (js "a b c d e f g"))))]
       /\ s < length (words_of (js "a b c d e f g"))).
Proof.
  split; [lia|].
  apply (chunk_terminates (js "a b c d e f g") 2 3 1). lia.
Defined.

(** C10, as stated, fails: with [minTokens = 10 > maxTokens = 2] the
    three-word text [a b c] has fewer than [minTokens] words and is cut
    into two chunks. *)
Lemma short_input_two_chunks :
  (length (words_of (js "a b c")) < 10)%nat /\
  chunkByTokens_returns (js "a b c") 10 2 0 [js "a b"; js "c"] /\
  ~ (exists c, chunkByTokens_returns (js "a b c") 10 2 0 [c]).
Proof.
  assert (H : chunkByTokens_returns (js "a b c") 10 2 0 [js "a b"; js "c"])
    by (exists 2%nat; vm_compute; reflexivity).
  split; [vm_compute; lia | split; [exact H|]].
  intros [c Hc].
  pose proof (chunkByTokens_returns_unique _ _ _ _ _ _ H Hc) as E.
  discriminate E.
Qed.

(** C10, amended.  The empty string yields the empty sequence whatever the
    parameters are; with [minTokens <= maxTokens], an input that has at
    least one word and fewer than [minTokens] words yields exactly one
    chunk, whose token sequence is the input's. *)
Theorem chunk_empty_and_short (text : jsstring) (minTokens maxTokens overlap : Z) :
  chunkByTokens_returns [] minTokens maxTokens overlap [] /\
  ((minTokens <= maxTokens)%Z ->
   words_of text <> [] ->
   (Z.of_nat (length (words_of text)) < minTokens)%Z ->
   exists c,
     chunkByTokens_returns text minTokens maxTokens overlap [c] /\
     words_of c = words_of text).
Proof.
  split; [exists 0%nat; reflexivity|].
  intros Hmm Hne Hlt.
  exists (join [SP] (words_of text)).
  split; [|apply words_of_join, words_of_words].
  exists 1%nat. unfold chunkByTokens_fuel.
  pose proof (words_of_words text) as HW.
  destruct (words_of text) as [|w ws] eqn:E; [contradiction|].
  cbn [nonempty]. rewrite chunk_loop_step by exact HW.
  unfold words_length.
  destruct (Z.ltb_spec 0 (Z.of_nat (length (w :: ws)))); [|simpl in *; lia].
  cbv zeta. rewrite Z.min_l by lia. rewrite Z.leb_refl.
  rewrite slice_seg by lia. rewrite Nat2Z.id, seg_to_end.
  change (skipn (Z.to_nat 0) (w :: ws)) with (w :: ws).
  unfold push_piece. rewrite join_nonempty by (inversion HW; assumption).
  reflexivity.
Qed.

Lemma chunk_empty_and_short_witness :
  (5 <= 10)%Z /\ words_of (js "a b") <> [] /\
  (Z.of_nat (length (words_of (js "a b"))) < 5)%Z /\
  exists c,
    chunkByTokens_returns (js "a b") 5 10 2 [c] /\
    words_of c = words_of (js "a b").
Proof.
  split; [lia|]. split; [discriminate|]. split; [vm_compute; reflexivity|].
  apply (chunk_empty_and_short (js "a b") 5 10 2);
    [lia | discriminate | vm_compute; reflexivity].
Defined.

End ChunkClaims.

(* ===================================================================== *)
(** ** The embedding adapter's claim *)
(* ===================================================================== *)

Module EmbeddingClaims.
Import Embedding SegFacts.

Lemma array_set_at_end {A} (hole x y : A) (pre post : list A) :
  array_set hole (pre ++ y :: post) (length pre) x = pre ++ x :: post.
Proof.
  unfold array_set.
  destruct (Nat.ltb_spec (length pre) (length (pre ++ y :: post))) as [_|H].
  - rewrite firstn_app, firstn_all, Nat.sub_diag, firstn_0, app_nil_r.
    rewrite skipn_app, skipn_all2 by lia.
    replace (S (length pre) - length pre) with 1 by lia. reflexivity.
  - rewrite length_app in H. simpl in H. lia.
Qed.

(** The copy loop overwrites the leading zeros of [out] with [v]. *)
Lemma copy_from_zeros (v pre : list number) (k : nat) :
  length v <= k ->
  copy_from (length pre) v (pre ++ repeat zero k)
  = pre ++ v ++ repeat zero (k - length v).
Proof.
  revert pre k. induction v as [|x v IH]; intros pre k Hk.
  - simpl. now rewrite Nat.sub_0_r.
  - destruct k as [|k]; [simpl in Hk; lia|].
    cbn [copy_from repeat]. rewrite array_set_at_end.
    replace (pre ++ x :: repeat zero k) with ((pre ++ [x]) ++ repeat zero k)
      by now rewrite <- app_assoc.
    replace (S (length pre)) with (length (pre ++ [x]))
      by (rewrite length_app; simpl; lia).
    rewrite IH by (simpl in Hk; lia).
    rewrite <- app_assoc. reflexivity.
Qed.

Lemma fit_cases (D : nat) (v : list number) :
  (Z.of_nat D < array_length_limit)%Z ->
  (exists e, fit (PInt (Z.of_nat D)) v = Some e /\ length e = D) /\
  (D < length v -> fit (PInt (Z.of_nat D)) v = Some (firstn D v)) /\
  (length v < D ->
   fit (PInt (Z.of_nat D)) v = Some (v ++ repeat zero (D - length v))) /\
  (length v = D -> fit (PInt (Z.of_nat D)) v = Some v).
Proof.
  intros HD.
  assert (Hlong : D < length v -> fit (PInt (Z.of_nat D)) v = Some (firstn D v)).
  { intros H. unfold fit.
    destruct (Z.eqb_spec (Z.of_nat (length v)) (Z.of_nat D)); [lia|].
    destruct (Z.ltb_spec (Z.of_nat D) (Z.of_nat (length v))); [|lia].
    rewrite slice_seg by lia. rewrite Nat2Z.id. f_equal. apply seg_from_0. }
  assert (Hshort : length v < D ->
                   fit (PInt (Z.of_nat D)) v
                   = Some (v ++ repeat zero (D - length v))).
  { intros H. unfold fit.
    destruct (Z.eqb_spec (Z.of_nat (length v)) (Z.of_nat D)); [lia|].
    destruct (Z.ltb_spec (Z.of_nat D) (Z.of_nat (length v))); [lia|].
    destruct (Z.ltb_spec (Z.of_nat D) array_length_limit); [|lia].
    rewrite Nat2Z.id. f_equal. apply (copy_from_zeros v [] D). lia. }
  assert (Hsame : length v = D -> fit (PInt (Z.of_nat D)) v = Some v).
  { intros H. unfold fit. rewrite H, Z.eqb_refl. reflexivity. }
  repeat split; try assumption.
  destruct (Nat.lt_trichotomy D (length v)) as [H|[H|H]].
  - eexists. split; [apply Hlong, H|]. rewrite length_firstn. lia.
  - eexists. split; [apply Hsame; congruence|]. congruence.
  - eexists. split; [apply Hshort, H|]. rewrite length_app, repeat_length. lia.
Qed.

(** A vector that [fit] returns for a dimension that is not negative has
    that many coordinates. *)
Lemma fit_length (d : Z) (v e : list number) :
  (0 <= d)%Z -> fit (PInt d) v = Some e -> Z.of_nat (length e) = d.
Proof.
  intros Hd. unfold fit.
  destruct (Z.eqb_spec (Z.of_nat (length v)) d) as [E|E];
    [intros H; injection H as <-; exact E|].
  destruct (Z.ltb_spec d (Z.of_nat (length v))) as [Hlt|Hge].
  - intros H; injection H as <-.
    rewrite slice_seg by lia. rewrite seg_length by lia.
    change (Z.to_nat 0) with 0%nat. lia.
  - destruct (Z.ltb_spec d array_length_limit) as [_|_]; [|discriminate].
    intros H; injection H as <-.
    pose proof (copy_from_zeros v [] (Z.to_nat d)) as Hcopy.
    cbn [app length] in Hcopy. rewrite Hcopy by lia.
    rewrite length_app, repeat_length. lia.
Qed.

(** Where every call of [fit] returns a vector of length [D], so does
    [createEmbeddings] for every vector of the response. *)
Lemma map_throwing_fit (D : nat) (raw : list (list number)) :
  (Z.of_nat D < array_length_limit)%Z ->
  exists es,
    createEmbeddings_vectors (PInt (Z.of_nat D)) raw = Some es /\
    length es = length raw /\
    Forall (fun e => length e = D) es.
Proof.
  intros HD. unfold createEmbeddings_vectors.
  induction raw as [|v raw IH]; cbn [map_throwing].
  - exists []. repeat split. constructor.
  - destruct (fit_cases D v HD) as ((e & -> & He) & _).
    destruct IH as (es & -> & Hlen & Hall).
    exists (e :: es). repeat split; [simpl; congruence | now constructor].
Qed.

(** C7, as stated, fails.  With [RAG_EMBED_DIM=4294967296] the target
    dimension is [2^32], which no array can have as its length: for a
    vector of two coordinates [fit] reaches [new Array(targetDim)], which
    throws a [RangeError], and [createEmbeddings] rejects; no fitted
    embedding is returned. *)
Lemma huge_dimension_throws :
  fit (PInt 4294967296) [Fin 1; Fin 2] = None /\
  createEmbeddings_vectors (PInt 4294967296) [[Fin 1; Fin 2]] = None.
Proof. split; reflexivity. Qed.

(** C7, amended.  For every target dimension [D] below [2^32] (the lengths
    an array can have) and every vector [v], [fit] returns a vector of
    length exactly [D]: a longer [v] is cut to its first [D] coordinates, a
    shorter one is followed by zeros, and one of length [D] is unchanged;
    so [createEmbeddings] returns one embedding of length [D] for every
    vector of the response. *)
Theorem fit_dimension (D : nat) (v : list number) (raw : list (list number)) :
  (Z.of_nat D < array_length_limit)%Z ->
  (exists e, fit (PInt (Z.of_nat D)) v = Some e /\ length e = D) /\
  (D < length v -> fit (PInt (Z.of_nat D)) v = Some (firstn D v)) /\
  (length v < D ->
   fit (PInt (Z.of_nat D)) v = Some (v ++ repeat zero (D - length v))) /\
  (length v = D -> fit (PInt (Z.of_nat D)) v = Some v) /\
  exists es,
    createEmbeddings_vectors (PInt (Z.of_nat D)) raw = Some es /\
    length es = length raw /\
    Forall (fun e => length e = D) es.
Proof.
  intros HD.
  destruct (fit_cases D v HD) as (Hlen & Hlong & Hshort & Hsame).
  repeat split; try assumption.
  apply map_throwing_fit, HD.
Qed.

Lemma fit_dimension_witness :
  fit (PInt 3) [Fin 1; Fin 2; Fin 3; Fin 4] = Some [Fin 1; Fin 2; Fin 3] /\
  fit (PInt 3) [Fin 1] = Some [Fin 1; zero; zero] /\
  fit (PInt 3) [Fin 1; Fin 2; Fin 3] = Some [Fin 1; Fin 2; Fin 3].
Proof.
  assert (H3 : (Z.of_nat 3 < array_length_limit)%Z) by (vm_compute; reflexivity).
  split; [|split].
  - apply (fit_dimension 3 [Fin 1; Fin 2; Fin 3; Fin 4] [] H3). simpl. lia.
  - apply (fit_dimension 3 [Fin 1] [] H3). simpl. lia.
  - apply (fit_dimension 3 [Fin 1; Fin 2; Fin 3] [] H3). reflexivity.
Defined.

End EmbeddingClaims.

(* ===================================================================== *)
(** ** Numbers: least and greatest value *)
(* ===================================================================== *)

Module NumFacts.
Import QuerySpec.

Lemma Qle_bool_total (x y : Q) : Qle_bool x y = false -> Qle_bool y x = true.
Proof.
  intros H. apply Qle_bool_iff. apply Qlt_le_weak, Qnot_le_lt.
  intros Hle. apply Qle_bool_iff in Hle. congruence.
Qed.

Lemma Qle_bool_trans (x y z : Q) :
  Qle_bool x y = true -> Qle_bool y z = true -> Qle_bool x z = true.
Proof.
  rewrite !Qle_bool_iff. apply Qle_trans.
Qed.

Lemma Qle_bool_refl (x : Q) : Qle_bool x x = true.
Proof. apply Qle_bool_iff, Qle_refl. Qed.

Lemma leb_trans (a b c : number) :
  Num.leb a b = true -> Num.leb b c = true -> Num.leb a c = true.
Proof.
  destruct a, b, c; simpl; try discriminate; try reflexivity.
  apply Qle_bool_trans.
Qed.

Lemma leb_refl (a : number) : a <> NaN -> Num.leb a a = true.
Proof. destruct a; simpl; try reflexivity; [intros; apply Qle_bool_refl | congruence]. Qed.

Lemma min2_spec (a b : number) :
  a <> NaN -> b <> NaN ->
  (min2 a b = a \/ min2 a b = b) /\
  Num.leb (min2 a b) a = true /\ Num.leb (min2 a b) b = true.
Proof.
  destruct a, b; simpl; try congruence; intros _ _;
    try (repeat split; auto using Qle_bool_refl; fail).
  destruct (Qle_bool q q0) eqn:E; simpl.
  - repeat split; auto using Qle_bool_refl.
  - repeat split; auto using Qle_bool_refl, Qle_bool_total.
Qed.

Lemma max2_spec (a b : number) :
  a <> NaN -> b <> NaN ->
  (max2 a b = a \/ max2 a b = b) /\
  Num.leb a (max2 a b) = true /\ Num.leb b (max2 a b) = true.
Proof.
  destruct a, b; simpl; try congruence; intros _ _;
    try (repeat split; auto using Qle_bool_refl; fail).
  destruct (Qle_bool q0 q) eqn:E; simpl.
  - repeat split; auto using Qle_bool_refl.
  - repeat split; auto using Qle_bool_refl, Qle_bool_total.
Qed.

Lemma finite_not_NaN (x : number) : isFinite x = true -> x <> NaN.
Proof. destruct x; simpl; congruence. Qed.

Lemma fold_min2 (vals : list number) :
  Forall (fun x => isFinite x = true) vals ->
  forall acc, acc <> NaN ->
  let r := fold_left min2 vals acc in
  r <> NaN /\ (r = acc \/ In r vals) /\ Num.leb r acc = true /\
  Forall (fun x => Num.leb r x = true) vals.
Proof.
  induction 1 as [|x vals Hx _ IH]; intros acc Hacc; simpl.
  - repeat split; auto using leb_refl.
  - apply finite_not_NaN in Hx.
    destruct (min2_spec acc x Hacc Hx) as (Hsel & Hla & Hlx).
    assert (Hm : min2 acc x <> NaN) by (destruct Hsel as [-> | ->]; assumption).
    destruct (IH (min2 acc x) Hm) as (Hr & Hin & Hle & Hall).
    repeat split.
    + exact Hr.
    + destruct Hin as [-> | Hin]; [|auto].
      destruct Hsel as [-> | ->]; auto.
    + eapply leb_trans; eassumption.
    + constructor; [eapply leb_trans; eassumption | exact Hall].
Qed.

Lemma fold_max2 (vals : list number) :
  Forall (fun x => isFinite x = true) vals ->
  forall acc, acc <> NaN ->
  let r := fold_left max2 vals acc in
  r <> NaN /\ (r = acc \/ In r vals) /\ Num.leb acc r = true /\
  Forall (fun x => Num.leb x r = true) vals.
Proof.
  induction 1 as [|x vals Hx _ IH]; intros acc Hacc; simpl.
  - repeat split; auto using leb_refl.
  - apply finite_not_NaN in Hx.
    destruct (max2_spec acc x Hacc Hx) as (Hsel & Hla & Hlx).
    assert (Hm : max2 acc x <> NaN) by (destruct Hsel as [-> | ->]; assumption).
    destruct (IH (max2 acc x) Hm) as (Hr & Hin & Hle & Hall).
    repeat split.
    + exact Hr.
    + destruct Hin as [-> | Hin]; [|auto].
      destruct Hsel as [-> | ->]; auto.
    + eapply leb_trans; eassumption.
    + constructor; [eapply leb_trans; eassumption | exact Hall].
Qed.

(** [Math.min] of finite values, at least one, is their least value. *)
Lemma Math_min_is_minimum (vals : list number) :
  Forall (fun x => isFinite x = true) vals -> vals <> [] ->
  is_minimum (Math_min vals) vals.
Proof.
  intros Hfin Hne. unfold Math_min, is_minimum.
  destruct (fold_min2 vals Hfin PosInf ltac:(discriminate))
    as (_ & Hin & _ & Hall).
  split; [|exact Hall].
  destruct Hin as [E | Hin]; [|exact Hin].
  destruct vals as [|x vals]; [contradiction|].
  inversion Hall as [|? ? Hx _]; subst. rewrite E in Hx.
  inversion Hfin as [|? ? Hf _]; subst.
  destruct x; simpl in *; discriminate.
Qed.

Lemma Math_max_is_maximum (vals : list number) :
  Forall (fun x => isFinite x = true) vals -> vals <> [] ->
  is_maximum (Math_max vals) vals.
Proof.
  intros Hfin Hne. unfold Math_max, is_maximum.
  destruct (fold_max2 vals Hfin NegInf ltac:(discriminate))
    as (_ & Hin & _ & Hall).
  split; [|exact Hall].
  destruct Hin as [E | Hin]; [|exact Hin].
  destruct vals as [|x vals]; [contradiction|].
  inversion Hall as [|? ? Hx _]; subst. rewrite E in Hx.
  inversion Hfin as [|? ? Hf _]; subst.
  destruct x; simpl in *; discriminate.
Qed.

End NumFacts.

(* ===================================================================== *)
(** ** The query service: auxiliary facts *)
(* ===================================================================== *)

Module QueryFacts.
Import Query QuerySpec SegFacts.

Lemma starts_with_app (sub post : jsstring) : starts_with sub (sub ++ post) = true.
Proof. induction sub as [|c sub IH]; simpl; [reflexivity|]. now rewrite N.eqb_refl. Qed.

Lemma includes_here (sub post : jsstring) : includes (sub ++ post) sub = true.
Proof.
  pose proof (starts_with_app sub post) as H.
  destruct (sub ++ post); simpl; rewrite H; reflexivity.
Qed.

Lemma includes_app (pre sub post : jsstring) :
  includes (pre ++ sub ++ post) sub = true.
Proof.
  induction pre as [|c pre IH]; [apply (includes_here sub post)|].
  change ((c :: pre) ++ sub ++ post) with (c :: (pre ++ sub ++ post)).
  cbn [includes]. rewrite IH. apply orb_true_r.
Qed.

Lemma includes_mid (pre sub post s : jsstring) :
  s = pre ++ sub ++ post -> includes s sub = true.
Proof. intros ->. apply includes_app. Qed.

Lemma slice_firstn {A} (l : list A) (n : Z) :
  (0 <= n)%Z -> slice l 0 n = firstn (Z.to_nat n) l.
Proof.
  intros Hn. unfold slice, rel_index.
  change (0 <? 0)%Z with false. cbv iota.
  destruct (Z.ltb_spec n 0); [lia|].
  rewrite (Z.min_l 0) by lia. rewrite Z.sub_0_r.
  change (skipn (Z.to_nat 0) l) with l.
  destruct (Z.le_ge_cases n (Z.of_nat (length l))).
  - now rewrite Z.min_l by lia.
  - rewrite Z.min_r, Nat2Z.id, firstn_all by lia.
    symmetry. apply firstn_all2. lia.
Qed.

Lemma slice_lastn {A} (l : list A) (k : nat) :
  slice l (Z.max 0 (Z.of_nat (length l) - Z.of_nat k)) (Z.of_nat (length l))
  = lastn k l.
Proof.
  unfold slice, rel_index, lastn.
  destruct (Z.ltb_spec (Z.max 0 (Z.of_nat (length l) - Z.of_nat k)) 0); [lia|].
  destruct (Z.ltb_spec (Z.of_nat (length l)) 0); [lia|].
  rewrite Z.min_id, Z.min_l by lia.
  replace (Z.to_nat (Z.max 0 (Z.of_nat (length l) - Z.of_nat k)))
    with (length l - k) by lia.
  apply firstn_all2. rewrite length_skipn. lia.
Qed.

Lemma slice_suffix {A} (l : list A) (k : nat) :
  0 < k -> slice l (- Z.of_nat k) (Z.of_nat (length l)) = lastn k l.
Proof.
  intros Hk. unfold slice, rel_index, lastn.
  destruct (Z.ltb_spec (Z.of_nat (length l)) 0); [lia|].
  rewrite Z.min_id.
  destruct (Z.ltb_spec (- Z.of_nat k) 0); [|lia].
  replace (Z.to_nat (Z.max (Z.of_nat (length l) + - Z.of_nat k) 0))
    with (length l - k) by lia.
  apply firstn_all2. rewrite length_skipn. lia.
Qed.

Lemma lastn_length {A} (k : nat) (l : list A) : length (lastn k l) <= k.
Proof. unfold lastn. rewrite length_skipn. lia. Qed.

Lemma get_non_nullish (x : JSValue) (k : jsstring) :
  nullish x = false -> get x k = Ok (opt_get x k).
Proof. destruct x; simpl; try discriminate; reflexivity. Qed.

Lemma nonempty_true {A} (l : list A) : l <> [] -> nonempty l = true.
Proof. destruct l; [contradiction | reflexivity]. Qed.

Lemma lastUserOf_nonempty (msgs : list ChatMsg) (m : ChatMsg) :
  lastUserOf msgs = Some m -> (length msgs =? 0) = false.
Proof. destruct msgs; [discriminate | reflexivity]. Qed.

Section Service.
Variable bi : Builtins.
Variable sv : Services.

Lemma detect_chart_parsed (text : jsstring) (r nlu : JSValue) (log : list Event) :
  completion sv (intentParams (chartIntentPrompt text)) = Some r ->
  JSON_parse bi (intent_text bi r) = Some nlu ->
  detectChartIntentWithLLM bi sv text log
  = (Ok nlu, log ++ [ChatCompletion (intentParams (chartIntentPrompt text))]).
Proof.
  intros Hr Hp.
  unfold detectChartIntentWithLLM, bind, chatCompletion, request.
  rewrite Hr, Hp. reflexivity.
Qed.

(** A positive intent with a window makes [maybeGetChartData] fetch the
    series, after one call of the completion service. *)
Lemma maybeGetChartData_positive (msgs : list ChatMsg) (lastUser : ChatMsg)
    (r nlu : JSValue) (urn : jsstring) (metric from to : JSValue)
    (pts : list ChartPoint) :
  lastUserOf msgs = Some lastUser ->
  completion sv (intentParams (chartIntentPrompt (content lastUser))) = Some r ->
  JSON_parse bi (intent_text bi r) = Some nlu ->
  positive_chart_intent nlu urn metric from to ->
  pgPool sv = true ->
  pgSeries sv urn metric from to = Some pts ->
  maybeGetChartData bi sv msgs []
  = (Ok (Some {| series := pts; assetUrn := urn; metric := metric |}),
     [ChatCompletion (intentParams (chartIntentPrompt (content lastUser)));
      PgQuery urn metric from to]).
Proof.
  intros Hlast Hr Hp (Hnn & Hw & Hurn & Hne & Hf & Hft & Ht & Htt & Hm) Hpool Hpts.
  unfold maybeGetChartData. rewrite Hlast. unfold bind at 1.
  rewrite (detect_chart_parsed _ r nlu [] Hr Hp).
  unfold bind, lift. rewrite !get_non_nullish by exact Hnn.
  rewrite Hw. cbn [negb]. rewrite Hurn. cbn [truthy].
  rewrite (nonempty_true urn Hne). cbn [negb].
  rewrite <- Hf, <- Ht, <- Hm. rewrite Hft, Htt. cbv iota.
  rewrite Hft, Htt, Hpool. cbn [andb].
  unfold fetchSeriesFromPostgres. rewrite Hpool.
  unfold bind, try_catch, request, ret. rewrite Hpts. reflexivity.
Qed.

End Service.

End QueryFacts.

(* ===================================================================== *)
(** ** The query service's claims *)
(* ===================================================================== *)

Module QueryClaims.
Import Query QuerySpec SegFacts NumFacts QueryFacts Examples.

(** C1, as stated, fails.  The series holds one reading whose value is no
    number ([NaN]): the summary gives the point count but neither minimum
    nor maximum; and the request did call the completion service, once,
    to classify the intent. *)
Lemma chart_reply_counterexample :
  exists chart first10 last10 log,
    handleQuery builtins (services intentJson textPoints) askChart [] []
    = (Ok (ChartReply
             (chartReplyHeader ++
              js "Live data (temperature) for urn:iff:asset:42" ++ [LF] ++
              js "Points: 1")
             chart first10 last10), log) /\
    series chart = textPoints /\
    length (completion_calls log) = 1.
Proof. do 4 eexists. vm_compute. repeat split. Qed.

Lemma filter_all_finite (l : list number) :
  Forall (fun x => isFinite x = true) (filter isFinite l).
Proof.
  induction l as [|x l IH]; simpl; [constructor|].
  destruct (isFinite x) eqn:E; [constructor; assumption | assumption].
Qed.

(** C1, amended.  When the last user turn is classified as a positive
    chart intent with a resolved window and the fetch returns a non-empty
    series, [handleQuery] returns the structured chart result: the summary
    contains the point count and, when at least one value of the series is
    finite, the least and the greatest finite value; both previews hold at
    most 100 points; and the only request sent to the completion service is
    the classification of the intent. *)
Theorem chart_reply_summary (bi : Builtins) (sv : Services)
    (msgs : list ChatMsg) (ids : list jsstring) (lastUser : ChatMsg)
    (r nlu : JSValue) (urn : jsstring) (metric from to : JSValue)
    (pts : list ChartPoint) :
  lastUserOf msgs = Some lastUser ->
  completion sv (intentParams (chartIntentPrompt (content lastUser))) = Some r ->
  JSON_parse bi (intent_text bi r) = Some nlu ->
  positive_chart_intent nlu urn metric from to ->
  pgPool sv = true ->
  pgSeries sv urn metric from to = Some pts ->
  pts <> [] ->
  exists summary log,
    handleQuery bi sv msgs ids []
    = (Ok (ChartReply (chartReplyHeader ++ summary)
             {| series := pts; assetUrn := urn; metric := metric |}
             (firstn 100 pts) (lastn 100 pts)), log) /\
    includes summary (js "Points: " ++ show_nat bi (length pts)) = true /\
    (finite_values pts <> [] ->
     includes summary
       (js ", Min: " ++ Number_toString bi (Math_min (finite_values pts)) ++
        js ", Max: " ++ Number_toString bi (Math_max (finite_values pts))) = true /\
     is_minimum (Math_min (finite_values pts)) (finite_values pts) /\
     is_maximum (Math_max (finite_values pts)) (finite_values pts)) /\
    length (firstn 100 pts) <= 100 /\
    length (lastn 100 pts) <= 100 /\
    completion_calls log = [intentParams (chartIntentPrompt (content lastUser))].
Proof.
  intros Hlast Hr Hp Hpos Hpool Hpts Hne.
  pose proof (maybeGetChartData_positive bi sv msgs lastUser r nlu urn metric
                from to pts Hlast Hr Hp Hpos Hpool Hpts) as Hdata.
  unfold handleQuery. rewrite (lastUserOf_nonempty msgs lastUser Hlast).
  unfold bind at 1. unfold getChartSummaryIfAny. unfold bind at 1.
  unfold try_catch. rewrite Hdata.
  change (array_truthy pts) with true. cbv iota.
  unfold formatChartSummary. cbn [series assetUrn Query.metric].
  rewrite (slice_firstn pts 100) by lia.
  change (Z.to_nat 100) with 100.
  change 100%Z with (Z.of_nat 100) at 1. rewrite slice_lastn.
  unfold ret.
  eexists. eexists. split; [reflexivity|].
  split; [|split; [|split; [|split]]].
  - cbn [join].
    match goal with
    | |- includes (?head ++ [LF] ++ ?pts ++ ?n ++ ?tail) _ = true =>
        apply (includes_mid (head ++ [LF]) (pts ++ n) tail)
    end.
    now rewrite <- !app_assoc.
  - intros Hfin. rewrite (nonempty_true _ Hfin).
    split; [|split].
    + cbn [join].
      match goal with
      | |- includes (?head ++ [LF] ++ ?pts ++ ?n ++ ?minmax) _ = true =>
          apply (includes_mid (head ++ [LF] ++ pts ++ n) minmax [])
      end.
      now rewrite <- !app_assoc, !app_nil_r.
    + apply Math_min_is_minimum; [apply filter_all_finite | exact Hfin].
    + apply Math_max_is_maximum; [apply filter_all_finite | exact Hfin].
  - rewrite length_firstn. lia.
  - apply lastn_length.
  - reflexivity.
Qed.

Lemma chart_reply_summary_witness :
  exists summary log,
    handleQuery builtins (services intentJson twoPoints) askChart [] []
    = (Ok (ChartReply (chartReplyHeader ++ summary)
             {| series := twoPoints; assetUrn := js "urn:iff:asset:42";
                metric := JStr (js "temperature") |}
             (firstn 100 twoPoints) (lastn 100 twoPoints)), log) /\
    includes summary (js "Points: " ++ show_nat builtins (length twoPoints)) = true /\
    (finite_values twoPoints <> [] ->
     includes summary
       (js ", Min: " ++ Number_toString builtins (Math_min (finite_values twoPoints)) ++
        js ", Max: " ++ Number_toString builtins (Math_max (finite_values twoPoints))) = true /\
     is_minimum (Math_min (finite_values twoPoints)) (finite_values twoPoints) /\
     is_maximum (Math_max (finite_values twoPoints)) (finite_values twoPoints)) /\
    length (firstn 100 twoPoints) <= 100 /\
    length (lastn 100 twoPoints) <= 100 /\
    completion_calls log
    = [intentParams (chartIntentPrompt
         (js "show me the temperature trend for urn:iff:asset:42"))].
Proof.
  apply (chart_reply_summary builtins (services intentJson twoPoints) askChart []
           {| role := js "user";
              content := js "show me the temperature trend for urn:iff:asset:42" |}
           (response intentJson) intentValue (js "urn:iff:asset:42")
           (JStr (js "temperature"))
           (JStr (js "2025-08-13T00:00:00.000Z"))
           (JStr (js "2025-08-14T00:00:00.000Z")) twoPoints).
  - reflexivity.
  - reflexivity.
  - vm_compute. reflexivity.
  - repeat split; try reflexivity. discriminate.
  - reflexivity.
  - reflexivity.
  - discriminate.
Defined.

(** C2.  The store returns an empty series for a positive, resolved chart
    intent; the reply is the chart summary with zero points, not the
    'no data' reply: an empty array is truthy, so the first branch of
    [getChartSummaryIfAny] is taken. *)
Theorem empty_series_gets_summary :
  handleQuery builtins (services intentJson []) askChart [] []
  = (Ok (ChartReply
           (chartReplyHeader ++
            js "Live data (temperature) for urn:iff:asset:42" ++ [LF] ++
            js "Points: 0")
           {| series := []; assetUrn := js "urn:iff:asset:42";
              metric := JStr (js "temperature") |} [] []),
     [ChatCompletion (intentParams (chartIntentPrompt
        (js "show me the temperature trend for urn:iff:asset:42")));
      PgQuery (js "urn:iff:asset:42") (JStr (js "temperature"))
        (JStr (js "2025-08-13T00:00:00.000Z"))
        (JStr (js "2025-08-14T00:00:00.000Z"))]).
Proof. vm_compute. reflexivity. Qed.

Lemma chart_summary_not_no_data (bi : Builtins) (sv : Services)
    (msgs : list ChatMsg) (log log' : list Event) (res : QueryResult) :
  getChartSummaryIfAny bi sv msgs log = (Ok (Some res), log') ->
  is_no_data res = false.
Proof.
  unfold getChartSummaryIfAny. unfold bind at 1.
  destruct (try_catch _ _ log) as [[[c|]|e] l1]; try discriminate.
  change (array_truthy (series c)) with true. cbv iota.
  destruct (formatChartSummary bi c) as [[summary f10] l10].
  unfold ret. intros H; injection H as <- _. reflexivity.
Qed.

Lemma alerts_not_no_data (bi : Builtins) (sv : Services)
    (msgs : list ChatMsg) (log log' : list Event) (res : QueryResult) :
  getAlertsDataIfAny bi sv msgs log = (Ok (Some res), log') ->
  is_no_data res = false.
Proof.
  unfold getAlertsDataIfAny. unfold bind at 1.
  destruct (try_catch _ _ log) as [[[a|]|e] l1]; try discriminate.
  destruct (truthy (alerts a)).
  - unfold ret. intros H; injection H as <- _. reflexivity.
  - unfold bind, lift. destruct (get (alerts a) (js "length")) as [len|e];
      [|discriminate].
    destruct len as [| | |n| | |]; unfold ret; try discriminate.
    destruct n as [q| | |]; try discriminate.
    destruct (Qeq_bool q 0); [|discriminate].
    intros H; injection H as <- _. reflexivity.
Qed.

(** The 'no data' branch of [getChartSummaryIfAny] is dead: whatever the
    collaborators answer, [handleQuery] never returns that reply. *)
Lemma no_data_reply_unreachable (bi : Builtins) (sv : Services)
    (msgs : list ChatMsg) (ids : list jsstring) (log log' : list Event)
    (res : QueryResult) :
  handleQuery bi sv msgs ids log = (Ok res, log') ->
  is_no_data res = false.
Proof.
  unfold handleQuery. destruct (length msgs =? 0); [discriminate|].
  unfold bind at 1.
  destruct (getChartSummaryIfAny bi sv msgs log) as [[[res1|]|e] l1] eqn:E1;
    [| |discriminate].
  - unfold ret. intros H; injection H as <- _.
    exact (chart_summary_not_no_data _ _ _ _ _ _ E1).
  - unfold bind at 1.
    destruct (getAlertsDataIfAny bi sv msgs l1) as [[[res2|]|e] l2] eqn:E2;
      [| |discriminate].
    + unfold ret. intros H; injection H as <- _.
      exact (alerts_not_no_data _ _ _ _ _ _ E2).
    + unfold bind at 1.
      destruct (milvusSearch bi sv msgs l2) as [[found|e] l3]; [|discriminate].
      unfold try_catch, bind, chatCompletion, request.
      destruct (completion sv _); [|discriminate].
      unfold lift. destruct (replyOf _); [|discriminate].
      unfold ret. intros H; injection H as <- _. reflexivity.
Qed.

(** C9.  When the text taken from the completion service's answer is no
    JSON, the chart classifier returns [{wants_chart: false}] and the alert
    classifier [{wants_alert: false}]; neither throws. *)
Theorem unparsable_intent_is_negative (bi : Builtins) (sv : Services)
    (lastUserText : jsstring) (r : JSValue) (log : list Event) :
  (completion sv (intentParams (chartIntentPrompt lastUserText)) = Some r ->
   JSON_parse bi (intent_text bi r) = None ->
   detectChartIntentWithLLM bi sv lastUserText log
   = (Ok (JObj [(js "wants_chart", JBool false)]),
      log ++ [ChatCompletion (intentParams (chartIntentPrompt lastUserText))])) /\
  (completion sv (intentParams (alertIntentPrompt lastUserText)) = Some r ->
   JSON_parse bi (intent_text bi r) = None ->
   detectAlertIntentWithLLM bi sv lastUserText log
   = (Ok (JObj [(js "wants_alert", JBool false)]),
      log ++ [ChatCompletion (intentParams (alertIntentPrompt lastUserText))])).
Proof.
  split; intros Hr Hp.
  - unfold detectChartIntentWithLLM, bind, chatCompletion, request.
    rewrite Hr, Hp. reflexivity.
  - unfold detectAlertIntentWithLLM, bind, chatCompletion, request.
    rewrite Hr, Hp. reflexivity.
Qed.

Lemma unparsable_intent_is_negative_witness :
  intent_text builtins (response fencedProse) = js "I cannot tell." /\
  detectChartIntentWithLLM builtins (services fencedProse []) (js "hello") []
  = (Ok (JObj [(js "wants_chart", JBool false)]),
     [ChatCompletion (intentParams (chartIntentPrompt (js "hello")))]) /\
  detectAlertIntentWithLLM builtins (services fencedProse []) (js "hello") []
  = (Ok (JObj [(js "wants_alert", JBool false)]),
     [ChatCompletion (intentParams (alertIntentPrompt (js "hello")))]).
Proof.
  split; [vm_compute; reflexivity|].
  destruct (unparsable_intent_is_negative builtins (services fencedProse [])
              (js "hello") (response fencedProse) []) as [Hc Ha].
  split; [apply Hc | apply Ha]; reflexivity.
Defined.

Lemma drop_ws_snoc (l : jsstring) (c : N) :
  is_ws c = false -> nonempty (drop_ws (l ++ [c])) = true.
Proof.
  intros Hc. induction l as [|x l IH]; simpl.
  - rewrite Hc. reflexivity.
  - destruct (is_ws x); [exact IH | reflexivity].
Qed.

Lemma trim_nonempty (c : N) (s : jsstring) :
  is_ws c = false -> nonempty (trim (c :: s)) = true.
Proof.
  intros Hc. unfold trim. rewrite StringFacts.drop_ws_id by exact Hc.
  cbn [rev]. pose proof (drop_ws_snoc (rev s) c Hc) as H.
  destruct (drop_ws (rev s ++ [c])) as [|y l]; [discriminate|].
  cbn [rev]. destruct (rev l); reflexivity.
Qed.

Lemma systemPrompt_non_blank (ids : list jsstring) (ctx : jsstring) :
  non_blank (systemPrompt ids ctx) = true.
Proof.
  unfold non_blank, systemPrompt, systemPromptContent. cbn [content].
  apply (trim_nonempty 89).
  reflexivity.
Qed.

Lemma flatten_lines (msgs : list ChatMsg) :
  flattenChatHistoryToString msgs
  = join [LF] (map history_line (filter non_blank msgs)).
Proof.
  unfold flattenChatHistoryToString. f_equal. f_equal.
  apply filter_ext. intros m. unfold non_blank.
  destruct (trim (content m)); reflexivity.
Qed.

(** C6, as stated, fails.  For a conversation of two turns the completion
    service receives one message, of role [user], not a system turn
    followed by the two turns. *)
Lemma answer_request_counterexample :
  exists res log p,
    handleQuery builtins (services (js "no") []) chat [js "pump"] []
    = (res, log ++ [ChatCompletion p]) /\
    map role (messages p) = [js "user"] /\
    map role (messages p) <> js "system" :: map role chat.
Proof.
  exists (Ok (TextReply (JStr (js "no")))),
    [ChatCompletion (intentParams (chartIntentPrompt (js "hello")));
     ChatCompletion (intentParams (alertIntentPrompt (js "hello")));
     EmbeddingsPost [js "hello "];
     MilvusSearch (js "custom_setup_6") [Fin 1; Fin 2; zero; zero]],
    (answerParams [js "pump"] (js "[S1] Pump P-101 manual") chat).
  split; [vm_compute; reflexivity|].
  split; [reflexivity | discriminate].
Qed.

(** C6, amended.  For a request that reaches the semantic-retrieval step,
    the completion service is sent exactly one message, of role [user]; its
    content is the lines [role: content] (contents trimmed, joined by line
    breaks) of one system turn carrying the fixed prompt with the retrieval
    context appended, followed by those of the most recent 10 conversation
    turns whose content is not blank, in their original order regardless
    of role; given 15 turns, the turns considered are the last 10. *)
Theorem answer_request_messages (bi : Builtins) (sv : Services)
    (msgs : list ChatMsg) (ids : list jsstring) (la lb lc : list Event)
    (ctx : jsstring) (hits : list JSValue) :
  msgs <> [] ->
  getChartSummaryIfAny bi sv msgs [] = (Ok None, la) ->
  getAlertsDataIfAny bi sv msgs la = (Ok None, lb) ->
  milvusSearch bi sv msgs lb = (Ok (ctx, hits), lc) ->
  exists res p,
    handleQuery bi sv msgs ids [] = (res, lc ++ [ChatCompletion p]) /\
    messages p
    = [{| role := js "user";
          content :=
            join [LF]
              (history_line (systemPrompt ids ctx)
               :: map history_line (filter non_blank (lastn 10 msgs))) |}] /\
    length (filter non_blank (lastn 10 msgs)) <= 10 /\
    (length msgs = 15 -> lastn 10 msgs = skipn 5 msgs).
Proof.
  intros Hne Ha Hb Hm.
  assert (Hrun : exists res,
             handleQuery bi sv msgs ids []
             = (res, lc ++ [ChatCompletion (answerParams ids ctx msgs)])).
  { unfold handleQuery.
    destruct msgs as [|m0 msgs']; [contradiction|]. cbn [length Nat.eqb].
    unfold bind at 1. rewrite Ha. unfold bind at 1. rewrite Hb.
    unfold bind at 1. rewrite Hm. cbn [fst].
    unfold try_catch, bind, chatCompletion, request.
    destruct (completion sv _); [|eexists; reflexivity].
    unfold lift. destruct (replyOf _); eexists; reflexivity. }
  destruct Hrun as [res Hrun].
  exists res, (answerParams ids ctx msgs).
  split; [exact Hrun|split; [|split]].
  - unfold answerParams. cbn [messages]. rewrite flatten_lines.
    unfold fullMessages. cbn [filter]. rewrite systemPrompt_non_blank.
    cbn [map]. unfold recentMessages, MAX_MESSAGES.
    change (- (10))%Z with (- Z.of_nat 10)%Z.
    rewrite (slice_suffix msgs 10) by lia. reflexivity.
  - pose proof (filter_length_le non_blank (lastn 10 msgs)).
    pose proof (lastn_length 10 msgs). lia.
  - intros H15. unfold lastn. rewrite H15. reflexivity.
Qed.

Lemma answer_request_messages_witness :
  exists res p,
    handleQuery builtins (services (js "no") []) (turns 15 1) [js "pump"] []
    = (res, [ChatCompletion (intentParams (chartIntentPrompt (js "turn 14")));
             ChatCompletion (intentParams (alertIntentPrompt (js "turn 14")));
             EmbeddingsPost [js "turn 2 turn 4 turn 6 turn 8 turn 10 turn 12 turn 14 "];
             MilvusSearch (js "custom_setup_6") [Fin 1; Fin 2; zero; zero]]
            ++ [ChatCompletion p]) /\
    messages p
    = [{| role := js "user";
          content :=
            join [LF]
              (history_line (systemPrompt [js "pump"] (js "[S1] Pump P-101 manual"))
               :: map history_line (filter non_blank (lastn 10 (turns 15 1)))) |}] /\
    length (filter non_blank (lastn 10 (turns 15 1))) <= 10 /\
    (length (turns 15 1) = 15 -> lastn 10 (turns 15 1) = skipn 5 (turns 15 1)).
Proof.
  apply (answer_request_messages builtins (services (js "no") []) (turns 15 1)
           [js "pump"]
           [ChatCompletion (intentParams (chartIntentPrompt (js "turn 14")))]
           [ChatCompletion (intentParams (chartIntentPrompt (js "turn 14")));
            ChatCompletion (intentParams (alertIntentPrompt (js "turn 14")))]
           _ _
           [JObj [(js "labels", JObj [(js "text", JStr (js "Pump P-101 manual"))])]]).
  - discriminate.
  - vm_compute. reflexivity.
  - vm_compute. reflexivity.
  - vm_compute. reflexivity.
Defined.

End QueryClaims.

(* ===================================================================== *)
(** ** SHA-256: published digests *)
(* ===================================================================== *)

Module SHA256Facts.
Import SHA256.

Example sha256_empty :
  sha256 [] = js "e3b0c44298fc1c149afbf4c8996fb92427ae41e4649b934ca495991b7852b855".
Proof. vm_compute. reflexivity. Qed.

Example sha256_abc :
  sha256 (js "abc")
  = js "ba7816bf8f01cfea414140de5dae2223b00361a396177a9cb410ff61f20015ad".
Proof. vm_compute. reflexivity. Qed.

Example sha256_two_blocks :
  sha256 (js "abcdbcdecdefdefgefghfghighijhijkijkljklmklmnlmnomnopnopq")
  = js "248d6a61d20638b8e5c026930c3e6039a33ce45964ff2167f6ecedd419db06c1".
Proof. vm_compute. reflexivity. Qed.

End SHA256Facts.

(* ===================================================================== *)
(** ** The ingestion run: the dedup invariant *)
(* ===================================================================== *)

Module IngestFacts.
Import stdpp.base stdpp.gmap.
Import SHA256 Ingest IngestSpec.

Lemma keys_of_snoc (ls : list Labels) (l : Labels) :
  keys_of (ls ++ [l])
  = keys_of ls ++ match label_string "sha256" l with
                  | Some h => [h]
                  | None => []
                  end.
Proof. unfold keys_of. rewrite flat_map_app. simpl. now rewrite app_nil_r. Qed.

Lemma keys_of_app (l1 l2 : list Labels) :
  keys_of (l1 ++ l2) = keys_of l1 ++ keys_of l2.
Proof. apply flat_map_app. Qed.

Lemma fingerprints_keys (docs : list VectorDoc) :
  fingerprints docs = keys_of (List.map labels docs).
Proof.
  induction docs as [|d docs IH]; [reflexivity|].
  unfold fingerprints, keys_of in *. simpl. now rewrite IH.
Qed.

Lemma invariant_start (s : gset jsstring) : dedup_invariant s s [].
Proof.
  split; [|constructor].
  split; [split; [constructor | intros h []] | reflexivity].
Qed.

(** A chunk whose key is not in the set is recorded and its key added. *)
Lemma invariant_push (s0 s : gset jsstring) (ls : list Labels) (l : Labels)
    (h : jsstring) :
  dedup_invariant s0 s ls ->
  label_string "sha256" l = Some h -> h ∉ s -> keyed l ->
  dedup_invariant s0 ({[ h ]} ∪ s) (ls ++ [l]).
Proof.
  intros [[[Hnd Hkeys] Hsub] Hkeyed] Hl Hh Hk. unfold dedup_invariant.
  rewrite keys_of_snoc, Hl.
  assert (Hsub' : s0 ⊆ {[ h ]} ∪ s) by (clear -Hsub; set_solver).
  assert (Hnew : h ∉ s0) by (clear -Hsub Hh; set_solver).
  split; [|apply Forall_app; split; [exact Hkeyed | repeat constructor; exact Hk]].
  split; [split|exact Hsub'].
  - apply List.NoDup_app; [exact Hnd | repeat constructor; intros [] |].
    intros a Ha [Heq|[]]. subst a. destruct (Hkeys h Ha) as [_ Hs]. contradiction.
  - intros a Ha. apply in_app_or in Ha. destruct Ha as [Ha|[Heq|[]]].
    + destruct (Hkeys a Ha) as [Hb Hs]. split; [exact Hb|].
      clear -Hs. set_solver.
    + subst a. split; [exact Hnew|]. clear. set_solver.
Qed.



Lemma meta_no_fingerprint (k : string) (m : MachineMeta) :
  str_eqb (js k) (js "machine_id") = false ->
  str_eqb (js k) (js "asset_name") = false ->
  str_eqb (js k) (js "dt_version") = false ->
  str_eqb (js k) (js "ts_start") = false ->
  str_eqb (js k) (js "ts_end") = false ->
  Value.assoc (js k) (meta_labels m) = None.
Proof.
  intros H1 H2 H3 H4 H5.
  destruct m as [[?|] [?|] [?|] [?|] [?|]]; cbn [meta_labels opt_label app
    Ingest.machine_id Ingest.asset_name Ingest.dt_version Ingest.ts_start
    Ingest.ts_end Value.assoc];
    rewrite ?H1, ?H2, ?H3, ?H4, ?H5; reflexivity.
Qed.

Lemma jsonParent_plain (e : Entity) (parentId : jsstring) :
  label_string "sha256" (jsonParentLabels e parentId) = None.
Proof.
  unfold label_string, jsonParentLabels.
  cbn [app Value.assoc].
  change (str_eqb (js "sha256") (js "kind")) with false.
  change (str_eqb (js "sha256") (js "source")) with false.
  change (str_eqb (js "sha256") (js "entityId")) with false.
  change (str_eqb (js "sha256") (js "entityType")) with false.
  change (str_eqb (js "sha256") (js "parent_id")) with false.
  cbv iota. now rewrite meta_no_fingerprint.
Qed.

Lemma jsonChild_fingerprint (e : Entity) (parentId hash ch : jsstring) (idx : nat) :
  label_string "sha256" (jsonChildLabels e parentId hash ch idx) = Some hash.
Proof. reflexivity. Qed.

Lemma jsonChild_keyed (e : Entity) (parentId ch : jsstring) (idx : nat) :
  keyed (jsonChildLabels e parentId (sha256 ch) ch idx).
Proof. intros h H. injection H as <-. reflexivity. Qed.




Section Run.
Variable cfg : Config.
Variable sv : Services.
Variable s0 : gset jsstring.

Lemma embedChunk_labels (n c : jsstring) (l : Labels) (d : VectorDoc) :
  embedChunk sv n c l = Some d -> labels d = l.
Proof.
  unfold embedChunk. destruct (embeddings sv c); [|discriminate].
  destruct (Embedding.createEmbeddings_vectors _ _) as [[|vec vecs]|];
    [discriminate| |discriminate].
  intros H; injection H as <-. reflexivity.
Qed.

Lemma await_all_labels (ps : list Pending) (docs : list VectorDoc) :
  await_all sv ps = Some docs -> List.map labels docs = List.map p_labels ps.
Proof.
  revert docs. induction ps as [|p ps IH]; intros docs; simpl.
  - intros H; injection H as <-. reflexivity.
  - destruct (await sv p) as [d|] eqn:Ed; [|discriminate].
    destruct (await_all sv ps) as [ds|]; [|discriminate].
    intros H; injection H as <-. simpl.
    rewrite (embedChunk_labels _ _ _ _ Ed), (IH ds eq_refl). reflexivity.
Qed.

Lemma jsonChunks_invariant (e : Entity) (parentId : jsstring)
    (chunks : list jsstring) :
  forall idx seen childDocs seen' childDocs',
  dedup_invariant s0 seen (List.map p_labels childDocs) ->
  jsonChunks e parentId idx chunks seen childDocs = (seen', childDocs') ->
  dedup_invariant s0 seen' (List.map p_labels childDocs').
Proof.
  induction chunks as [|ch chunks IH]; intros idx seen childDocs seen' childDocs' Hinv;
    cbn [jsonChunks].
  - intros H; injection H as <- <-. exact Hinv.
  - destruct (bool_decide (sha256 ch ∈ seen)) eqn:Hseen; [apply IH; exact Hinv|].
    apply IH. rewrite List.map_app. cbn [List.map p_labels].
    apply bool_decide_eq_false in Hseen.
    apply (invariant_push s0 seen _ _ (sha256 ch) Hinv
             (jsonChild_fingerprint e parentId (sha256 ch) ch idx) Hseen
             (jsonChild_keyed e parentId ch idx)).
Qed.

Lemma jsonEntities_invariant (entities : list Entity) :
  forall seen parentDocs childDocs seen' parentDocs' childDocs',
  dedup_invariant s0 seen (List.map p_labels childDocs) ->
  keys_of (List.map p_labels parentDocs) = [] ->
  jsonEntities cfg entities seen parentDocs childDocs
  = Some (seen', parentDocs', childDocs') ->
  dedup_invariant s0 seen' (List.map p_labels childDocs') /\
  keys_of (List.map p_labels parentDocs') = [].
Proof.
  induction entities as [|e entities IH];
    intros seen parentDocs childDocs seen' parentDocs' childDocs' Hinv Hpar;
    cbn [jsonEntities].
  - intros H; injection H as <- <- <-. split; assumption.
  - destruct (nonempty (factParagraphs e)); [|apply IH; assumption].
    destruct (chunks_of cfg _) as [chunks|]; [|discriminate].
    destruct (jsonChunks e _ 0 chunks seen childDocs) as [seen1 child1] eqn:E.
    apply IH.
    + exact (jsonChunks_invariant e _ chunks _ _ _ _ _ Hinv E).
    + rewrite List.map_app, keys_of_app, Hpar. cbn [List.map p_labels keys_of flat_map].
      now rewrite jsonParent_plain.
Qed.




End Run.

End IngestFacts.

(* ===================================================================== *)
(** ** The ingestion run's claim *)
(* ===================================================================== *)

Module IngestClaims.
Import stdpp.base stdpp.gmap.
Import SHA256 Ingest IngestSpec IngestFacts IngestExample.





End IngestClaims.

(* ===================================================================== *)
(** ** The chunker: shape and number of the chunks *)
(* ===================================================================== *)

Module ChunkShape.
Import Chunker StringFacts SegFacts LoopFacts ChunkFacts.

Lemma chunks_at_shape (W : list jsstring) (m o : nat) :
  Forall word W ->
  forall s out, chunks_at W m o s out -> s < length W -> 0 < m ->
  Forall (fun c => c <> [] /\ length (words_of c) <= m /\
                   join [SP] (words_of c) = c /\
                   (forall w, In w (words_of c) -> In w W)) out.
Proof.
  intros HW s out H.
  assert (Hseg : forall a b, a < b -> a < length W -> b <= length W -> b - a <= m ->
            let c := join [SP] (seg W a b) in
            c <> [] /\ length (words_of c) <= m /\ join [SP] (words_of c) = c /\
            (forall w, In w (words_of c) -> In w W)).
  { intros a b Hab Ha Hb Hm c. subst c. rewrite words_of_seg by exact HW.
    rewrite seg_length by lia.
    destruct (seg_cons W a b Hab Ha) as (x & xs & E & Hin).
    repeat split; try lia; try reflexivity.
    - rewrite E. rewrite Forall_forall in HW.
      destruct (join_head x xs (HW x Hin)) as (c & r & -> & _). discriminate.
    - intros w Hw. unfold seg in Hw. now apply In_firstn, In_skipn in Hw. }
  induction H as [s Hs | s rest Hs Hrest IH]; intros Hlt Hm.
  - constructor; [|constructor]. apply Hseg; lia.
  - constructor; [apply Hseg; lia|]. apply IH; lia.
Qed.

(** The number of chunks cut from cursor [s] on. *)
Lemma chunks_at_count (W : list jsstring) (m o : nat) :
  o < m ->
  forall s out, chunks_at W m o s out ->
  let r := (Z.of_nat (length W) - Z.of_nat s)%Z in
  let d := (Z.of_nat m - Z.of_nat o)%Z in
  Z.of_nat (length out) = (1 + (Z.max 0 (r - Z.of_nat m) + d - 1) / d)%Z.
Proof.
  intros Hom s out H. cbv zeta.
  induction H as [s Hs | s rest Hs Hrest IH].
  - rewrite Z.max_l by lia. rewrite Z.div_small by lia. reflexivity.
  - cbn [length]. rewrite Nat2Z.inj_succ, IH. clear IH.
    set (d := (Z.of_nat m - Z.of_nat o)%Z).
    set (n := Z.of_nat (length W)).
    assert (Hd : (0 < d)%Z) by (subst d; lia).
    replace (n - Z.of_nat (s + m - o) - Z.of_nat m)%Z
      with (n - Z.of_nat s - Z.of_nat m - d)%Z by (subst d; lia).
    set (x := (n - Z.of_nat s - Z.of_nat m)%Z).
    assert (Hx : (0 < x)%Z) by (subst x n; lia).
    rewrite (Z.max_r 0 x) by lia.
    destruct (Z.le_gt_cases d x) as [Hle|Hgt].
    + rewrite Z.max_r by lia.
      replace (x + d - 1)%Z with ((x - d + d - 1) + 1 * d)%Z by lia.
      rewrite Z.div_add by lia. lia.
    + rewrite Z.max_l by lia.
      replace (0 + d - 1)%Z with (d - 1)%Z by lia.
      rewrite (Z.div_small (d - 1)) by lia.
      replace (x + d - 1)%Z with ((x - 1) + 1 * d)%Z by lia.
      rewrite Z.div_add by lia. rewrite (Z.div_small (x - 1)) by lia. lia.
Qed.

End ChunkShape.

Module ChunkExtras.
Import Chunker StringFacts SegFacts LoopFacts ChunkFacts ChunkShape.

(** X1. Shape of the chunks. For [0 <= overlap < maxTokens], every chunk
    that a call returns is non-empty, holds at most [maxTokens] words, all
    of them words of the input, and is whitespace-normalised: its words are
    separated by single spaces, whatever whitespace (line breaks included)
    separated them in the input. *)
Theorem chunks_are_normalised_windows (text : jsstring)
    (minTokens maxTokens overlap : Z) (chunks : list jsstring) :
  (0 <= overlap < maxTokens)%Z ->
  chunkByTokens_returns text minTokens maxTokens overlap chunks ->
  Forall (fun c =>
            c <> [] /\
            (Z.of_nat (length (words_of c)) <= maxTokens)%Z /\
            join [SP] (words_of c) = c /\
            (forall w, In w (words_of c) -> In w (words_of text))) chunks.
Proof.
  intros Hov Hret.
  destruct (words_of text) as [|w ws] eqn:E.
  - assert (H0 : chunkByTokens_returns text minTokens maxTokens overlap [])
      by (exists 0%nat; unfold chunkByTokens_fuel; now rewrite E).
    rewrite (chunkByTokens_returns_unique _ _ _ _ _ _ Hret H0). constructor.
  - destruct (chunkByTokens_chunks_at text minTokens maxTokens overlap Hov)
      as (out & Hout & Hat); [rewrite E; discriminate|].
    rewrite (chunkByTokens_returns_unique _ _ _ _ _ _ Hret Hout).
    rewrite <- E. rewrite E in Hat at 1. rewrite <- E in Hat.
    pose proof (chunks_at_shape (words_of text) (Z.to_nat maxTokens)
                  (Z.to_nat overlap) (words_of_words text) 0 out Hat) as Hs.
    eapply Forall_impl; [|apply Hs; [rewrite E; simpl; lia | lia]].
    intros c (H1 & H2 & H3 & H4). repeat split; try assumption. lia.
Qed.

Lemma chunks_are_normalised_windows_witness :
  Forall (fun c =>
            c <> [] /\
            (Z.of_nat (length (words_of c)) <= 4)%Z /\
            join [SP] (words_of c) = c /\
            (forall w, In w (words_of c) ->
                       In w (words_of (js "a b" ++ [LF; LF] ++ js "c d e"))))
    [js "a b c d"; js "e"].
Proof.
  apply (chunks_are_normalised_windows (js "a b" ++ [LF; LF] ++ js "c d e") 1 4 0).
  - lia.
  - exists 2%nat. vm_compute. reflexivity.
Defined.

(** X2. The number of chunks. For [0 <= overlap < maxTokens] a text of
    [n > 0] words is cut into one chunk when [n <= maxTokens], and else into
    one more than the quotient, rounded up, of [n - maxTokens] by the stride
    [maxTokens - overlap]. *)
Theorem chunk_count (text : jsstring) (minTokens maxTokens overlap : Z)
    (chunks : list jsstring) :
  (0 <= overlap < maxTokens)%Z ->
  words_of text <> [] ->
  chunkByTokens_returns text minTokens maxTokens overlap chunks ->
  let n := Z.of_nat (length (words_of text)) in
  let stride := (maxTokens - overlap)%Z in
  Z.of_nat (length chunks)
  = (1 + (Z.max 0 (n - maxTokens) + stride - 1) / stride)%Z.
Proof.
  intros Hov Hne Hret. cbv zeta.
  destruct (chunkByTokens_chunks_at text minTokens maxTokens overlap Hov Hne)
    as (out & Hout & Hat).
  rewrite (chunkByTokens_returns_unique _ _ _ _ _ _ Hret Hout).
  pose proof (chunks_at_count (words_of text) (Z.to_nat maxTokens)
                (Z.to_nat overlap) ltac:(lia) 0 out Hat) as Hc.
  cbv zeta in Hc. rewrite Hc.
  rewrite !Z2Nat.id by lia. rewrite Z.sub_0_r. reflexivity.
Qed.

Lemma chunk_count_witness :
  Z.of_nat (length [js "a b c"; js "c d e"; js "e f g"])
  = (1 + (Z.max 0 (Z.of_nat (length (words_of (js "a b c d e f g"))) - 3)
          + (3 - 1) - 1) / (3 - 1))%Z.
Proof.
  apply (chunk_count (js "a b c d e f g") 2 3 1).
  - lia.
  - discriminate.
  - exists 3%nat. vm_compute. reflexivity.
Defined.

(** X3. [minTokens] has no effect: two calls that differ in it only return
    the same chunks, or both do not return. *)
Theorem minTokens_is_ignored (text : jsstring) (m1 m2 maxTokens overlap : Z)
    (chunks : list jsstring) :
  chunkByTokens text m1 maxTokens overlap = chunkByTokens text m2 maxTokens overlap /\
  (chunkByTokens_returns text m1 maxTokens overlap chunks <->
   chunkByTokens_returns text m2 maxTokens overlap chunks) /\
  (chunkByTokens_diverges text m1 maxTokens overlap <->
   chunkByTokens_diverges text m2 maxTokens overlap).
Proof.
  assert (H : forall fuel a b,
             chunkByTokens_fuel fuel text a maxTokens overlap
             = chunkByTokens_fuel fuel text b maxTokens overlap).
  { intros fuel a b. unfold chunkByTokens_fuel.
    destruct (nonempty (words_of text)); [|reflexivity].
    apply chunk_loop_minTokens, words_of_words. }
  split; [apply H|]. split; split.
  - intros [f Hf]. exists f. now rewrite (H f m2 m1).
  - intros [f Hf]. exists f. now rewrite (H f m1 m2).
  - intros D f. now rewrite (H f m2 m1).
  - intros D f. now rewrite (H f m1 m2).
Qed.

End ChunkExtras.

(* ===================================================================== *)
(** ** The embedding adapter: a negative dimension *)
(* ===================================================================== *)

Module EmbeddingExtras.
Import Embedding SegFacts.

(** X4. A negative target dimension. [parseInt] accepts a sign, and for
    [targetDim < 0] every vector is longer than [targetDim]: [fit] takes the
    branch [v.slice(0, targetDim)], which counts from the end, and returns
    the vector without its last [-targetDim] coordinates. *)
Theorem fit_negative_dimension (targetDim : Z) (v : list number) :
  (targetDim < 0)%Z ->
  fit (PInt targetDim) v = Some (firstn (length v - Z.to_nat (- targetDim)) v).
Proof.
  intros HD. unfold fit.
  destruct (Z.eqb_spec (Z.of_nat (length v)) targetDim); [lia|].
  destruct (Z.ltb_spec targetDim (Z.of_nat (length v))); [|lia].
  unfold slice, rel_index.
  change (0 <? 0)%Z with false. cbv iota.
  destruct (Z.ltb_spec targetDim 0); [|lia].
  rewrite Z.min_l by lia. change (skipn (Z.to_nat 0) v) with v.
  do 2 f_equal. lia.
Qed.

Lemma fit_negative_dimension_witness :
  fit (PInt (-2)) [Fin 1; Fin 2; Fin 3; Fin 4; Fin 5]
  = Some [Fin 1; Fin 2; Fin 3].
Proof.
  apply (fit_negative_dimension (-2) [Fin 1; Fin 2; Fin 3; Fin 4; Fin 5]). lia.
Defined.

End EmbeddingExtras.

(* ===================================================================== *)
(** ** SHA-256: the format of a digest *)
(* ===================================================================== *)

Module SHA256Extras.
Import SHA256.
Local Open Scope N_scope.

Lemma round_length (st : list N) (kw : N * N) : length (round st kw) = length st.
Proof.
  destruct st as [|a [|b [|c [|d [|e [|f [|g [|h [|i st]]]]]]]]]; reflexivity.
Qed.

Lemma rounds_length (kws : list (N * N)) (st : list N) :
  length (fold_left round kws st) = length st.
Proof.
  revert st. induction kws as [|kw kws IH]; intros st; [reflexivity|].
  simpl. now rewrite IH, round_length.
Qed.

Lemma compress_length (h block : list N) : length (compress h block) = length h.
Proof.
  unfold compress. rewrite length_map, length_combine, rounds_length.
  apply Nat.min_id.
Qed.

Lemma blocks_length (n : nat) (h bytes : list N) :
  length (blocks n h bytes) = length h.
Proof.
  revert h bytes. induction n as [|n IH]; intros h bytes; [reflexivity|].
  simpl. now rewrite IH, compress_length.
Qed.

(** A lower-case hexadecimal digit. *)
Lemma hex_digit_range (d : N) :
  d < 16 ->
  (48 <= hex_digit d /\ hex_digit d <= 57) \/ (97 <= hex_digit d /\ hex_digit d <= 102).
Proof.
  intros Hd. unfold hex_digit. destruct (N.ltb_spec d 10); lia.
Qed.

Lemma hex_word_digits (x : N) :
  length (hex_word x) = 8%nat /\
  Forall (fun c => (48 <= c /\ c <= 57) \/ (97 <= c /\ c <= 102)) (hex_word x).
Proof.
  split; [reflexivity|].
  unfold hex_word. apply Forall_map, Forall_forall. intros i _.
  apply hex_digit_range.
  change 15 with (N.ones 4). rewrite N.land_ones.
  apply N.mod_lt. discriminate.
Qed.

Lemma hex_words (ws : list N) :
  length (flat_map hex_word ws) = (8 * length ws)%nat /\
  Forall (fun c => (48 <= c /\ c <= 57) \/ (97 <= c /\ c <= 102))
    (flat_map hex_word ws).
Proof.
  induction ws as [|x ws [IHl IHf]]; [split; [reflexivity | constructor]|].
  cbn [flat_map]. destruct (hex_word_digits x) as [Hl Hf]. split.
  - rewrite length_app, Hl, IHl. simpl. lia.
  - apply Forall_app. split; assumption.
Qed.

End SHA256Extras.

Module HashExtras.
Import SHA256 SHA256Extras.
Local Open Scope N_scope.

(** X5. The format of a fingerprint. Whatever is hashed, the digest is a
    string of 64 lower-case hexadecimal digits; so is every [sha256] label,
    [parent_id] and [pdfFileHash]. *)
Theorem digest_is_64_hex_digits (s : jsstring) (bytes : list N) :
  (length (sha256 s) = 64%nat /\
   Forall (fun c => (48 <= c /\ c <= 57) \/ (97 <= c /\ c <= 102)) (sha256 s)) /\
  (length (sha256_bytes bytes) = 64%nat /\
   Forall (fun c => (48 <= c /\ c <= 57) \/ (97 <= c /\ c <= 102))
     (sha256_bytes bytes)).
Proof.
  assert (H : forall msg,
             length (sha256_bytes msg) = 64%nat /\
             Forall (fun c => (48 <= c /\ c <= 57) \/ (97 <= c /\ c <= 102))
               (sha256_bytes msg)).
  { intros msg. unfold sha256_bytes.
    destruct (hex_words (blocks (length (pad msg) / 64) H0 (pad msg))) as [Hl Hf].
    split; [|exact Hf]. rewrite Hl, blocks_length. reflexivity. }
  split; [apply H | apply H].
Qed.

End HashExtras.

Module CryptoExtras.
Import SHA256 SHA256Extras Crypto.
Local Open Scope N_scope.

Lemma be_bytes_4 (x : N) :
  length (be_bytes 4 x) = 4%nat /\ Forall (fun b => b < 256) (be_bytes 4 x).
Proof.
  split; [reflexivity|]. unfold be_bytes. apply Forall_map, Forall_forall.
  intros i _. change 255 with (N.ones 8). rewrite N.land_ones.
  apply N.mod_lt. discriminate.
Qed.

Lemma digest_bytes (ws : list N) :
  length (flat_map (be_bytes 4) ws) = (4 * length ws)%nat /\
  Forall (fun b => b < 256) (flat_map (be_bytes 4) ws).
Proof.
  induction ws as [|x ws [IHl IHf]]; [split; [reflexivity | constructor]|].
  cbn [flat_map]. destruct (be_bytes_4 x) as [Hl Hf]. split.
  - rewrite length_app, Hl, IHl. cbn [length]. lia.
  - apply Forall_app. split; assumption.
Qed.

Lemma byte_hex_of (x k : N) :
  byte_hex (N.land (N.shiftr x k) 0xff)
  = [hex_digit (N.land (N.shiftr x (k + 4)) 0xf);
     hex_digit (N.land (N.shiftr x k) 0xf)].
Proof.
  unfold byte_hex. rewrite N.shiftr_land, N.shiftr_shiftr.
  change (N.shiftr 0xff 4) with 0xf.
  rewrite <- N.land_assoc. change (N.land 0xff 0xf) with 0xf. reflexivity.
Qed.

(** The hexadecimal digits of a word are those of its four bytes. *)
Lemma hex_word_bytes (x : N) : flat_map byte_hex (be_bytes 4 x) = hex_word x.
Proof.
  unfold be_bytes, hex_word.
  change (rev (seq 0 4)) with [3; 2; 1; 0]%nat.
  change (rev (seq 0 8)) with [7; 6; 5; 4; 3; 2; 1; 0]%nat.
  cbn [map flat_map app].
  change (8 * N.of_nat 3) with 24. change (8 * N.of_nat 2) with 16.
  change (8 * N.of_nat 1) with 8. change (8 * N.of_nat 0) with 0.
  rewrite !byte_hex_of. reflexivity.
Qed.

Lemma hex_digest (ws : list N) :
  flat_map byte_hex (flat_map (be_bytes 4) ws) = flat_map hex_word ws.
Proof.
  induction ws as [|x ws IH]; [reflexivity|].
  cbn [flat_map]. now rewrite flat_map_app, hex_word_bytes, IH.
Qed.

(** X6. The derived key. Whatever the secret is, [deriveKey] returns 32
    bytes, a key of the 256 bits that the encryption with [A256GCM] takes:
    the bytes whose hexadecimal digits are the [sha256] of the secret. *)
Theorem derived_key_has_256_bits (secret : jsstring) :
  length (deriveKey secret) = 32%nat /\
  Forall (fun b => b < 256) (deriveKey secret) /\
  flat_map byte_hex (deriveKey secret) = sha256 secret.
Proof.
  unfold deriveKey, sha256_digest.
  destruct (digest_bytes (blocks (length (pad (utf8 secret)) / 64) H0
                            (pad (utf8 secret)))) as [Hl Hf].
  split; [|split; [exact Hf | apply hex_digest]].
  rewrite Hl, blocks_length. reflexivity.
Qed.

End CryptoExtras.

(* ===================================================================== *)
(** ** Words and whitespace *)
(* ===================================================================== *)

Module WordFacts.
Import StringFacts.

Lemma split_ws_cons (c : N) (s : jsstring) :
  split_ws (c :: s) =
  if is_ws c then
    match s with
    | c' :: _ => if is_ws c' then split_ws s else [] :: split_ws s
    | [] => [] :: split_ws s
    end
  else
    match split_ws s with
    | p :: ps => (c :: p) :: ps
    | [] => [[c]]
    end.
Proof. reflexivity. Qed.

Lemma split_ws_leading_ws (c : N) (s : jsstring) :
  is_ws c = true -> exists ps, split_ws (c :: s) = [] :: ps.
Proof.
  revert c. induction s as [|c' s IH]; intros c Hc.
  - exists [[]]. rewrite split_ws_cons, Hc. reflexivity.
  - rewrite split_ws_cons, Hc.
    destruct (is_ws c') eqn:Hc'; [apply IH, Hc' | eauto].
Qed.

(** A whitespace character in front adds no word. *)
Lemma words_of_ws_cons (c : N) (s : jsstring) :
  is_ws c = true -> words_of (c :: s) = words_of s.
Proof.
  intros Hc. unfold words_of. rewrite split_ws_cons, Hc.
  destruct s as [|c' s]; [reflexivity|].
  destruct (is_ws c') eqn:Hc'; reflexivity.
Qed.

Lemma split_ws_app_ws (a b : jsstring) (c : N) :
  is_ws c = true ->
  exists p ps qs,
    split_ws (a ++ c :: b) = p :: ps /\ split_ws a = p :: qs /\
    filter nonempty ps = filter nonempty qs ++ words_of b.
Proof.
  intros Hc. induction a as [|x a IH].
  - cbn [app]. destruct (split_ws_leading_ws c b Hc) as [ps E].
    exists [], ps, []. split; [exact E|]. split; [reflexivity|].
    cbn [filter app]. rewrite <- (words_of_ws_cons c b Hc).
    unfold words_of. rewrite E. reflexivity.
  - destruct IH as (p & ps & qs & E1 & E2 & E3).
    change ((x :: a) ++ c :: b) with (x :: (a ++ c :: b)).
    destruct (is_ws x) eqn:Hx.
    + destruct a as [|y a].
      * cbn [app] in *.
        rewrite (split_ws_cons x (c :: b)), (split_ws_cons x []), Hx, Hc.
        injection E2 as <- <-.
        exists [], ps, [[]]. split; [exact E1|]. split; [reflexivity|].
        exact E3.
      * change ((y :: a) ++ c :: b) with (y :: (a ++ c :: b)) in *.
        rewrite (split_ws_cons x (y :: a ++ c :: b)), (split_ws_cons x (y :: a)), Hx.
        destruct (is_ws y) eqn:Hy.
        -- exists p, ps, qs. repeat split; assumption.
        -- exists [], (p :: ps), (p :: qs).
           rewrite E1, E2. split; [reflexivity|]. split; [reflexivity|].
           cbn [filter]. destruct (nonempty p); [|exact E3].
           rewrite <- app_comm_cons. now rewrite E3.
    + rewrite (split_ws_cons x (a ++ c :: b)), (split_ws_cons x a), Hx, E1, E2.
      exists (x :: p), ps, qs. repeat split; try reflexivity. exact E3.
Qed.

(** The words of two texts separated by a whitespace character. *)
Lemma words_of_app_ws (a b : jsstring) (c : N) :
  is_ws c = true -> words_of (a ++ c :: b) = words_of a ++ words_of b.
Proof.
  intros Hc. destruct (split_ws_app_ws a b c Hc) as (p & ps & qs & E1 & E2 & E3).
  unfold words_of at 1 2. rewrite E1, E2. cbn [filter].
  destruct (nonempty p); [rewrite <- app_comm_cons|]; now rewrite E3.
Qed.

Lemma words_of_snoc_ws (a : jsstring) (c : N) :
  is_ws c = true -> words_of (a ++ [c]) = words_of a.
Proof.
  intros Hc. rewrite (words_of_app_ws a [] c Hc). apply app_nil_r.
Qed.

Lemma words_of_drop_ws (s : jsstring) : words_of (drop_ws s) = words_of s.
Proof.
  induction s as [|c s IH]; [reflexivity|].
  cbn [drop_ws]. destruct (is_ws c) eqn:Hc; [|reflexivity].
  now rewrite IH, words_of_ws_cons.
Qed.

Lemma words_of_drop_trailing (u : jsstring) :
  words_of (rev (drop_ws u)) = words_of (rev u).
Proof.
  induction u as [|c u IH]; [reflexivity|].
  cbn [drop_ws rev]. destruct (is_ws c) eqn:Hc; [|reflexivity].
  now rewrite IH, words_of_snoc_ws.
Qed.

(** Trimming keeps the words. *)
Lemma words_of_trim (s : jsstring) : words_of (trim s) = words_of s.
Proof.
  unfold trim. rewrite words_of_drop_trailing, rev_involutive.
  apply words_of_drop_ws.
Qed.

(** The words of texts joined by a whitespace character. *)
Lemma words_of_join_ws (c : N) (l : list jsstring) :
  is_ws c = true -> words_of (join [c] l) = flat_map words_of l.
Proof.
  intros Hc. induction l as [|x l IH]; [reflexivity|].
  destruct l as [|y l].
  - simpl. now rewrite app_nil_r.
  - rewrite join_cons2. change ([c] ++ join [c] (y :: l)) with (c :: join [c] (y :: l)).
    rewrite words_of_app_ws by exact Hc. rewrite IH. reflexivity.
Qed.

Lemma words_of_nil_trim (s : jsstring) : trim s = [] -> words_of s = [].
Proof. intros H. rewrite <- words_of_trim, H. reflexivity. Qed.

End WordFacts.

(* ===================================================================== *)
(** ** The text of a PDF: sections and words *)
(* ===================================================================== *)

Module PdfTextFacts.
Import stdpp.base.
Import Ingest PdfSpec StringFacts WordFacts.

Lemma split_lines_cons (c : N) (s : jsstring) :
  split_lines (c :: s) =
  if (c =? LF)%N then
    match s with
    | c' :: _ => if (c' =? LF)%N then split_lines s else [] :: split_lines s
    | [] => [] :: split_lines s
    end
  else
    match split_lines s with
    | p :: ps => (c :: p) :: ps
    | [] => [[c]]
    end.
Proof. reflexivity. Qed.

Lemma LF_is_ws : is_ws LF = true.
Proof. reflexivity. Qed.

(** The first line ends at the first line break; the words of the other
    lines are the words of what follows the break. *)
Lemma split_lines_head (s : jsstring) :
  exists p ps,
    split_lines s = p :: ps /\ List.Forall (fun x => x <> LF) p /\
    ((ps = [] /\ s = p) \/
     exists rest, s = p ++ LF :: rest /\ flat_map words_of ps = words_of rest).
Proof.
  induction s as [|c s (p & ps & E & Hp & Hs)].
  - exists [], []. split; [reflexivity|]. split; [constructor | now left].
  - rewrite split_lines_cons. destruct (N.eqb_spec c LF) as [->|Hc].
    + assert (Hall : flat_map words_of (p :: ps) = words_of s).
      { cbn [flat_map]. destruct Hs as [[-> ->]|(rest & -> & ->)].
        - apply app_nil_r.
        - symmetry. apply words_of_app_ws, LF_is_ws. }
      destruct s as [|c' s'].
      * exists [], (split_lines []). split; [reflexivity|]. split; [constructor|].
        right. exists []. split; [reflexivity|]. rewrite E. exact Hall.
      * destruct (N.eqb_spec c' LF) as [->|Hc'].
        -- assert (p = []) as ->.
           { destruct p as [|x p]; [reflexivity|]. exfalso.
             inversion Hp as [|? ? Hx _]; subst.
             destruct Hs as [[_ Hs]|(rest & Hs & _)]; injection Hs as Hs _;
               congruence. }
           exists [], ps. split; [exact E|]. split; [constructor|].
           right. exists (LF :: s'). split; [reflexivity|].
           cbn [flat_map] in Hall. exact Hall.
        -- exists [], (split_lines (c' :: s')). split; [reflexivity|].
           split; [constructor|]. right. exists (c' :: s').
           split; [reflexivity|]. rewrite E. exact Hall.
    + rewrite E. exists (c :: p), ps. split; [reflexivity|].
      split; [constructor; assumption|].
      destruct Hs as [[-> ->]|(rest & -> & Hr)]; [now left|].
      right. exists rest. split; [reflexivity | exact Hr].
Qed.

(** Splitting into lines keeps the words. *)
Lemma split_lines_words (s : jsstring) :
  flat_map words_of (split_lines s) = words_of s.
Proof.
  destruct (split_lines_head s) as (p & ps & -> & _ & Hs). cbn [flat_map].
  destruct Hs as [[-> ->]|(rest & -> & ->)].
  - apply app_nil_r.
  - symmetry. apply words_of_app_ws, LF_is_ws.
Qed.

Lemma trimmed_lines_words (ls : list jsstring) :
  flat_map words_of (List.filter nonempty (List.map trim ls))
  = flat_map words_of ls.
Proof.
  induction ls as [|l ls IH]; [reflexivity|].
  cbn [List.map List.filter flat_map]. rewrite <- IH.
  destruct (trim l) as [|c t] eqn:E.
  - cbn [nonempty]. now rewrite (words_of_nil_trim l E).
  - cbn [nonempty flat_map]. now rewrite <- E, words_of_trim.
Qed.

Lemma section_words_app (a b : list PdfSection) :
  section_words (a ++ b) = section_words a ++ section_words b.
Proof. apply flat_map_app. Qed.

Lemma section_words_snoc (a : list PdfSection) (c : PdfSection) :
  section_words (a ++ [c]) = section_words a ++ words_of (text c).
Proof. rewrite section_words_app. cbn. now rewrite app_nil_r. Qed.

Lemma words_of_line_appended (t ln : jsstring) :
  t = [] \/ (exists t', t = t' ++ [LF]) ->
  words_of (t ++ ln ++ [LF]) = words_of t ++ words_of ln.
Proof.
  intros [->|[t' ->]].
  - cbn [app]. apply words_of_snoc_ws, LF_is_ws.
  - rewrite <- app_assoc. cbn [app].
    rewrite words_of_app_ws, !words_of_snoc_ws by apply LF_is_ws. reflexivity.
Qed.

Section Sections.
Variable sv : Services.

(** The first loop of [sectionizePdfText] files every word of every line,
    in order. *)
Lemma sectionLines_words (lines : list jsstring) :
  forall sections current,
  match current with
  | Some c => text c = [] \/ exists t', text c = t' ++ [LF]
  | None => True
  end ->
  section_words (sectionLines sv lines sections current)
  = section_words sections ++
    match current with Some c => words_of (text c) | None => [] end ++
    flat_map words_of lines.
Proof.
  induction lines as [|ln lines IH]; intros sections current Hc.
  - cbn [sectionLines flat_map]. rewrite app_nil_r.
    destruct current as [c|]; [apply section_words_snoc | now rewrite app_nil_r].
  - cbn [sectionLines flat_map]. destruct (isHeading sv ln).
    + rewrite IH by (right; now exists ln). cbn [text].
      rewrite words_of_snoc_ws by apply LF_is_ws.
      destruct current as [c|]; [rewrite section_words_snoc|];
        now rewrite <- ?app_assoc.
    + rewrite IH; cbn [text].
      * destruct current as [c|].
        -- rewrite words_of_line_appended by exact Hc. now rewrite <- !app_assoc.
        -- cbn [text app]. rewrite words_of_snoc_ws by apply LF_is_ws. reflexivity.
      * right. exists (text match current with
                             | Some c => c
                             | None => {| text := []; heading := None |}
                             end ++ ln).
        now rewrite <- app_assoc.
Qed.

End Sections.

Lemma rev_cons_inv {A} (l front : list A) (x : A) :
  rev l = x :: front -> l = rev front ++ [x].
Proof. intros H. rewrite <- (rev_involutive l), H. reflexivity. Qed.

Lemma mergeTiny_step_words (merged : list PdfSection) (sec : PdfSection) :
  section_words
    (match rev merged with
     | lastSec :: front =>
         if (length (words_of (text sec)) <? 80)%nat then
           rev front ++
           [{| text := text lastSec ++ [LF] ++ text sec;
               heading := heading lastSec |}]
         else merged ++ [sec]
     | [] => merged ++ [sec]
     end)
  = section_words merged ++ words_of (text sec).
Proof.
  destruct (rev merged) as [|lastSec front] eqn:E; [apply section_words_snoc|].
  destruct (length (words_of (text sec)) <? 80)%nat; [|apply section_words_snoc].
  rewrite (rev_cons_inv _ _ _ E), !section_words_snoc. cbn [text app].
  rewrite words_of_app_ws by apply LF_is_ws. now rewrite <- app_assoc.
Qed.

Lemma mergeTiny_fold_words (secs merged : list PdfSection) :
  section_words
    (fold_left
       (fun merged sec =>
          let tokenCount := length (words_of (text sec)) in
          match rev merged with
          | lastSec :: front =>
              if (tokenCount <? 80)%nat then
                rev front ++
                [{| text := text lastSec ++ [LF] ++ text sec;
                    heading := heading lastSec |}]
              else merged ++ [sec]
          | [] => merged ++ [sec]
          end) secs merged)
  = section_words merged ++ section_words secs.
Proof.
  revert merged. induction secs as [|sec secs IH]; intros merged.
  - cbn. now rewrite app_nil_r.
  - cbn [fold_left]. rewrite IH. cbv zeta. rewrite mergeTiny_step_words.
    cbn [section_words flat_map]. now rewrite <- app_assoc.
Qed.

(** Merging tiny sections keeps the words. *)
Lemma mergeTiny_words (secs : list PdfSection) :
  section_words (mergeTiny secs) = section_words secs.
Proof. unfold mergeTiny. apply mergeTiny_fold_words. Qed.

Lemma big_tail_step (merged : list PdfSection) (sec : PdfSection) :
  List.Forall (fun s => 80 <= length (words_of (text s))) (tl merged) ->
  List.Forall (fun s => 80 <= length (words_of (text s)))
    (tl match rev merged with
        | lastSec :: front =>
            if (length (words_of (text sec)) <? 80)%nat then
              rev front ++
              [{| text := text lastSec ++ [LF] ++ text sec;
                  heading := heading lastSec |}]
            else merged ++ [sec]
        | [] => merged ++ [sec]
        end).
Proof.
  intros H. destruct (rev merged) as [|lastSec front] eqn:E.
  - destruct merged as [|x m]; [constructor|].
    apply (f_equal (@length _)) in E. cbn in E. rewrite length_app in E.
    cbn in E. lia.
  - pose proof (rev_cons_inv _ _ _ E) as Em.
    destruct (Nat.ltb_spec (length (words_of (text sec))) 80) as [Hlt|Hge].
    + rewrite Em in H. destruct (rev front) as [|x r]; [constructor|].
      cbn [app tl] in *. apply List.Forall_app in H. destruct H as [Hr Hl].
      apply List.Forall_app. split; [exact Hr|].
      constructor; [|constructor]. cbn [text app].
      rewrite words_of_app_ws, length_app by apply LF_is_ws.
      inversion Hl; subst. lia.
    + rewrite Em in *. destruct (rev front) as [|x r]; cbn [app tl] in *.
      * constructor; [exact Hge | constructor].
      * apply List.Forall_app. split; [exact H|].
        constructor; [exact Hge | constructor].
Qed.

Lemma mergeTiny_fold_big (secs merged : list PdfSection) :
  List.Forall (fun s => 80 <= length (words_of (text s))) (tl merged) ->
  List.Forall (fun s => 80 <= length (words_of (text s)))
    (tl (fold_left
       (fun merged sec =>
          let tokenCount := length (words_of (text sec)) in
          match rev merged with
          | lastSec :: front =>
              if (tokenCount <? 80)%nat then
                rev front ++
                [{| text := text lastSec ++ [LF] ++ text sec;
                    heading := heading lastSec |}]
              else merged ++ [sec]
          | [] => merged ++ [sec]
          end) secs merged)).
Proof.
  revert merged. induction secs as [|sec secs IH]; intros merged H; [exact H|].
  cbn [fold_left]. apply IH. cbv zeta. apply big_tail_step, H.
Qed.

(** Sectionizing keeps the words. *)
Lemma sectionize_keeps_words (sv : Services) (fullText : jsstring) :
  words_of (JS.join [LF] (List.map text (sectionizePdfText sv fullText)))
  = words_of fullText.
Proof.
  rewrite words_of_join_ws by apply LF_is_ws.
  rewrite flat_map_concat_map, List.map_map, <- flat_map_concat_map.
  change (flat_map (fun x => words_of (text x)) (sectionizePdfText sv fullText))
    with (section_words (sectionizePdfText sv fullText)).
  unfold sectionizePdfText. rewrite mergeTiny_words.
  rewrite sectionLines_words by exact I.
  cbn [section_words flat_map app].
  rewrite trimmed_lines_words. apply split_lines_words.
Qed.

End PdfTextFacts.

Module PdfTextExtras.
Import stdpp.base.
Import Ingest PdfSpec StringFacts WordFacts PdfTextFacts.

(** X7. Sectionizing loses no word. The text that a PDF worker hands to the
    chunker (the sections' texts joined by line breaks) holds exactly the
    words of the PDF's text, in their order, whatever lines are taken for
    headings and however sections are merged. So, for
    [0 <= overlap < maxTokens], the chunks of a PDF, taken without their
    overlaps, are the words of its text. *)
Theorem pdf_chunks_hold_the_words (cfg : Config) (sv : Services)
    (fullText : jsstring) :
  let joined := JS.join [LF] (List.map text (sectionizePdfText sv fullText)) in
  words_of joined = words_of fullText /\
  ((0 <= tokenOverlap cfg < tokenChunkMax cfg)%Z ->
   forall chunks, chunks_of cfg joined = Some chunks ->
   strip_overlaps (Z.to_nat (tokenOverlap cfg)) chunks = words_of fullText).
Proof.
  cbv zeta.
  assert (Hw : words_of (JS.join [LF] (List.map text (sectionizePdfText sv fullText)))
               = words_of fullText) by apply sectionize_keeps_words.
  split; [exact Hw|]. intros Hov chunks Hsome.
  apply LoopFacts.chunkByTokens_Some_returns in Hsome.
  set (joined := JS.join [LF] (List.map text (sectionizePdfText sv fullText))) in *.
  destruct (words_of joined) as [|w ws] eqn:E.
  - assert (H0 : Chunker.chunkByTokens_returns joined (tokenChunkMin cfg)
                   (tokenChunkMax cfg) (tokenOverlap cfg) [])
      by (exists 0%nat; unfold Chunker.chunkByTokens_fuel; now rewrite E).
    rewrite (LoopFacts.chunkByTokens_returns_unique _ _ _ _ _ _ Hsome H0).
    now rewrite <- Hw.
  - destruct (ChunkFacts.chunkByTokens_chunks_at joined (tokenChunkMin cfg)
                (tokenChunkMax cfg) (tokenOverlap cfg) Hov)
      as (out & Hout & Hat); [rewrite E; discriminate|].
    rewrite (LoopFacts.chunkByTokens_returns_unique _ _ _ _ _ _ Hsome Hout).
    rewrite <- Hw, <- E.
    apply (ChunkFacts.chunks_at_strip (words_of joined)
             (Z.to_nat (tokenChunkMax cfg)) (Z.to_nat (tokenOverlap cfg)) out);
      [apply StringFacts.words_of_words | lia | exact Hat].
Qed.

Lemma pdf_chunks_hold_the_words_witness :
  words_of (JS.join [LF]
              (List.map text
                 (sectionizePdfText IngestExample.services
                    (js "1 Intro" ++ [LF] ++ js "alpha  beta" ++ [LF; LF] ++ js "gamma"))))
  = words_of (js "1 Intro" ++ [LF] ++ js "alpha  beta" ++ [LF; LF] ++ js "gamma") /\
  ((0 <= tokenOverlap IngestExample.config
     < tokenChunkMax IngestExample.config)%Z ->
   forall chunks,
     chunks_of IngestExample.config
       (JS.join [LF]
          (List.map text
             (sectionizePdfText IngestExample.services
                (js "1 Intro" ++ [LF] ++ js "alpha  beta" ++ [LF; LF] ++ js "gamma"))))
     = Some chunks ->
     strip_overlaps (Z.to_nat (tokenOverlap IngestExample.config)) chunks
     = words_of (js "1 Intro" ++ [LF] ++ js "alpha  beta" ++ [LF; LF] ++ js "gamma")).
Proof.
  exact (pdf_chunks_hold_the_words IngestExample.config IngestExample.services
           (js "1 Intro" ++ [LF] ++ js "alpha  beta" ++ [LF; LF] ++ js "gamma")).
Defined.

(** X8. Only the first section may be tiny. Every section that
    [sectionizePdfText] returns after the first holds at least 80 words: a
    shorter one, heading included, was appended to the section before it. *)
Theorem later_sections_hold_80_words (sv : Services) (fullText : jsstring) :
  List.Forall (fun s => 80 <= length (words_of (text s)))
    (tl (sectionizePdfText sv fullText)).
Proof.
  unfold sectionizePdfText, mergeTiny. apply mergeTiny_fold_big. constructor.
Qed.

End PdfTextExtras.

(* ===================================================================== *)
(** ** The ingestion run: running again *)
(* ===================================================================== *)

Module RerunFacts.
Import stdpp.base stdpp.gmap.
Import SHA256 Ingest IngestSpec IngestFacts.

Lemma jsonChunks_seen (e : Entity) (parentId : jsstring) (chunks : list jsstring) :
  forall idx seen childDocs seen' childDocs',
  jsonChunks e parentId idx chunks seen childDocs = (seen', childDocs') ->
  seen ⊆ seen' /\ forall ch, In ch chunks -> sha256 ch ∈ seen'.
Proof.
  induction chunks as [|ch chunks IH]; intros idx seen childDocs seen' childDocs';
    cbn [jsonChunks].
  - intros H; injection H as <- <-. split; [reflexivity | intros ch []].
  - destruct (bool_decide (sha256 ch ∈ seen)) eqn:Hseen; intros H;
      destruct (IH _ _ _ _ _ H) as [Hsub Hin].
    + apply bool_decide_eq_true in Hseen. split; [exact Hsub|].
      intros c [<-|Hc]; [clear -Hsub Hseen; set_solver | auto].
    + split; [clear -Hsub; set_solver|].
      intros c [<-|Hc]; [clear -Hsub; set_solver | auto].
Qed.

(** Chunks whose keys are all in the set are all skipped. *)
Lemma jsonChunks_skip (e : Entity) (parentId : jsstring) (chunks : list jsstring) :
  forall idx seen childDocs,
  (forall ch, In ch chunks -> sha256 ch ∈ seen) ->
  jsonChunks e parentId idx chunks seen childDocs = (seen, childDocs).
Proof.
  induction chunks as [|ch chunks IH]; intros idx seen childDocs Hall;
    cbn [jsonChunks]; [reflexivity|].
  rewrite bool_decide_eq_true_2 by (apply Hall; now left).
  apply IH. intros c Hc. apply Hall. now right.
Qed.

Lemma fingerprints_filter_nil (f : VectorDoc -> bool) (docs : list VectorDoc) :
  fingerprints docs = [] -> fingerprints (List.filter f docs) = [].
Proof.
  induction docs as [|d docs IH]; [reflexivity|].
  unfold fingerprints in *. cbn [flat_map List.filter]. intros H.
  apply app_eq_nil in H. destruct H as [Hd Hdocs].
  destruct (f d); [cbn [flat_map]; rewrite Hd|]; auto.
Qed.

Lemma pdfChunks_seen (sv : Services)
    (fileHash url fileName pageCount parentId : jsstring)
    (paragraphs : list PdfSection) (chunks : list jsstring) :
  forall idx seen out seen' out',
  pdfChunks sv fileHash url fileName pageCount parentId paragraphs idx chunks seen out
  = (seen', out') ->
  seen ⊆ seen'.
Proof.
  induction chunks as [|ch chunks IH]; intros idx seen out seen' out';
    cbn [pdfChunks].
  - intros H; injection H as <- <-. reflexivity.
  - destruct (bool_decide _); [apply IH|].
    destruct (embedChunk sv _ ch _) as [d|].
    + intros H. apply IH in H. clear -H. set_solver.
    + intros H; injection H as <- <-. clear. set_solver.
Qed.

Section Run.
Variable cfg : Config.

(** What a second pass over the same entities does: given a dedup set that
    holds the keys of the first pass, it queues the same parent records and
    no chunk record, and leaves the set as it is. *)
Lemma jsonEntities_rerun (entities : list Entity) :
  forall seen parentDocs childDocs seen' parentDocs' childDocs',
  jsonEntities cfg entities seen parentDocs childDocs
  = Some (seen', parentDocs', childDocs') ->
  seen ⊆ seen' /\
  exists again,
    parentDocs' = parentDocs ++ again /\
    forall seen2 parentDocs0 childDocs0,
    seen' ⊆ seen2 ->
    jsonEntities cfg entities seen2 parentDocs0 childDocs0
    = Some (seen2, parentDocs0 ++ again, childDocs0).
Proof.
  induction entities as [|e entities IH];
    intros seen parentDocs childDocs seen' parentDocs' childDocs';
    cbn [jsonEntities].
  - intros H; injection H as <- <- <-. split; [reflexivity|].
    exists []. split; [now rewrite app_nil_r|].
    intros seen2 p0 c0 _. now rewrite app_nil_r.
  - destruct (nonempty (factParagraphs e)); [|apply IH].
    destruct (chunks_of cfg _) as [chunks|]; [|discriminate].
    destruct (jsonChunks e _ 0 chunks seen childDocs) as [seen1 child1] eqn:E.
    intros H. destruct (IH _ _ _ _ _ _ H) as (Hsub & again & Hp & Hre).
    destruct (jsonChunks_seen _ _ _ _ _ _ _ _ E) as [Hsub1 Hin1].
    split; [clear -Hsub Hsub1; set_solver|].
    eexists (_ :: again). split; [rewrite Hp, <- app_assoc; reflexivity|].
    intros seen2 p0 c0 Hs2.
    rewrite jsonChunks_skip
      by (intros ch Hch; specialize (Hin1 ch Hch); clear -Hin1 Hsub Hs2; set_solver).
    rewrite (Hre seen2 _ c0 Hs2), <- app_assoc. reflexivity.
Qed.

Variable sv : Services.

Lemma pdfWorker_seen (url : jsstring) (st st' : PdfState) :
  pdfWorker cfg sv url st = Some st' ->
  ps_seen st ⊆ ps_seen st' /\ ps_files st ⊆ ps_files st' /\
  forall buf, httpGet sv url = Some buf -> sha256_bytes buf ∈ ps_files st'.
Proof.
  unfold pdfWorker.
  destruct (httpGet sv url) as [buf|];
    [|intros H; injection H as <-; repeat split; [| |discriminate]; reflexivity].
  destruct (bool_decide (sha256_bytes buf ∈ ps_files st)) eqn:Hseen.
  { intros H; injection H as <-. apply bool_decide_eq_true in Hseen.
    repeat split; try reflexivity. intros b Hb; injection Hb as <-. exact Hseen. }
  assert (Hdone : forall seen,
            ps_seen st ⊆ seen ->
            ps_seen st ⊆ seen /\
            ps_files st ⊆ {[ sha256_bytes buf ]} ∪ ps_files st /\
            forall b, Some buf = Some b ->
                      sha256_bytes b ∈ {[ sha256_bytes buf ]} ∪ ps_files st).
  { intros seen Hs. split; [exact Hs|]. split; [clear; set_solver|].
    intros b Hb; injection Hb as <-. clear. set_solver. }
  destruct (pdfParse sv buf) as [[rawText pageCount]|];
    [|intros H; injection H as <-; now apply Hdone].
  destruct (nonempty (trim _)); [|intros H; injection H as <-; now apply Hdone].
  destruct (embedChunk sv _ _ _) as [parent|];
    [|intros H; injection H as <-; now apply Hdone].
  destruct (chunks_of cfg _) as [chunks|]; [|discriminate].
  destruct (pdfChunks sv _ _ _ _ _ _ 0 chunks _ _) as [seen1 out1] eqn:E.
  intros H; injection H as <-. cbn [ps_seen ps_files].
  apply Hdone. exact (pdfChunks_seen _ _ _ _ _ _ _ _ _ _ _ _ _ E).
Qed.

Lemma processPdfs_seen (urls : list jsstring) :
  forall st st',
  processPdfs cfg sv urls st = Some st' ->
  ps_seen st ⊆ ps_seen st' /\ ps_files st ⊆ ps_files st' /\
  forall url buf, In url urls -> httpGet sv url = Some buf ->
                  sha256_bytes buf ∈ ps_files st'.
Proof.
  induction urls as [|url urls IH]; intros st st'; cbn [processPdfs].
  - intros H; injection H as <-. repeat split; try reflexivity. intros ? ? [].
  - destruct (pdfWorker cfg sv url st) as [st1|] eqn:E; [|discriminate].
    intros H. destruct (IH _ _ H) as (Hs & Hf & Hin).
    destruct (pdfWorker_seen _ _ _ E) as (Hs1 & Hf1 & Hin1).
    split; [clear -Hs Hs1; set_solver|]. split; [clear -Hf Hf1; set_solver|].
    intros u buf [<-|Hu] Hbuf; [|eauto].
    specialize (Hin1 buf Hbuf). clear -Hin1 Hf. set_solver.
Qed.

(** PDFs whose files are all in the set of seen files are all skipped. *)
Lemma processPdfs_skip (urls : list jsstring) (st : PdfState) :
  (forall url buf, In url urls -> httpGet sv url = Some buf ->
                   sha256_bytes buf ∈ ps_files st) ->
  processPdfs cfg sv urls st = Some st.
Proof.
  induction urls as [|url urls IH]; intros Hall; cbn [processPdfs]; [reflexivity|].
  assert (E : pdfWorker cfg sv url st = Some st).
  { unfold pdfWorker. destruct (httpGet sv url) as [buf|] eqn:Hb; [|reflexivity].
    rewrite bool_decide_eq_true_2; [reflexivity|].
    apply (Hall url buf); [now left | exact Hb]. }
  rewrite E. apply IH. intros u buf Hu. apply Hall. now right.
Qed.

(** A run over entities and PDFs that a dedup state already covers stores
    no record that carries a fingerprint and leaves the state as it is. *)
Lemma covered_run (entities : list Entity) (urls : list jsstring)
    (seen seen1 : gset jsstring) (parentDocs childDocs : list Pending) (w : World) :
  jsonEntities cfg entities seen [] [] = Some (seen1, parentDocs, childDocs) ->
  seen1 ⊆ seenHashes w ->
  (forall url buf, In url urls -> httpGet sv url = Some buf ->
                   sha256_bytes buf ∈ seenPdfFileHashes w) ->
  exists added,
    store (snd (ingestFolder cfg sv entities urls w)) = store w ++ added /\
    fingerprints added = [] /\
    seenHashes (snd (ingestFolder cfg sv entities urls w)) = seenHashes w /\
    seenPdfFileHashes (snd (ingestFolder cfg sv entities urls w))
    = seenPdfFileHashes w.
Proof.
  intros Ejson Hsub Hfiles.
  destruct (jsonEntities_invariant cfg seen entities seen [] [] _ _ _
              (invariant_start seen) eq_refl Ejson) as [_ Hparent].
  destruct (jsonEntities_rerun _ _ _ _ _ _ _ Ejson) as (_ & again & Hp & Hre).
  cbn [app] in Hp. subst again.
  unfold ingestFolder. rewrite (Hre (seenHashes w) [] [] Hsub). cbn [app].
  assert (Hnone : exists added : list VectorDoc,
             store w = store w ++ added /\ fingerprints added = [] /\
             seenHashes w = seenHashes w /\
             seenPdfFileHashes w = seenPdfFileHashes w)
    by (exists []; now rewrite app_nil_r).
  destruct (await_all sv parentDocs) as [jsonParents|] eqn:Ep; [|exact Hnone].
  cbn [await_all].
  rewrite processPdfs_skip by exact Hfiles.
  cbn [ps_out ps_seen ps_files app]. rewrite app_nil_r.
  destruct (nonempty (List.filter _ jsonParents)); [|exact Hnone].
  destruct (addDocuments sv _); [|exact Hnone].
  cbn [snd store seenHashes seenPdfFileHashes].
  eexists. split; [reflexivity|]. split; [|split; reflexivity].
  apply fingerprints_filter_nil.
  now rewrite fingerprints_keys, (await_all_labels sv _ _ Ep).
Qed.

End Run.

End RerunFacts.

Module RerunExtras.
Import stdpp.base stdpp.gmap.
Import SHA256 Ingest IngestSpec IngestFacts RerunFacts IngestExample IngestExample2.



(** X10. A failed run loses its chunks. When a run over JSON-LD entities
    fails (an embedding request is rejected, or the insert into the vector
    store), nothing has been stored, but the keys of all chunks are in the
    seen-hash set: a later run of the same service instance over these
    entities, with whatever collaborators, stores no chunk record. *)
Theorem failed_run_loses_chunks (cfg : Config) (sv sv2 : Services)
    (entities : list Entity) (w : World) :
  fst (ingestFolder cfg sv entities [] w) = Failed ->
  let w1 := snd (ingestFolder cfg sv entities [] w) in
  store w1 = store w /\
  exists added,
    store (snd (ingestFolder cfg sv2 entities [] w1)) = store w1 ++ added /\
    fingerprints added = [].
Proof.
  intros Hfail. cbv zeta.
  assert (Hcov : store (snd (ingestFolder cfg sv entities [] w)) = store w /\
            exists seen1 parentDocs childDocs,
            jsonEntities cfg entities (seenHashes w) [] []
            = Some (seen1, parentDocs, childDocs) /\
            seen1 ⊆ seenHashes (snd (ingestFolder cfg sv entities [] w))).
  { revert Hfail. unfold ingestFolder.
    destruct (jsonEntities cfg entities (seenHashes w) [] [])
      as [[[seen1 parentDocs] childDocs]|]; [|discriminate].
    assert (Hok : forall (w' : World), store w' = store w ->
              seenHashes w' = seen1 ->
              store w' = store w /\
              exists s p c, Some (seen1, parentDocs, childDocs) = Some (s, p, c) /\
                            s ⊆ seenHashes w').
    { intros w' Hst Hs. split; [exact Hst|].
      exists seen1, parentDocs, childDocs. split; [reflexivity|].
      rewrite Hs. reflexivity. }
    destruct (await_all sv parentDocs); [|intros _; now apply Hok].
    destruct (await_all sv childDocs); [|intros _; now apply Hok].
    cbn [processPdfs ps_seen ps_files ps_out].
    destruct (nonempty _); [destruct (addDocuments sv _)|]; try discriminate.
    intros _. now apply Hok. }
  destruct Hcov as (Hstore & seen1 & parentDocs & childDocs & Ejson & Hsub).
  split; [exact Hstore|].
  destruct (covered_run cfg sv2 entities [] _ _ _ _ _ Ejson Hsub)
    as (added & H1 & H2 & _); [intros ? ? []|].
  exists added. split; assumption.
Qed.

Lemma failed_run_loses_chunks_witness :
  let w1 := snd (ingestFolder config rejectingServices [entity] [] emptyWorld) in
  store w1 = store emptyWorld /\
  exists added,
    store (snd (ingestFolder config services [entity] [] w1)) = store w1 ++ added /\
    fingerprints added = [].
Proof.
  apply (failed_run_loses_chunks config rejectingServices services [entity] emptyWorld).
  vm_compute. reflexivity.
Defined.

(** X11. No record is dropped for its dimension. A vector that the adapter
    returns has [targetDim] coordinates, so when the ingestion reads the
    same non-negative dimension ([embedDim]; both come from
    [RAG_EMBED_DIM]), every record that [embedChunk] resolves to passes the
    dimension test of [ingestFolder]. *)
Theorem embedded_records_pass_dimension_test (cfg : Config) (sv : Services)
    (name content : jsstring) (l : Labels) (d : VectorDoc) :
  targetDim sv = Embedding.PInt (embedDim cfg) -> (0 <= embedDim cfg)%Z ->
  embedChunk sv name content l = Some d ->
  (Z.of_nat (length (vector d)) =? embedDim cfg)%Z = true.
Proof.
  intros Hdim Hpos. unfold embedChunk.
  destruct (embeddings sv content) as [raw|]; [|discriminate].
  unfold Embedding.createEmbeddings_vectors.
  destruct raw as [|v raw]; [discriminate|]. cbn [Embedding.map_throwing].
  rewrite Hdim.
  destruct (Embedding.fit _ v) as [e|] eqn:Efit; [|discriminate].
  destruct (Embedding.map_throwing _ raw); [|discriminate].
  intros H; injection H as <-. cbn [vector].
  rewrite (EmbeddingClaims.fit_length _ _ _ Hpos Efit).
  apply Z.eqb_refl.
Qed.

Lemma embedded_records_pass_dimension_test_witness :
  (Z.of_nat (length [Fin 1; Fin 2; zero; zero]) =? embedDim config)%Z = true.
Proof.
  apply (embedded_records_pass_dimension_test config services (js "pump.json#0")
           (js "alpha beta") []
           {| name := js "pump.json#0"; contentType := js "text/plain";
              vector := [Fin 1; Fin 2; zero; zero]; labels := [] |});
    [reflexivity | vm_compute; discriminate | reflexivity].
Defined.

End RerunExtras.

Module PdfDedupExtras.
Import stdpp.base stdpp.gmap.
Import SHA256 Ingest IngestSpec IngestFacts RerunFacts IngestExample.

Lemma processPdfs_app (cfg : Config) (sv : Services) (a b : list jsstring) :
  forall st,
  processPdfs cfg sv (a ++ b) st
  = match processPdfs cfg sv a st with
    | Some st' => processPdfs cfg sv b st'
    | None => None
    end.
Proof.
  induction a as [|u a IH]; intros st; [reflexivity|].
  cbn [app processPdfs]. destruct (pdfWorker cfg sv u st); [apply IH | reflexivity].
Qed.

(** X12. One file under several urls. A url whose response has the same
    bytes as that of a url processed before it is skipped: the run goes on
    as if the url were not in the list. *)
Theorem same_file_is_processed_once (cfg : Config) (sv : Services)
    (before after : list jsstring) (url : jsstring) (st : PdfState) :
  (exists url' buf, In url' before /\ httpGet sv url' = Some buf /\
                    httpGet sv url = Some buf) ->
  processPdfs cfg sv (before ++ url :: after) st
  = processPdfs cfg sv (before ++ after) st.
Proof.
  intros (url' & buf & Hin & Hb' & Hb).
  rewrite !processPdfs_app.
  destruct (processPdfs cfg sv before st) as [st1|] eqn:E; [|reflexivity].
  destruct (processPdfs_seen cfg sv _ _ _ E) as (_ & _ & Hfiles).
  cbn [processPdfs].
  assert (Hw : pdfWorker cfg sv url st1 = Some st1).
  { unfold pdfWorker. rewrite Hb.
    rewrite bool_decide_eq_true_2; [reflexivity|]. exact (Hfiles url' buf Hin Hb'). }
  now rewrite Hw.
Qed.

Lemma same_file_is_processed_once_witness :
  processPdfs config services
    ([pdfUrl] ++ js "https://mirror.example/pump.pdf" :: [])
    {| ps_seen := ∅; ps_files := ∅; ps_out := [] |}
  = processPdfs config services ([pdfUrl] ++ [])
      {| ps_seen := ∅; ps_files := ∅; ps_out := [] |}.
Proof.
  apply (same_file_is_processed_once config services [pdfUrl] []
           (js "https://mirror.example/pump.pdf")).
  exists pdfUrl, pdfBytes. split; [now left | split; reflexivity].
Defined.

End PdfDedupExtras.

(* ===================================================================== *)
(** ** The JSON-LD helpers: paragraphs and PDF references *)
(* ===================================================================== *)

Module GroupingFacts.
Import JsonLd.

Lemma join_app (sep : jsstring) (a b : list jsstring) :
  a <> [] -> b <> [] -> join sep (a ++ b) = join sep a ++ sep ++ join sep b.
Proof.
  intros Ha Hb. induction a as [|x a IH]; [contradiction|].
  destruct a as [|y a].
  - destruct b as [|z b]; [contradiction | reflexivity].
  - change ((x :: y :: a) ++ b) with (x :: y :: (a ++ b)).
    rewrite !StringFacts.join_cons2.
    change (y :: a ++ b) with ((y :: a) ++ b).
    rewrite IH by discriminate. now rewrite <- !app_assoc.
Qed.

Lemma concat_nonempty {A} (G : list (list A)) :
  G <> [] -> Forall (fun g => g <> []) G -> concat G <> [].
Proof.
  intros HG H. destruct H as [|g G Hg _]; [contradiction|].
  cbn. destruct g; [contradiction | discriminate].
Qed.

(** Joining the joined groups is joining all their lines. *)
Lemma join_groups (sep : jsstring) (G : list (list jsstring)) :
  Forall (fun g => g <> []) G ->
  join sep (map (join sep) G) = join sep (concat G).
Proof.
  induction 1 as [|g G Hg HG IH]; [reflexivity|].
  destruct G as [|g2 G].
  - cbn. now rewrite app_nil_r.
  - cbn [map]. rewrite StringFacts.join_cons2. cbn [map] in IH. rewrite IH.
    cbn [concat]. rewrite (join_app sep g) by
      first [exact Hg
            | apply (concat_nonempty (g2 :: G)); [discriminate | exact HG]].
    reflexivity.
Qed.

Lemma join_lines_nonempty (sep : jsstring) (g : list jsstring) :
  g <> [] -> Forall (fun l => l <> []) g -> nonempty (join sep g) = true.
Proof.
  intros Hg H. destruct H as [|l g Hl _]; [contradiction|].
  destruct l as [|c l]; [contradiction|]. destruct g; reflexivity.
Qed.

Lemma flush_groups (G : list (list jsstring)) (buf : list jsstring) :
  Forall (fun g => g <> []) G ->
  exists G',
    flush (map (join [LF]) G) buf = (map (join [LF]) G', []) /\
    Forall (fun g => g <> []) G' /\
    concat G' = concat G ++ buf /\
    (forall g, In g G' <-> In g G \/ (g = buf /\ buf <> [])).
Proof.
  intros HG. unfold flush. destruct buf as [|l buf]; cbn [nonempty].
  - exists G. rewrite app_nil_r. repeat split; auto.
    intros [H|[_ H]]; [exact H | contradiction].
  - exists (G ++ [l :: buf]). rewrite map_app, concat_app. cbn [map concat].
    rewrite app_nil_r. split; [reflexivity|].
    split; [apply Forall_app; split; [exact HG | repeat constructor; discriminate]|].
    split; [reflexivity|].
    intros g. rewrite in_app_iff. cbn [In]. split.
    + intros [H|[H|[]]]; [now left | right; split; [now symmetry | discriminate]].
    + intros [H|[H _]]; [now left | right; left; now symmetry].
Qed.

(** The loop keeps the lines in groups: every paragraph is the join of a
    non-empty group, the groups and the buffer hold the lines read so far
    in order, and a line that looks like a section key is a group of its
    own. *)
Lemma groupLoop_groups (lines : list jsstring) :
  forall (G : list (list jsstring)) (buf : list jsstring),
  Forall (fun g => g <> []) G ->
  exists G' buf',
    groupLoop lines (map (join [LF]) G) buf = (map (join [LF]) G', buf') /\
    Forall (fun g => g <> []) G' /\
    concat G' ++ buf' = concat G ++ buf ++ lines /\
    (forall g, In g G -> In g G') /\
    (forall line, In line lines -> looksLikeSectionKey line = true ->
                  In [line] G').
Proof.
  induction lines as [|line lines IH]; intros G buf HG.
  - exists G, buf. rewrite app_nil_r. repeat split; auto. intros ? [].
  - cbn [groupLoop]. destruct (looksLikeSectionKey line) eqn:Hkey.
    + destruct (flush_groups G buf HG) as (G1 & -> & HG1 & E1 & In1).
      cbn [app].
      destruct (flush_groups G1 [line] HG1) as (G2 & -> & HG2 & E2 & In2).
      destruct (IH G2 [] HG2) as (G' & buf' & -> & HG' & E' & Hm & Hk).
      exists G', buf'. split; [reflexivity|]. split; [exact HG'|].
      split; [rewrite E', E2, E1; cbn [app]; now rewrite <- !app_assoc|].
      split.
      * intros g Hg. apply Hm, In2. left. apply In1. now left.
      * intros l [<-|Hl] Hl'; [|auto].
        apply Hm, In2. right. split; [reflexivity | discriminate].
    + destruct (IH G (buf ++ [line]) HG) as (G' & buf' & -> & HG' & E' & Hm & Hk).
      exists G', buf'. split; [reflexivity|]. split; [exact HG'|].
      split; [rewrite E'; now rewrite <- !app_assoc|].
      split; [exact Hm|].
      intros l [<-|Hl] Hl'; [congruence | auto].
Qed.

End GroupingFacts.

Module GroupingExtras.
Import JsonLd GroupingFacts.

(** X13. Grouping changes no text. For lines none of which is empty (the
    lines that [jsonLdToParagraphsWithMeta] builds have the form
    [key: value]), joining the paragraphs with line breaks gives the lines
    joined with line breaks: the text that [ingestFolder] embeds and chunks
    does not depend on how the lines are grouped. A line that looks like a
    section key is a paragraph of its own. *)
Theorem grouping_keeps_text (lines : list jsstring) :
  Forall (fun l => l <> []) lines ->
  join [LF] (groupLinesIntoParagraphs lines) = join [LF] lines /\
  (forall line, In line lines -> looksLikeSectionKey line = true ->
                In line (groupLinesIntoParagraphs lines)).
Proof.
  intros Hne. unfold groupLinesIntoParagraphs.
  destruct (groupLoop_groups lines [] [] (Forall_nil _))
    as (G1 & buf1 & E & HG1 & Ec & _ & Hk).
  cbn [map] in E. rewrite E.
  destruct (flush_groups G1 buf1 HG1) as (G2 & -> & HG2 & E2 & In2).
  cbn [fst concat app] in *. rewrite <- E2 in Ec.
  assert (Hkeep : filter nonempty (map (join [LF]) G2) = map (join [LF]) G2).
  { apply forallb_filter_id, forallb_forall. intros p Hp.
    apply in_map_iff in Hp. destruct Hp as (g & <- & Hg).
    apply join_lines_nonempty; [rewrite Forall_forall in HG2; auto|].
    apply Forall_forall. intros l Hl. rewrite Forall_forall in Hne.
    apply Hne. rewrite <- Ec. apply in_concat. eauto. }
  rewrite Hkeep. split.
  - rewrite join_groups by exact HG2. now rewrite Ec.
  - intros line Hl Hkey. apply in_map_iff. exists [line].
    split; [reflexivity|]. apply In2. left. auto.
Qed.

Lemma grouping_keeps_text_witness :
  join [LF] (groupLinesIntoParagraphs
               [js "id: urn:x"; js "Name: pump"; js "a: 1"; js "b: 2"])
  = join [LF] [js "id: urn:x"; js "Name: pump"; js "a: 1"; js "b: 2"] /\
  (forall line,
     In line [js "id: urn:x"; js "Name: pump"; js "a: 1"; js "b: 2"] ->
     looksLikeSectionKey line = true ->
     In line (groupLinesIntoParagraphs
                [js "id: urn:x"; js "Name: pump"; js "a: 1"; js "b: 2"])).
Proof.
  apply (grouping_keeps_text [js "id: urn:x"; js "Name: pump"; js "a: 1"; js "b: 2"]).
  repeat constructor; discriminate.
Defined.

End GroupingExtras.

Module CollectFacts.
Import JsonLd JsonLdSpec.

(** Induction on values, with the hypothesis for the elements of an array
    and the properties of an object. *)
Lemma JSValue_nested_ind (P : JSValue -> Prop) :
  P JUndefined -> P JNull -> (forall b, P (JBool b)) -> (forall n, P (JNum n)) ->
  (forall s, P (JStr s)) ->
  (forall items, Forall P items -> P (JArr items)) ->
  (forall fields, Forall (fun kx => P (snd kx)) fields -> P (JObj fields)) ->
  forall v, P v.
Proof.
  intros Hu Hn Hb Hnum Hs Ha Ho. fix IH 1. intros [| |b|n|s|items|fields].
  - exact Hu.
  - exact Hn.
  - apply Hb.
  - apply Hnum.
  - apply Hs.
  - apply Ha. induction items as [|x items IHi]; constructor; [apply IH | exact IHi].
  - apply Ho. induction fields as [|[k x] fields IHf]; constructor;
      [apply IH | exact IHf].
Qed.

Lemma str_eqb_eq (a b : jsstring) : str_eqb a b = true <-> a = b.
Proof.
  unfold str_eqb. destruct (list_eq_dec N.eq_dec a b); split; auto; discriminate.
Qed.

Lemma str_eqb_neq (a b : jsstring) : str_eqb a b = false <-> a <> b.
Proof.
  unfold str_eqb. destruct (list_eq_dec N.eq_dec a b); split; auto;
    try discriminate; contradiction.
Qed.

Lemma set_add_In (x u : jsstring) (set : list jsstring) :
  In u (set_add x set) <-> In u set \/ u = x.
Proof.
  unfold set_add. destruct (existsb (str_eqb x) set) eqn:E.
  - split; [now left|]. intros [H| ->]; [exact H|].
    apply existsb_exists in E. destruct E as (y & Hy & Hxy).
    apply str_eqb_eq in Hxy. now subst.
  - rewrite in_app_iff. cbn [In]. split.
    + intros [H|[H|[]]]; [now left | right; now symmetry].
    + intros [H|H]; [now left | right; left; now symmetry].
Qed.

Lemma set_add_NoDup (x : jsstring) (set : list jsstring) :
  NoDup set -> NoDup (set_add x set).
Proof.
  intros H. unfold set_add. destruct (existsb (str_eqb x) set) eqn:E; [exact H|].
  apply NoDup_app; [exact H | repeat constructor; intros [] |].
  intros a Ha [Heq|[]]. subst a.
  assert (Ht : existsb (str_eqb x) set = true)
    by (apply existsb_exists; exists x; split; [exact Ha | now apply str_eqb_eq]).
  congruence.
Qed.

Lemma assoc_In (k : jsstring) (fields : list (jsstring * JSValue)) (x : JSValue) :
  assoc k fields = Some x -> In (k, x) fields.
Proof.
  induction fields as [|[k' y] fields IH]; [discriminate|].
  cbn [assoc]. destruct (str_eqb k k') eqn:E.
  - apply str_eqb_eq in E. subst. intros H; injection H as <-. now left.
  - intros H. right. auto.
Qed.

(** What [walk] does with the [value] of a property object. *)
Lemma walk_value (fields : list (jsstring * JSValue)) (set : list jsstring) :
  (fix value (fs : list (jsstring * JSValue)) : list jsstring :=
     match fs with
     | [] => set
     | (k, x) :: fs' =>
         if str_eqb (js "value") k then
           if nullish x then set else walk x set
         else value fs'
     end) fields
  = match assoc (js "value") fields with
    | Some x => if nullish x then set else walk x set
    | None => set
    end.
Proof.
  induction fields as [|[k x] fields IH]; [reflexivity|].
  cbn [assoc]. destruct (str_eqb (js "value") k); [reflexivity | exact IH].
Qed.

Lemma walk_obj (fields : list (jsstring * JSValue)) (set : list jsstring) :
  walk (JObj fields) set
  = fold_left
      (fun acc kx =>
         let '(k, x) := kx in
         if str_eqb k (js "value") then acc else walk x acc)
      fields
      match assoc (js "type") fields with
      | Some (JStr ty) =>
          if str_eqb ty (js "Property") then
            match assoc (js "value") fields with
            | Some x => if nullish x then set else walk x set
            | None => set
            end
          else set
      | _ => set
      end.
Proof.
  cbn [walk]. rewrite walk_value. reflexivity.
Qed.

Lemma followed_not_nullish (u : jsstring) (x : JSValue) :
  followed u x -> nullish x = false.
Proof. intros H. destruct H; reflexivity. Qed.

Lemma followed_arr (u : jsstring) (items : list JSValue) :
  followed u (JArr items) <-> exists x, In x items /\ followed u x.
Proof.
  split.
  - intros H. inversion H; subst. eauto.
  - intros (x & Hx & Hf). eapply followed_item; eauto.
Qed.

Lemma followed_obj (u : jsstring) (fields : list (jsstring * JSValue)) :
  followed u (JObj fields) <->
  (exists k x, In (k, x) fields /\ k <> js "value" /\ followed u x) \/
  (exists x, assoc (js "type") fields = Some (JStr (js "Property")) /\
             assoc (js "value") fields = Some x /\ followed u x).
Proof.
  split.
  - intros H. inversion H; subst; [left | right]; eauto.
  - intros [(k & x & Hin & Hk & Hf)|(x & Ht & Hv & Hf)].
    + eapply followed_field; eauto.
    + eapply followed_value; eauto.
Qed.

(** The set after [walk]: what was in it, and the PDF references found on
    the paths that are followed; no entry is added twice. *)
Lemma walk_correct (v : JSValue) :
  forall set,
    (NoDup set -> NoDup (walk v set)) /\
    forall u, In u (walk v set) <->
              In u set \/ (followed u v /\ is_pdf_ref u = true).
Proof.
  induction v as [| |b|n|s|items IH|fields IH] using JSValue_nested_ind;
    intros set.
  1-4: (split; [auto|]; intros u; cbn [walk]; split; [now left|];
        intros [H|[H _]]; [exact H | inversion H]).
  - cbn [walk]. destruct (is_pdf_ref s) eqn:Hs.
    + split; [apply set_add_NoDup|]. intros u. rewrite set_add_In. split.
      * intros [H| ->]; [now left | right; split; [constructor | exact Hs]].
      * intros [H|[H _]]; [now left | right; now inversion H].
    + split; [auto|]. intros u. split; [now left|].
      intros [H|[H Hu]]; [exact H|]. inversion H; subst. congruence.
  - cbn [walk].
    assert (Hfold : forall set,
              (NoDup set -> NoDup (fold_left (fun acc x => walk x acc) items set)) /\
              forall u, In u (fold_left (fun acc x => walk x acc) items set) <->
                In u set \/
                ((exists x, In x items /\ followed u x) /\ is_pdf_ref u = true)).
    { induction IH as [|x items Hx _ IHi]; intros set0.
      - cbn [fold_left]. split; [auto|]. intros u. split; [now left|].
        intros [H|[(x & [] & _) _]]. exact H.
      - cbn [fold_left]. destruct (Hx set0) as [Hnd Hin].
        destruct (IHi (walk x set0)) as [Hnd' Hin'].
        split; [auto|]. intros u. rewrite Hin', Hin. cbn [In]. split.
        + intros [[H|[H Hp]]|[(y & Hy & Hf) Hp]]; [now left | right..];
            (split; [|exact Hp]); eauto.
        + intros [H|[(y & [<-|Hy] & Hf) Hp]]; [now left; left | left; right |right];
            (split; [|exact Hp]); eauto. }
    destruct (Hfold set) as [Hnd Hin]. split; [exact Hnd|].
    intros u. rewrite Hin, followed_arr. reflexivity.
  - rewrite walk_obj.
    set (set1 := match assoc (js "type") fields with
                 | Some (JStr ty) =>
                     if str_eqb ty (js "Property") then
                       match assoc (js "value") fields with
                       | Some x => if nullish x then set else walk x set
                       | None => set
                       end
                     else set
                 | _ => set
                 end).
    assert (H1 : (NoDup set -> NoDup set1) /\
              forall u, In u set1 <->
                In u set \/
                ((exists x, assoc (js "type") fields = Some (JStr (js "Property")) /\
                            assoc (js "value") fields = Some x /\ followed u x)
                 /\ is_pdf_ref u = true)).
    { subst set1.
      destruct (assoc (js "type") fields) as [[| | | |ty| |]|] eqn:Ety;
        try (split; [auto|]; intros u; split; [now left|];
             intros [H|[(x & Ht & _) _]]; [exact H | discriminate]).
      destruct (str_eqb ty (js "Property")) eqn:Eprop.
      2:{ split; [auto|]. intros u. split; [now left|].
          intros [H|[(x & Ht & _) _]]; [exact H|].
          injection Ht as ->. now rewrite (proj2 (str_eqb_eq _ _) eq_refl) in Eprop. }
      apply str_eqb_eq in Eprop. subst ty.
      destruct (assoc (js "value") fields) as [x|] eqn:Ev.
      2:{ split; [auto|]. intros u. split; [now left|].
          intros [H|[(x & _ & Hv & _) _]]; [exact H | discriminate]. }
      destruct (nullish x) eqn:Enull.
      { split; [auto|]. intros u. split; [now left|].
        intros [H|[(y & _ & Hv & Hf) _]]; [exact H|]. injection Hv as <-.
        apply followed_not_nullish in Hf. congruence. }
      rewrite Forall_forall in IH.
      destruct (IH (js "value", x) (assoc_In _ _ _ Ev) set) as [Hnd Hin].
      cbn [snd] in *. split; [exact Hnd|]. intros u. rewrite Hin. split.
      - intros [H|[Hf Hp]]; [now left | right; split; [eauto | exact Hp]].
      - intros [H|[(y & _ & Hv & Hf) Hp]]; [now left|]. injection Hv as <-.
        right. split; assumption. }
    assert (Hfold : forall fs, Forall (fun kx => forall set,
                (NoDup set -> NoDup (walk (snd kx) set)) /\
                forall u, In u (walk (snd kx) set) <->
                  In u set \/ (followed u (snd kx) /\ is_pdf_ref u = true)) fs ->
              forall acc,
              (NoDup acc ->
               NoDup (fold_left
                        (fun acc kx =>
                           let '(k, x) := kx in
                           if str_eqb k (js "value") then acc else walk x acc)
                        fs acc)) /\
              forall u,
                In u (fold_left
                        (fun acc kx =>
                           let '(k, x) := kx in
                           if str_eqb k (js "value") then acc else walk x acc)
                        fs acc) <->
                In u acc \/
                ((exists k x, In (k, x) fs /\ k <> js "value" /\ followed u x)
                 /\ is_pdf_ref u = true)).
    { clear. intros fs Hfs.
      induction Hfs as [|[k x] fs Hx _ IHf]; intros acc.
      - cbn [fold_left]. split; [auto|]. intros u. split; [now left|].
        intros [H|[(k & x & [] & _) _]]. exact H.
      - cbn [fold_left]. cbn [snd] in Hx.
        destruct (str_eqb k (js "value")) eqn:Ek.
        + apply str_eqb_eq in Ek. subst k.
          destruct (IHf acc) as [Hnd Hin]. split; [exact Hnd|].
          intros u. rewrite Hin. cbn [In]. split.
          * intros [H|[(k & y & Hy & Hk & Hf) Hp]]; [now left|].
            right. split; [|exact Hp]. exists k, y. auto.
          * intros [H|[(k & y & [Hy|Hy] & Hk & Hf) Hp]]; [now left | |].
            -- injection Hy as <- <-. contradiction.
            -- right. split; [|exact Hp]. exists k, y. auto.
        + apply str_eqb_neq in Ek.
          destruct (Hx acc) as [Hnd Hin].
          destruct (IHf (walk x acc)) as [Hnd' Hin'].
          split; [auto|]. intros u. rewrite Hin', Hin. cbn [In]. split.
          * intros [[H|[Hf Hp]]|[(k' & y & Hy & Hk & Hf) Hp]]; [now left | |].
            -- right. split; [|exact Hp]. exists k, x. auto.
            -- right. split; [|exact Hp]. exists k', y. auto.
          * intros [H|[(k' & y & [Hy|Hy] & Hk & Hf) Hp]]; [now left; left | |].
            -- injection Hy as <- <-. left. right. split; assumption.
            -- right. split; [|exact Hp]. exists k', y. auto. }
    destruct (Hfold fields IH set1) as [Hnd Hin]. destruct H1 as [Hnd1 Hin1].
    split; [auto|]. intros u. rewrite Hin, Hin1, followed_obj. tauto.
Qed.

End CollectFacts.

Module CollectExtras.
Import JsonLd JsonLdSpec CollectFacts.

(** X14. What [collectPdfUrls] collects. Started with a set of distinct
    entries, it ends with one; the entries it ends with are those it started
    with and the strings of the document that hold [.pdf] (in any case)
    before a [?], a [#] or their end, and that are found by going through
    array elements, through properties not named [value], and through the
    [value] of objects whose [type] is ['Property']. So a reference under
    the [value] of any other object is not collected. *)
Theorem collected_pdf_urls (obj : JSValue) (set : list jsstring) :
  NoDup set ->
  NoDup (collectPdfUrls obj set) /\
  forall u, In u (collectPdfUrls obj set) <->
            In u set \/ (followed u obj /\ is_pdf_ref u = true).
Proof.
  intros Hnd. destruct (walk_correct obj set) as [H1 H2].
  split; [apply H1, Hnd | exact H2].
Qed.

Lemma collected_pdf_urls_witness :
  NoDup (collectPdfUrls
           (JObj [(js "type", JStr (js "Property"));
                  (js "value", JStr (js "a.pdf"));
                  (js "docs", JArr [JStr (js "b.pdf"); JStr (js "a.pdf");
                                    JObj [(js "value", JStr (js "c.pdf"))]])])
           []) /\
  forall u,
    In u (collectPdfUrls
            (JObj [(js "type", JStr (js "Property"));
                   (js "value", JStr (js "a.pdf"));
                   (js "docs", JArr [JStr (js "b.pdf"); JStr (js "a.pdf");
                                     JObj [(js "value", JStr (js "c.pdf"))]])])
            []) <->
    In u [] \/
    (followed u
       (JObj [(js "type", JStr (js "Property"));
              (js "value", JStr (js "a.pdf"));
              (js "docs", JArr [JStr (js "b.pdf"); JStr (js "a.pdf");
                                JObj [(js "value", JStr (js "c.pdf"))]])]) /\
     is_pdf_ref u = true).
Proof.
  apply (collected_pdf_urls
           (JObj [(js "type", JStr (js "Property"));
                  (js "value", JStr (js "a.pdf"));
                  (js "docs", JArr [JStr (js "b.pdf"); JStr (js "a.pdf");
                                    JObj [(js "value", JStr (js "c.pdf"))]])])
           []).
  constructor.
Defined.

End CollectExtras.

(* ===================================================================== *)
(** ** The query service: failures and the paths of a request *)
(* ===================================================================== *)

Module QueryMoreFacts.
Import Query QuerySpec SegFacts QueryFacts.

Section Service.
Variable bi : Builtins.
Variable sv : Services.

(** The time-series fetch never throws when the pool exists: a failing
    query leaves the series empty. *)
Lemma fetchSeries_with_pool (urn : jsstring) (metric from to : JSValue)
    (log : list Event) :
  pgPool sv = true ->
  fetchSeriesFromPostgres sv urn metric from to log
  = (Ok {| series := match pgSeries sv urn metric from to with
                     | Some pts => pts
                     | None => []
                     end;
           assetUrn := urn; metric := metric |},
     log ++ [PgQuery urn metric from to]).
Proof.
  intros Hpool. unfold fetchSeriesFromPostgres. rewrite Hpool.
  unfold bind, try_catch, request, ret.
  destruct (pgSeries sv urn metric from to); reflexivity.
Qed.

(** Without a pool [maybeGetChartData] yields no chart. *)
Lemma maybeGetChartData_no_pool (msgs : list ChatMsg) (log log' : list Event)
    (c : ChartResult) :
  pgPool sv = false ->
  maybeGetChartData bi sv msgs log <> (Ok (Some c), log').
Proof.
  intros Hpool. unfold maybeGetChartData.
  destruct (lastUserOf msgs) as [lastUser|]; [|discriminate].
  unfold bind at 1.
  destruct (detectChartIntentWithLLM bi sv (content lastUser) log)
    as [[nlu|e] l1]; [|discriminate].
  unfold bind, lift, ret.
  destruct (get nlu (js "wants_chart")) as [w|e]; [|discriminate].
  destruct (negb (truthy w)); [discriminate|].
  destruct (get nlu (js "asset_urn")) as [u|e]; [|discriminate].
  destruct (negb (truthy u)); [discriminate|].
  destruct (get nlu (js "from")) as [f|e]; [|discriminate].
  destruct (get nlu (js "to")) as [t|e]; [|discriminate].
  destruct (get nlu (js "metric")) as [m|e]; [|discriminate].
  rewrite Hpool. cbn [andb].
  destruct u; discriminate.
Qed.

(** [getChartSummaryIfAny] never throws, and what it returns is a chart
    reply or nothing. *)
Lemma getChartSummaryIfAny_outcome (msgs : list ChatMsg) (log : list Event) :
  exists log',
    getChartSummaryIfAny bi sv msgs log = (Ok None, log') \/
    exists c l0,
      maybeGetChartData bi sv msgs log = (Ok (Some c), l0) /\
      getChartSummaryIfAny bi sv msgs log
      = (Ok (Some (ChartReply
                     (chartReplyHeader ++ fst (fst (formatChartSummary bi c))) c
                     (snd (fst (formatChartSummary bi c)))
                     (snd (formatChartSummary bi c)))), log').
Proof.
  unfold getChartSummaryIfAny, bind, try_catch.
  destruct (maybeGetChartData bi sv msgs log) as [[[c|]|e] l1]; unfold ret.
  - exists l1. right. exists c, l1. split; [reflexivity|].
    change (array_truthy (series c)) with true. cbv iota.
    destruct (formatChartSummary bi c) as [[summary f10] l10]. reflexivity.
  - exists l1. now left.
  - exists l1. now left.
Qed.

(** [fetchAlertData] never throws and its [alerts] are truthy: the list
    of the response, or the empty array. *)
Lemma fetchAlertData_outcome (urn : jsstring) (log : list Event) :
  exists a,
    fetchAlertData sv urn log
    = (Ok {| alerts := a; alertUrn := urn |}, log ++ [AlertaGet urn]) /\
    truthy a = true /\
    (alerta sv urn = None -> a = JArr []).
Proof.
  unfold fetchAlertData, bind, try_catch, request, lift, ret.
  destruct (alerta sv urn) as [data|].
  - destruct (get data (js "alerts")) as [a|e].
    + destruct (truthy a) eqn:Ha.
      * exists a. split; [reflexivity|]. split; [exact Ha | discriminate].
      * exists (JArr []). split; [reflexivity|]. split; [reflexivity | discriminate].
    + exists (JArr []). split; [reflexivity|]. split; [reflexivity | discriminate].
  - exists (JArr []). split; [reflexivity|]. split; reflexivity.
Qed.

Lemma maybeGetAlertData_truthy (msgs : list ChatMsg) (log log' : list Event)
    (a : AlertResult) :
  maybeGetAlertData bi sv msgs log = (Ok (Some a), log') ->
  truthy (alerts a) = true.
Proof.
  unfold maybeGetAlertData.
  destruct (lastUserOf msgs) as [lastUser|]; [|discriminate].
  unfold bind at 1.
  destruct (detectAlertIntentWithLLM bi sv (content lastUser) log)
    as [[nlu|e] l1]; [|discriminate].
  unfold bind at 1. unfold lift at 1.
  destruct (get nlu (js "wants_alert")) as [w|e]; [|discriminate].
  destruct (negb (truthy w)); [discriminate|].
  unfold bind at 1. unfold lift at 1.
  destruct (get nlu (js "asset_urn")) as [u|e]; [|discriminate].
  destruct (negb (truthy u)); [discriminate|].
  destruct u; try discriminate.
  unfold bind.
  destruct (fetchAlertData_outcome s l1) as (x & -> & Hx & _).
  unfold ret. intros H; injection H as <- _. exact Hx.
Qed.

(** [getAlertsDataIfAny] never throws, and what it returns is the alerts
    reply or nothing. *)
Lemma getAlertsDataIfAny_outcome (msgs : list ChatMsg) (log : list Event) :
  exists log',
    getAlertsDataIfAny bi sv msgs log = (Ok None, log') \/
    exists a,
      maybeGetAlertData bi sv msgs log = (Ok (Some a), log') /\
      getAlertsDataIfAny bi sv msgs log
      = (Ok (Some (AlertsReply
                     (js "Here" ++ [APOS] ++ js "s the live alerts:" ++ [LF; LF])
                     (alerts a))), log').
Proof.
  unfold getAlertsDataIfAny, bind, try_catch.
  destruct (maybeGetAlertData bi sv msgs log) as [[[a|]|e] l1] eqn:E; unfold ret.
  - exists l1. right. exists a. split; [reflexivity|].
    now rewrite (maybeGetAlertData_truthy _ _ _ _ E).
  - exists l1. now left.
  - exists l1. now left.
Qed.

(** The retrieval step fails with the failure of one of its two requests,
    with a [TypeError] when the embedding response holds no vector, or with
    the [RangeError] of [fit]. *)
Lemma milvusSearch_throws (msgs : list ChatMsg) (log log' : list Event) (e : Exn) :
  milvusSearch bi sv msgs log = (Throw e, log') ->
  e = RequestFailed \/ e = TypeError \/ e = RangeError.
Proof.
  unfold milvusSearch, bind, request, throw, ret.
  destruct (embeddings sv _) as [raw|]; [|intros H; injection H as <- _; now left].
  destruct (Embedding.createEmbeddings_vectors _ raw) as [[|q qs]|];
    [intros H; injection H as <- _; right; now left
    | | intros H; injection H as <- _; right; now right].
  destruct (milvus sv _ q); [discriminate|].
  intros H; injection H as <- _. now left.
Qed.

(** A positive intent with a window makes [maybeGetChartData] send the
    time-series query; the series is what the query returns, or empty when
    the query fails. *)
Lemma maybeGetChartData_fetches (msgs : list ChatMsg) (lastUser : ChatMsg)
    (r nlu : JSValue) (urn : jsstring) (metric from to : JSValue) :
  lastUserOf msgs = Some lastUser ->
  completion sv (intentParams (chartIntentPrompt (content lastUser))) = Some r ->
  JSON_parse bi (intent_text bi r) = Some nlu ->
  positive_chart_intent nlu urn metric from to ->
  pgPool sv = true ->
  maybeGetChartData bi sv msgs []
  = (Ok (Some {| series := match pgSeries sv urn metric from to with
                           | Some pts => pts
                           | None => []
                           end;
                 assetUrn := urn; metric := metric |}),
     [ChatCompletion (intentParams (chartIntentPrompt (content lastUser)));
      PgQuery urn metric from to]).
Proof.
  intros Hlast Hr Hp (Hnn & Hw & Hurn & Hne & Hf & Hft & Ht & Htt & Hm) Hpool.
  unfold maybeGetChartData. rewrite Hlast. unfold bind at 1.
  rewrite (detect_chart_parsed bi sv _ r nlu [] Hr Hp).
  unfold bind, lift. rewrite !get_non_nullish by exact Hnn.
  rewrite Hw. cbn [negb]. rewrite Hurn. cbn [truthy].
  rewrite (nonempty_true urn Hne). cbn [negb].
  rewrite <- Hf, <- Ht, <- Hm. rewrite Hft, Htt. cbv iota.
  rewrite Hft, Htt, Hpool. cbn [andb].
  rewrite fetchSeries_with_pool by exact Hpool. reflexivity.
Qed.

Lemma detect_alert_parsed (text : jsstring) (r nlu : JSValue) (log : list Event) :
  completion sv (intentParams (alertIntentPrompt text)) = Some r ->
  JSON_parse bi (intent_text bi r) = Some nlu ->
  detectAlertIntentWithLLM bi sv text log
  = (Ok nlu, log ++ [ChatCompletion (intentParams (alertIntentPrompt text))]).
Proof.
  intros Hr Hp.
  unfold detectAlertIntentWithLLM, bind, chatCompletion, request.
  rewrite Hr, Hp. reflexivity.
Qed.

End Service.

(** A conversation without a user turn asks nothing. *)
Lemma no_user_no_question (msgs : list ChatMsg) (q : jsstring) :
  Forall (fun m => str_eqb (role m) (js "user") = false) msgs ->
  fold_left (fun q m => if str_eqb (role m) (js "user")
                        then q ++ content m ++ js " " else q) msgs q = q.
Proof.
  intros H. revert q. induction H as [|m msgs Hm _ IH]; intros q; [reflexivity|].
  cbn [fold_left]. rewrite Hm. apply IH.
Qed.

Lemma lastUserOf_none (msgs : list ChatMsg) :
  lastUserOf msgs = None ->
  Forall (fun m => str_eqb (role m) (js "user") = false) msgs.
Proof.
  intros H. apply Forall_forall. intros m Hm.
  apply (find_none _ _ H). now apply in_rev in Hm.
Qed.

End QueryMoreFacts.

Module QueryExtras.
Import Query QuerySpec SegFacts QueryFacts QueryMoreFacts Examples Examples2.

(** X15. How [handleQuery] fails. It rejects an empty conversation with
    [BadRequestException], before any request is sent. Otherwise a failure
    is either [InternalServerErrorException('Failed to call LLM')], for
    whatever goes wrong in the answering call, or the failure of the
    retrieval step as it is, which is not wrapped: a rejected embedding or
    search request, a [TypeError] for an embedding response without vector,
    or the [RangeError] of the embedding adapter, whose [fit] cannot pad a
    vector to a dimension that is [NaN] or no array length. Failures of the
    two classifications, of the time-series query and of the alert service
    never surface. *)
Theorem handleQuery_failures (bi : Builtins) (sv : Services)
    (msgs : list ChatMsg) (ids : list jsstring) (log log' : list Event) (e : Exn) :
  handleQuery bi sv msgs ids log = (Throw e, log') ->
  (msgs = [] /\ e = BadRequestException (js "messages[] is required") /\
   log' = log) \/
  (msgs <> [] /\ e = InternalServerErrorException (js "Failed to call LLM")) \/
  (msgs <> [] /\ (e = RequestFailed \/ e = TypeError \/ e = RangeError) /\
   exists l, milvusSearch bi sv msgs l = (Throw e, log')).
Proof.
  unfold handleQuery. destruct msgs as [|m0 msgs'].
  { cbn. unfold throw. intros H; injection H as <- <-. left. auto. }
  cbn [length Nat.eqb]. intros H. right.
  assert (Hne : m0 :: msgs' <> []) by discriminate.
  revert H. unfold bind at 1.
  destruct (getChartSummaryIfAny_outcome bi sv (m0 :: msgs') log)
    as [l1 [-> | (c & l0 & _ & ->)]]; [|discriminate].
  unfold bind at 1.
  destruct (getAlertsDataIfAny_outcome bi sv (m0 :: msgs') l1)
    as [l2 [-> | (a & _ & ->)]]; [|discriminate].
  unfold bind at 1.
  destruct (milvusSearch bi sv (m0 :: msgs') l2) as [[found|e0] l3] eqn:Em.
  - unfold try_catch, bind, chatCompletion, request, lift, ret, throw.
    destruct (completion sv _).
    + destruct (replyOf _); [discriminate|].
      intros H; injection H as <- _. left. auto.
    + intros H; injection H as <- _. left. auto.
  - intros H; injection H as <- <-. right.
    split; [exact Hne|]. split; [exact (milvusSearch_throws _ _ _ _ _ _ Em)|].
    eauto.
Qed.

Lemma handleQuery_failures_witness :
  (askChart = [] /\
   InternalServerErrorException (js "Failed to call LLM")
   = BadRequestException (js "messages[] is required") /\
   [ChatCompletion (intentParams (chartIntentPrompt
      (js "show me the temperature trend for urn:iff:asset:42")));
    ChatCompletion (intentParams (alertIntentPrompt
      (js "show me the temperature trend for urn:iff:asset:42")));
    EmbeddingsPost [js "show me the temperature trend for urn:iff:asset:42 "];
    MilvusSearch (js "custom_setup_6") [Fin 1; Fin 2; zero; zero];
    ChatCompletion (answerParams [] (js "[S1] Pump P-101 manual") askChart)]
   = []) \/
  (askChart <> [] /\
   InternalServerErrorException (js "Failed to call LLM")
   = InternalServerErrorException (js "Failed to call LLM")) \/
  (askChart <> [] /\
   (InternalServerErrorException (js "Failed to call LLM") = RequestFailed \/
    InternalServerErrorException (js "Failed to call LLM") = TypeError \/
    InternalServerErrorException (js "Failed to call LLM") = RangeError) /\
   exists l,
     milvusSearch builtins llmDown askChart l
     = (Throw (InternalServerErrorException (js "Failed to call LLM")),
        [ChatCompletion (intentParams (chartIntentPrompt
           (js "show me the temperature trend for urn:iff:asset:42")));
         ChatCompletion (intentParams (alertIntentPrompt
           (js "show me the temperature trend for urn:iff:asset:42")));
         EmbeddingsPost [js "show me the temperature trend for urn:iff:asset:42 "];
         MilvusSearch (js "custom_setup_6") [Fin 1; Fin 2; zero; zero];
         ChatCompletion (answerParams [] (js "[S1] Pump P-101 manual") askChart)])).
Proof.
  apply (handleQuery_failures builtins llmDown askChart [] []).
  vm_compute. reflexivity.
Defined.

(** X16. No chart without a pool. When the service was started without
    [PGHOST], so that no Postgres pool exists, [handleQuery] never returns a
    chart reply, whatever the classifier answers. *)
Theorem no_pool_no_chart_reply (bi : Builtins) (sv : Services)
    (msgs : list ChatMsg) (ids : list jsstring) (log log' : list Event)
    (reply : jsstring) (chart : ChartResult) (first10 last10 : list ChartPoint) :
  pgPool sv = false ->
  handleQuery bi sv msgs ids log
  <> (Ok (ChartReply reply chart first10 last10), log').
Proof.
  intros Hpool. unfold handleQuery.
  destruct (length msgs =? 0); [discriminate|].
  unfold bind at 1.
  destruct (getChartSummaryIfAny_outcome bi sv msgs log)
    as [l1 [-> | (c & l0 & Hc & _)]];
    [|now destruct (maybeGetChartData_no_pool bi sv msgs log l0 c Hpool)].
  unfold bind at 1.
  destruct (getAlertsDataIfAny_outcome bi sv msgs l1)
    as [l2 [-> | (a & _ & ->)]]; [|discriminate].
  unfold bind at 1.
  destruct (milvusSearch bi sv msgs l2) as [[found|e0] l3]; [|discriminate].
  unfold try_catch, bind, chatCompletion, request, lift, ret, throw.
  destruct (completion sv _); [|discriminate].
  destruct (replyOf _); discriminate.
Qed.

Lemma no_pool_no_chart_reply_witness :
  handleQuery builtins noPool askChart [] []
  <> (Ok (ChartReply [] {| series := []; assetUrn := []; metric := JNull |} [] []),
      []).
Proof.
  apply (no_pool_no_chart_reply builtins noPool askChart [] [] [] []
           {| series := []; assetUrn := []; metric := JNull |} [] []).
  reflexivity.
Defined.

(** X17. A failed query reads as an empty series. For a positive chart
    intent with a resolved window, when the time-series query fails (the
    pool exists), the failure is swallowed: [handleQuery] returns the chart
    reply for an empty series, with the point count of zero, exactly as if
    the store held no data. *)
Theorem failed_query_reads_as_no_points (bi : Builtins) (sv : Services)
    (msgs : list ChatMsg) (ids : list jsstring) (lastUser : ChatMsg)
    (r nlu : JSValue) (urn : jsstring) (metric from to : JSValue) :
  lastUserOf msgs = Some lastUser ->
  completion sv (intentParams (chartIntentPrompt (content lastUser))) = Some r ->
  JSON_parse bi (intent_text bi r) = Some nlu ->
  positive_chart_intent nlu urn metric from to ->
  pgPool sv = true ->
  pgSeries sv urn metric from to = None ->
  handleQuery bi sv msgs ids []
  = (Ok (ChartReply
           (chartReplyHeader ++
            js "Live data (" ++
            (if nullish metric then js "metric" else ToString bi metric) ++
            js ") for " ++ urn ++ [LF] ++
            js "Points: " ++ show_nat bi 0)
           {| series := []; assetUrn := urn; metric := metric |} [] []),
     [ChatCompletion (intentParams (chartIntentPrompt (content lastUser)));
      PgQuery urn metric from to]).
Proof.
  intros Hlast Hr Hp Hpos Hpool Hfail.
  pose proof (maybeGetChartData_fetches bi sv msgs lastUser r nlu urn metric
                from to Hlast Hr Hp Hpos Hpool) as Hdata.
  rewrite Hfail in Hdata.
  unfold handleQuery. rewrite (lastUserOf_nonempty msgs lastUser Hlast).
  unfold bind at 1. unfold getChartSummaryIfAny. unfold bind at 1.
  unfold try_catch. rewrite Hdata.
  change (array_truthy (@nil ChartPoint)) with true. cbv iota.
  unfold formatChartSummary. cbn [series assetUrn Query.metric length].
  unfold ret. cbn [join finite_values map filter nonempty app].
  rewrite <- !app_assoc. rewrite app_nil_r. reflexivity.
Qed.

Lemma failed_query_reads_as_no_points_witness :
  handleQuery builtins dbDown askChart [] []
  = (Ok (ChartReply
           (chartReplyHeader ++
            js "Live data (" ++
            (if nullish (JStr (js "temperature")) then js "metric"
             else ToString builtins (JStr (js "temperature"))) ++
            js ") for " ++ js "urn:iff:asset:42" ++ [LF] ++
            js "Points: " ++ show_nat builtins 0)
           {| series := []; assetUrn := js "urn:iff:asset:42";
              metric := JStr (js "temperature") |} [] []),
     [ChatCompletion (intentParams (chartIntentPrompt
        (content {| role := js "user";
                    content := js "show me the temperature trend for urn:iff:asset:42" |})));
      PgQuery (js "urn:iff:asset:42") (JStr (js "temperature"))
        (JStr (js "2025-08-13T00:00:00.000Z"))
        (JStr (js "2025-08-14T00:00:00.000Z"))]).
Proof.
  apply (failed_query_reads_as_no_points builtins dbDown askChart []
           {| role := js "user";
              content := js "show me the temperature trend for urn:iff:asset:42" |}
           (response intentJson) intentValue).
  - reflexivity.
  - reflexivity.
  - vm_compute. reflexivity.
  - repeat split; discriminate.
  - reflexivity.
  - reflexivity.
Defined.

(** X18. The alert path. When the chart step yields nothing and the last
    user turn is classified as a positive alert intent for an asset,
    [handleQuery] returns the alerts reply after one request to the alert
    service, without asking the completion service for an answer. The alerts
    of the reply are never falsy: when the alert service fails, or its
    response holds no alerts, they are the empty array, and the reply is
    still the alerts reply. *)
Theorem alert_intent_gets_alerts_reply (bi : Builtins) (sv : Services)
    (msgs : list ChatMsg) (ids : list jsstring) (la : list Event)
    (lastUser : ChatMsg) (r nlu : JSValue) (urn : jsstring) :
  getChartSummaryIfAny bi sv msgs [] = (Ok None, la) ->
  lastUserOf msgs = Some lastUser ->
  completion sv (intentParams (alertIntentPrompt (content lastUser))) = Some r ->
  JSON_parse bi (intent_text bi r) = Some nlu ->
  nullish nlu = false ->
  truthy (opt_get nlu (js "wants_alert")) = true ->
  opt_get nlu (js "asset_urn") = JStr urn -> urn <> [] ->
  exists found,
    handleQuery bi sv msgs ids []
    = (Ok (AlertsReply
             (js "Here" ++ [APOS] ++ js "s the live alerts:" ++ [LF; LF]) found),
       la ++ [ChatCompletion (intentParams (alertIntentPrompt (content lastUser)));
              AlertaGet urn]) /\
    truthy found = true /\
    (alerta sv urn = None -> found = JArr []).
Proof.
  intros Hchart Hlast Hr Hp Hnn Hw Hurn Hne.
  destruct (fetchAlertData_outcome sv urn
              (la ++ [ChatCompletion (intentParams
                        (alertIntentPrompt (content lastUser)))]))
    as (found & Hfetch & Htruthy & Hdown).
  assert (Hdata : maybeGetAlertData bi sv msgs la
            = (Ok (Some {| alerts := found; alertUrn := urn |}),
               la ++ [ChatCompletion (intentParams
                        (alertIntentPrompt (content lastUser)));
                      AlertaGet urn])).
  { unfold maybeGetAlertData. rewrite Hlast. unfold bind at 1.
    rewrite (detect_alert_parsed bi sv _ r nlu la Hr Hp).
    unfold bind at 1. unfold lift at 1. rewrite get_non_nullish by exact Hnn.
    rewrite Hw. cbn [negb].
    unfold bind at 1. unfold lift at 1. rewrite get_non_nullish by exact Hnn.
    rewrite Hurn. cbn [truthy]. rewrite (nonempty_true urn Hne). cbn [negb].
    unfold bind. rewrite Hfetch. unfold ret. now rewrite <- app_assoc. }
  exists found. split; [|split; assumption].
  unfold handleQuery. rewrite (lastUserOf_nonempty msgs lastUser Hlast).
  unfold bind at 1. rewrite Hchart.
  unfold bind at 1. unfold getAlertsDataIfAny. unfold bind at 1.
  unfold try_catch. rewrite Hdata. cbn [alerts]. rewrite Htruthy. reflexivity.
Qed.

Lemma alert_intent_gets_alerts_reply_witness :
  exists found,
    handleQuery alertBuiltins alertServices askAlerts [] []
    = (Ok (AlertsReply
             (js "Here" ++ [APOS] ++ js "s the live alerts:" ++ [LF; LF]) found),
       [ChatCompletion (intentParams (chartIntentPrompt
          (js "any alerts for urn:iff:asset:42?")))]
       ++ [ChatCompletion (intentParams (alertIntentPrompt
             (content {| role := js "user";
                         content := js "any alerts for urn:iff:asset:42?" |})));
           AlertaGet (js "urn:iff:asset:42")]) /\
    truthy found = true /\
    (alerta alertServices (js "urn:iff:asset:42") = None -> found = JArr []).
Proof.
  apply (alert_intent_gets_alerts_reply alertBuiltins alertServices askAlerts []
           [ChatCompletion (intentParams (chartIntentPrompt
              (js "any alerts for urn:iff:asset:42?")))]
           {| role := js "user";
              content := js "any alerts for urn:iff:asset:42?" |}
           (response alertJson) alertValue (js "urn:iff:asset:42")).
  - vm_compute. reflexivity.
  - reflexivity.
  - reflexivity.
  - vm_compute. reflexivity.
  - reflexivity.
  - reflexivity.
  - reflexivity.
  - discriminate.
Defined.

(** X19. A conversation without a user turn. When no turn has the role
    [user], nothing is classified: the first request of [handleQuery] is the
    embedding of the empty question, and the completion service is called at
    most once, for the answer. *)
Theorem no_user_turn_skips_classification (bi : Builtins) (sv : Services)
    (msgs : list ChatMsg) (ids : list jsstring) :
  msgs <> [] -> lastUserOf msgs = None ->
  exists res log,
    handleQuery bi sv msgs ids [] = (res, EmbeddingsPost [[]] :: log) /\
    length (completion_calls (EmbeddingsPost [[]] :: log)) <= 1.
Proof.
  intros Hne Hnone.
  unfold handleQuery. destruct msgs as [|m0 msgs']; [contradiction|].
  cbn [length Nat.eqb].
  unfold bind at 1. unfold getChartSummaryIfAny. unfold bind at 1.
  unfold try_catch at 1. unfold maybeGetChartData. rewrite Hnone.
  unfold ret at 1. unfold ret at 1.
  unfold bind at 1. unfold getAlertsDataIfAny. unfold bind at 1.
  unfold try_catch at 1. unfold maybeGetAlertData. rewrite Hnone.
  unfold ret at 1. unfold ret at 1.
  unfold bind at 1. unfold milvusSearch.
  rewrite (no_user_no_question _ [] (lastUserOf_none _ Hnone)).
  unfold bind at 1. unfold request at 1. cbn [app].
  destruct (embeddings sv [[]]) as [raw|]; [|eexists; eexists; split;
    [reflexivity | cbn; lia]].
  destruct (Embedding.createEmbeddings_vectors _ raw) as [[|q qs]|];
    [eexists; eexists; split; [reflexivity | cbn; lia]
    | | eexists; eexists; split; [reflexivity | cbn; lia]].
  unfold bind at 1. unfold request at 1. cbn [app].
  destruct (milvus sv _ q) as [hits|];
    [|eexists; eexists; split; [reflexivity | cbn; lia]].
  unfold ret at 1. cbn [fst].
  unfold try_catch, bind, chatCompletion, request, lift, ret, throw. cbn [app].
  destruct (completion sv _);
    [destruct (replyOf _)|]; eexists; eexists; (split; [reflexivity | cbn; lia]).
Qed.

Lemma no_user_turn_skips_classification_witness :
  exists res log,
    handleQuery builtins (services (js "no") []) greeting [] []
    = (res, EmbeddingsPost [[]] :: log) /\
    length (completion_calls (EmbeddingsPost [[]] :: log)) <= 1.
Proof.
  apply (no_user_turn_skips_classification builtins (services (js "no") [])
           greeting []); [discriminate | reflexivity].
Defined.

End QueryExtras.

Module FenceFacts.
Import Query StringFacts QueryFacts.

Lemma drop_ws_all (w s : jsstring) :
  Forall (fun c => is_ws c = true) w -> drop_ws (w ++ s) = drop_ws s.
Proof.
  induction 1 as [|c w Hc _ IH]; [reflexivity|]. cbn [app drop_ws]. now rewrite Hc.
Qed.

Lemma drop_ws_app (a b : jsstring) :
  drop_ws (a ++ b) = match drop_ws a with
                     | [] => drop_ws b
                     | c :: d => (c :: d) ++ b
                     end.
Proof.
  induction a as [|x a IH]; [cbn; now destruct (drop_ws b)|].
  cbn [app drop_ws]. destruct (is_ws x); [exact IH | reflexivity].
Qed.

Lemma drop_ws_head (s : jsstring) (c : N) (t : jsstring) :
  drop_ws s = c :: t -> is_ws c = false.
Proof.
  induction s as [|x s IH]; [discriminate|].
  cbn [drop_ws]. destruct (is_ws x) eqn:Hx; [exact IH|].
  intros H; injection H as <- _. exact Hx.
Qed.

Lemma drop_ws_fixed (s : jsstring) : drop_ws (drop_ws s) = drop_ws s.
Proof.
  destruct (drop_ws s) as [|c t] eqn:E; [reflexivity|].
  cbn [drop_ws]. now rewrite (drop_ws_head s c t E).
Qed.

(** What [drop_ws] leaves is a suffix. *)
Lemma drop_ws_suffix (s : jsstring) : exists pre, s = pre ++ drop_ws s.
Proof.
  induction s as [|x s [pre IH]]; [now exists []|].
  cbn [drop_ws]. destruct (is_ws x).
  - exists (x :: pre). cbn. now rewrite <- IH.
  - now exists [].
Qed.

(** A trimmed string starts with no whitespace. *)
Lemma trim_head (s : jsstring) : drop_ws (trim s) = trim s.
Proof.
  unfold trim.
  destruct (drop_ws s) as [|c d] eqn:Ed; [reflexivity|].
  pose proof (drop_ws_head s c d Ed) as Hc.
  destruct (drop_ws_suffix (rev (c :: d))) as [pre Hpre].
  set (e := drop_ws (rev (c :: d))) in *.
  apply (f_equal (@rev N)) in Hpre.
  rewrite rev_involutive, rev_app_distr in Hpre.
  destruct (rev e) as [|x t]; [reflexivity|].
  cbn [app] in Hpre. injection Hpre as <- _.
  cbn [drop_ws]. now rewrite Hc.
Qed.

Lemma trim_trim (s : jsstring) : trim (trim s) = trim s.
Proof.
  unfold trim at 1. rewrite trim_head. unfold trim.
  now rewrite rev_involutive, drop_ws_fixed.
Qed.

Lemma strip_prefix_app (p s : jsstring) : strip_prefix p (p ++ s) = Some s.
Proof.
  unfold strip_prefix. rewrite starts_with_app.
  f_equal. induction p as [|c p IH]; [reflexivity | exact IH].
Qed.

Lemma strip_suffix_app (p s : jsstring) : strip_suffix p (s ++ p) = Some s.
Proof.
  unfold strip_suffix. rewrite rev_app_distr, strip_prefix_app.
  now rewrite rev_involutive.
Qed.

End FenceFacts.

Module FenceExtras.
Import Query StringFacts QueryFacts FenceFacts Examples.

(** X20. Unwrapping a fenced answer. When the classifier's answer is a body
    wrapped in a code fence marked [json], with any whitespace after the
    opening and before the closing fence, the text handed to [JSON.parse] is
    the body, trimmed. *)
Theorem fenced_answer_is_unwrapped (bi : Builtins) (body ws1 ws2 : jsstring) :
  Forall (fun c => is_ws c = true) ws1 ->
  Forall (fun c => is_ws c = true) ws2 ->
  intent_text bi (response (FENCE ++ js "json" ++ ws1 ++ body ++ ws2 ++ FENCE))
  = trim body.
Proof.
  intros H1 H2.
  change (intent_text bi (response (FENCE ++ js "json" ++ ws1 ++ body ++ ws2 ++ FENCE)))
    with (trim (strip_fences (FENCE ++ js "json" ++ ws1 ++ body ++ ws2 ++ FENCE))).
  unfold strip_fences. rewrite strip_prefix_app, strip_prefix_app.
  rewrite drop_ws_all by exact H1. rewrite drop_ws_app.
  destruct (drop_ws body) as [|c d] eqn:Eb.
  - rewrite drop_ws_all by exact H2.
    change (drop_ws FENCE) with FENCE.
    change (strip_suffix FENCE FENCE) with (Some (@nil N)). cbn [rev drop_ws].
    unfold trim at 2. rewrite Eb. reflexivity.
  - rewrite app_assoc, strip_suffix_app.
    rewrite rev_app_distr, drop_ws_all
      by (apply Forall_rev; exact H2).
    rewrite <- Eb. change (rev (drop_ws (rev (drop_ws body)))) with (trim body).
    apply trim_trim.
Qed.

Lemma fenced_answer_is_unwrapped_witness :
  intent_text builtins
    (response (FENCE ++ js "json" ++ [LF] ++ intentJson ++ [LF] ++ FENCE))
  = trim intentJson.
Proof.
  apply (fenced_answer_is_unwrapped builtins intentJson [LF] [LF]);
    repeat constructor.
Defined.

End FenceExtras.

(* ===================================================================== *)
(** ** Masking and unmasking *)
(* ===================================================================== *)

Module MaskFacts.
Import Query Mask.

(** The two digits of a byte: they are matched as one pair and read back
    as the byte. *)
Lemma byte_digits_table :
  forallb
    (fun v =>
       match padStart2 (toString16 v) with
       | [a; b] =>
           negb (is_line_terminator a) && negb (is_line_terminator b) &&
           match parseInt16 [a; b] with
           | Some z => (z =? Z.of_N v)%Z
           | None => false
           end
       | _ => false
       end)
    (map N.of_nat (seq 0 256)) = true.
Proof. vm_compute. reflexivity. Qed.

Lemma byte_digits (v : N) :
  (v < 256)%N ->
  exists a b,
    padStart2 (toString16 v) = [a; b] /\
    is_line_terminator a = false /\ is_line_terminator b = false /\
    parseInt16 [a; b] = Some (Z.of_N v).
Proof.
  intros Hv. pose proof byte_digits_table as H.
  rewrite forallb_forall in H. specialize (H v).
  assert (Hin : In v (map N.of_nat (seq 0 256))).
  { apply in_map_iff. exists (N.to_nat v). split; [apply N2Nat.id|].
    apply in_seq. lia. }
  specialize (H Hin).
  destruct (padStart2 (toString16 v)) as [|a [|b [|c l]]]; try discriminate.
  exists a, b. split; [reflexivity|].
  apply andb_prop in H. destruct H as [H Hp].
  apply andb_prop in H. destruct H as [Ha Hb].
  apply negb_true_iff in Ha, Hb. repeat split; try assumption.
  destruct (parseInt16 [a; b]) as [z|]; [|discriminate].
  apply Z.eqb_eq in Hp. now subst.
Qed.

Lemma lxor_byte (a b : N) : (a < 256)%N -> (b < 256)%N -> (N.lxor a b < 256)%N.
Proof.
  intros Ha Hb.
  destruct (N.eq_dec (N.lxor a b) 0) as [->|Hne]; [reflexivity|].
  change 256%N with (2 ^ 8)%N. apply N.log2_lt_pow2; [lia|].
  eapply N.le_lt_trans; [apply N.log2_lxor|].
  destruct (N.eq_dec a 0) as [->|Ha0]; destruct (N.eq_dec b 0) as [->|Hb0].
  - reflexivity.
  - rewrite N.max_r by (cbn; lia). apply N.log2_lt_pow2; [lia | exact Hb].
  - rewrite N.max_l by (cbn; lia). apply N.log2_lt_pow2; [lia | exact Ha].
  - apply N.max_lub_lt; apply N.log2_lt_pow2; try lia; assumption.
Qed.

Lemma lxor_of_N (a b : N) : Z.lxor (Z.of_N a) (Z.of_N b) = Z.of_N (N.lxor a b).
Proof. destruct a, b; reflexivity. Qed.

Lemma unmask_code (c k : N) :
  (c < 256)%N -> (k < 256)%N ->
  fromCharCode (Z.lxor (Z.of_N (N.lxor c k)) (Z.of_N k)) = c.
Proof.
  intros Hc Hk. rewrite lxor_of_N, N.lxor_assoc, N.lxor_nilpotent, N.lxor_0_r.
  unfold fromCharCode. rewrite Z.mod_small by lia. apply N2Z.id.
Qed.

Lemma key_code_byte (key : jsstring) (i : nat) :
  Forall (fun c => (c < 256)%N) key -> (key_code key i < 256)%N.
Proof.
  intros H. unfold key_code. destruct key as [|k key]; [reflexivity|].
  rewrite Forall_forall in H. apply H, nth_In.
  apply Nat.mod_upper_bound. discriminate.
Qed.

(** Masking bytes with a key of bytes, and reading the mask back. *)
Lemma mask_pairs (key input : jsstring) :
  Forall (fun c => (c < 256)%N) key ->
  Forall (fun c => (c < 256)%N) input ->
  forall i,
  let masked :=
    concat (mapi_from i
              (fun i char => padStart2 (toString16 (N.lxor char (key_code key i))))
              input) in
  length masked = 2 * length input /\
  mapi_from i
    (fun i h =>
       let b := match parseInt16 h with Some z => z | None => 0%Z end in
       fromCharCode (Z.lxor b (Z.of_N (key_code key i))))
    (match_pairs masked)
  = input.
Proof.
  intros Hkey Hin. induction Hin as [|c input Hc _ IH]; intros i.
  - split; reflexivity.
  - cbn [mapi_from concat].
    pose proof (key_code_byte key i Hkey) as Hk.
    destruct (byte_digits (N.lxor c (key_code key i)) (lxor_byte _ _ Hc Hk))
      as (a & b & -> & Ha & Hb & Hp).
    destruct (IH (S i)) as [IHl IHm]. cbv zeta in *. split.
    + rewrite length_app, IHl. cbn [length]. lia.
    + cbn [app match_pairs]. rewrite Ha, Hb. cbn [mapi_from].
      rewrite Hp, IHm. f_equal. apply unmask_code; assumption.
Qed.

End MaskFacts.

Module MaskExtras.
Import Query Mask MaskFacts.

(** X21. Masking and unmasking. For a non-empty key and an input whose
    characters, those of the key and those of the input alike, all have
    codes below 256 (such as an ASCII secret and the token that
    [getIndexedData] recovers with [unmask]), the mask holds two
    hexadecimal digits per character of the input, and [unmask] gives a
    non-empty input back. The empty input is not given back: its mask is
    the empty string, for which [unmask] throws a [TypeError]. *)
Theorem unmask_inverts_mask (input key : jsstring) :
  key <> [] ->
  Forall (fun c => (c < 256)%N) key ->
  Forall (fun c => (c < 256)%N) input ->
  length (mask input key) = 2 * length input /\
  (input <> [] -> unmask (mask input key) key = Ok input) /\
  unmask (mask [] key) key = Throw TypeError.
Proof.
  intros Hne Hkey Hin.
  destruct (mask_pairs key input Hkey Hin 0) as [Hlen Hback]. cbv zeta in *.
  split; [exact Hlen|]. split.
  - intros Hinput. unfold unmask. rewrite (QueryFacts.nonempty_true key Hne).
    fold (mask input key) in Hback, Hlen.
    destruct (match_pairs (mask input key)) as [|h hs] eqn:Em.
    + cbn in Hback. now subst.
    + now rewrite Hback.
  - unfold unmask. rewrite (QueryFacts.nonempty_true key Hne). reflexivity.
Qed.

Lemma unmask_inverts_mask_witness :
  length (mask (js "eyJ.ab") (js "key")) = 2 * length (js "eyJ.ab") /\
  (js "eyJ.ab" <> [] -> unmask (mask (js "eyJ.ab") (js "key")) (js "key")
                        = Ok (js "eyJ.ab")) /\
  unmask (mask [] (js "key")) (js "key") = Throw TypeError.
Proof.
  apply (unmask_inverts_mask (js "eyJ.ab") (js "key")).
  - discriminate.
  - repeat constructor.
  - repeat constructor.
Defined.

End MaskExtras.

(* ===================================================================== *)
(** ** Retrieval: the context and the stored labels *)
(* ===================================================================== *)

Module RetrievalExtras.
Import Query QueryFacts Examples Examples3.

Lemma keep_all_entries (bi : Builtins) (hits : list JSValue) (i : nat) :
  (forall j, j < length hits -> show_nat bi (i + j + 1) <> []) ->
  filter (fun s => (4 <? length s)%nat)
    (mapi_from i
       (fun i hit => js "[S" ++ show_nat bi (i + 1) ++ js "] " ++ trim (hit_text bi hit))
       hits)
  = mapi_from i
      (fun i hit => js "[S" ++ show_nat bi (i + 1) ++ js "] " ++ trim (hit_text bi hit))
      hits.
Proof.
  revert i. induction hits as [|hit hits IH]; intros i Hshow; [reflexivity|].
  cbn [mapi_from filter].
  assert (Hlen : (4 <? length (js "[S" ++ show_nat bi (i + 1) ++ js "] " ++
                               trim (hit_text bi hit)))%nat = true).
  { apply Nat.ltb_lt. rewrite !length_app.
    specialize (Hshow 0 ltac:(cbn; lia)). rewrite Nat.add_0_r in Hshow.
    destruct (show_nat bi (i + 1)); [contradiction | cbn; lia]. }
  rewrite Hlen. f_equal. apply IH.
  intros j Hj. specialize (Hshow (S j) ltac:(cbn; lia)).
  now replace (S i + j + 1) with (i + S j + 1) by lia.
Qed.

(** X22. The context keeps every hit. The entries of the context are
    filtered by [s.length > 4], but an entry starts with the four characters
    of its marker [[Sn] ] besides the number [n] (which is never printed as
    the empty string): no entry is ever removed, and a hit without text
    stays in the context as a bare marker. *)
Theorem context_keeps_every_hit (bi : Builtins) (hits : list JSValue) :
  (forall i, i < length hits -> show_nat bi (i + 1) <> []) ->
  contextOf bi hits
  = join contextSeparator
      (mapi_from 0
         (fun i hit =>
            js "[S" ++ show_nat bi (i + 1) ++ js "] " ++ trim (hit_text bi hit))
         hits).
Proof.
  intros Hshow. unfold contextOf. now rewrite keep_all_entries.
Qed.

Lemma context_keeps_every_hit_witness :
  contextOf builtins [JObj []; JNull]
  = join contextSeparator
      (mapi_from 0
         (fun i hit =>
            js "[S" ++ show_nat builtins (i + 1) ++ js "] " ++
            trim (hit_text builtins hit))
         [JObj []; JNull]).
Proof.
  apply (context_keeps_every_hit builtins [JObj []; JNull]).
  intros [|[|i]] Hi; [discriminate | discriminate | cbn in Hi; lia].
Defined.

(** X23. From the store back into the context. [addDocuments] stores the
    labels of a record as JSON text. When a search returns them as they were
    inserted, and [JSON.parse] reads the text back (it starts with a brace),
    the text of the hit is the [text] label of the record: the content of
    the chunk. A record without that label, such as a parent record, has the
    empty text. *)
Theorem stored_labels_are_read_back (bi : Builtins) (d : Ingest.VectorDoc)
    (hit : JSValue) :
  opt_get hit (js "labels") = opt_get (Milvus.insertRow bi d) (js "labels") ->
  starts_with (js "{") (trim (JSON_stringify bi (JObj (Ingest.labels d)))) = true ->
  JSON_parse bi (trim (JSON_stringify bi (JObj (Ingest.labels d))))
  = Some (JObj (Ingest.labels d)) ->
  (forall ch, Ingest.chunk_text d = Some ch -> hit_text bi hit = ch) /\
  (assoc (js "text") (Ingest.labels d) = None -> hit_text bi hit = []).
Proof.
  intros Hhit Hbrace Hparse.
  assert (Hl : coerceLabels bi (opt_get hit (js "labels")) = JObj (Ingest.labels d)).
  { rewrite Hhit.
    change (opt_get (Milvus.insertRow bi d) (js "labels"))
      with (JStr (JSON_stringify bi (JObj (Ingest.labels d)))).
    unfold coerceLabels. rewrite Hbrace. cbn [orb]. now rewrite Hparse. }
  unfold hit_text. rewrite Hl. unfold opt_get, get. split.
  - intros ch Hch. unfold Ingest.chunk_text, Ingest.label_string in Hch.
    destruct (assoc (js "text") (Ingest.labels d)) as [[| | | |s| |]|];
      try discriminate.
    now injection Hch as ->.
  - intros Hnone. now rewrite Hnone.
Qed.

Lemma stored_labels_are_read_back_witness :
  (forall ch, Ingest.chunk_text chunkDoc = Some ch ->
              hit_text labelBuiltins (Milvus.insertRow labelBuiltins chunkDoc) = ch) /\
  (assoc (js "text") (Ingest.labels chunkDoc) = None ->
   hit_text labelBuiltins (Milvus.insertRow labelBuiltins chunkDoc) = []).
Proof.
  apply (stored_labels_are_read_back labelBuiltins chunkDoc
           (Milvus.insertRow labelBuiltins chunkDoc));
    reflexivity.
Defined.

End RetrievalExtras.

(* ===================================================================== *)
(** ** The ingestion run: what is stored *)
(* ===================================================================== *)

Module StoreFacts.
Import stdpp.base stdpp.gmap.
Import SHA256 Ingest IngestSpec IngestFacts StoreSpec.

Lemma chunks_of_fit (cfg : Config) (text : jsstring) (chunks : list jsstring) :
  (0 <= tokenOverlap cfg < tokenChunkMax cfg)%Z ->
  chunks_of cfg text = Some chunks ->
  Forall (fits_window (tokenChunkMax cfg)) chunks.
Proof.
  intros Hov Hsome. apply LoopFacts.chunkByTokens_Some_returns in Hsome.
  destruct (words_of text) as [|w ws] eqn:E.
  - assert (H0 : Chunker.chunkByTokens_returns text (tokenChunkMin cfg)
                   (tokenChunkMax cfg) (tokenOverlap cfg) [])
      by (exists 0%nat; unfold Chunker.chunkByTokens_fuel; now rewrite E).
    rewrite (LoopFacts.chunkByTokens_returns_unique _ _ _ _ _ _ Hsome H0).
    constructor.
  - destruct (ChunkFacts.chunkByTokens_chunks_at text (tokenChunkMin cfg)
                (tokenChunkMax cfg) (tokenOverlap cfg) Hov)
      as (out & Hout & Hat); [rewrite E; discriminate|].
    rewrite (LoopFacts.chunkByTokens_returns_unique _ _ _ _ _ _ Hsome Hout).
    pose proof (ChunkShape.chunks_at_shape (words_of text)
                  (Z.to_nat (tokenChunkMax cfg)) (Z.to_nat (tokenOverlap cfg))
                  (StringFacts.words_of_words text) 0 out Hat) as Hs.
    eapply List.Forall_impl; [|apply Hs; [rewrite E; simpl; lia | lia]].
    intros c (H1 & H2 & H3 & _). repeat split; try assumption. lia.
Qed.

(** What holds of the labels of every record that a run prepares holds of
    the labels of every record it stores. *)
Section Labelled.
Variable cfg : Config.
Variable sv : Services.
Variable P : jsstring -> Prop.
Variable Q : Labels -> Prop.
Hypothesis P_chunks : forall text chunks,
  chunks_of cfg text = Some chunks -> Forall P chunks.
Hypothesis Q_json_parent : forall e parentId, Q (jsonParentLabels e parentId).
Hypothesis Q_json_child : forall e parentId hash ch idx,
  P ch -> Q (jsonChildLabels e parentId hash ch idx).
Hypothesis Q_pdf_parent : forall parentId fileHash url fileName pageCount,
  Q (pdfParentLabels parentId fileHash url fileName pageCount).
Hypothesis Q_pdf_child :
  forall hash fileHash url fileName pageCount idx parentId ch paragraphs,
  P ch ->
  Q (pdfChildLabels hash fileHash url fileName pageCount idx parentId ch
       (pickSectionForSpan paragraphs ch)).

Lemma jsonChunks_labelled (e : Entity) (parentId : jsstring)
    (chunks : list jsstring) :
  Forall P chunks ->
  forall idx seen childDocs seen' childDocs',
  Forall Q (List.map p_labels childDocs) ->
  jsonChunks e parentId idx chunks seen childDocs = (seen', childDocs') ->
  Forall Q (List.map p_labels childDocs').
Proof.
  induction 1 as [|ch chunks Hch _ IH]; intros idx seen childDocs seen' childDocs' HQ;
    cbn [jsonChunks].
  - intros H; injection H as <- <-. exact HQ.
  - destruct (bool_decide _); [apply IH; exact HQ|].
    apply IH. rewrite List.map_app. apply Forall_app. split; [exact HQ|].
    repeat constructor. cbn [p_labels]. apply Q_json_child, Hch.
Qed.

Lemma jsonEntities_labelled (entities : list Entity) :
  forall seen parentDocs childDocs seen' parentDocs' childDocs',
  Forall Q (List.map p_labels parentDocs) ->
  Forall Q (List.map p_labels childDocs) ->
  jsonEntities cfg entities seen parentDocs childDocs
  = Some (seen', parentDocs', childDocs') ->
  Forall Q (List.map p_labels parentDocs') /\
  Forall Q (List.map p_labels childDocs').
Proof.
  induction entities as [|e entities IH];
    intros seen parentDocs childDocs seen' parentDocs' childDocs' HP HC;
    cbn [jsonEntities].
  - intros H; injection H as <- <- <-. split; assumption.
  - destruct (nonempty (factParagraphs e)); [|apply IH; assumption].
    destruct (chunks_of cfg _) as [chunks|] eqn:Ech; [|discriminate].
    destruct (jsonChunks e _ 0 chunks seen childDocs) as [seen1 child1] eqn:E.
    apply IH.
    + rewrite List.map_app. apply Forall_app. split; [exact HP|].
      repeat constructor. apply Q_json_parent.
    + exact (jsonChunks_labelled e _ chunks (P_chunks _ _ Ech)
               _ _ _ _ _ HC E).
Qed.

Lemma pdfChunks_labelled (fileHash url fileName pageCount parentId : jsstring)
    (paragraphs : list PdfSection) (chunks : list jsstring) :
  Forall P chunks ->
  forall idx seen out seen' out',
  Forall Q (List.map labels out) ->
  pdfChunks sv fileHash url fileName pageCount parentId paragraphs idx chunks seen out
  = (seen', out') ->
  Forall Q (List.map labels out').
Proof.
  induction 1 as [|ch chunks Hch _ IH]; intros idx seen out seen' out' HQ;
    cbn [pdfChunks].
  - intros H; injection H as <- <-. exact HQ.
  - destruct (bool_decide _); [apply IH; exact HQ|].
    destruct (embedChunk sv _ ch _) as [d|] eqn:Ed.
    + apply IH. rewrite List.map_app. apply Forall_app. split; [exact HQ|].
      repeat constructor. rewrite (embedChunk_labels _ _ _ _ _ Ed).
      apply Q_pdf_child, Hch.
    + intros H; injection H as <- <-. exact HQ.
Qed.

Lemma pdfWorker_labelled (url : jsstring) (st st' : PdfState) :
  Forall Q (List.map labels (ps_out st)) ->
  pdfWorker cfg sv url st = Some st' ->
  Forall Q (List.map labels (ps_out st')).
Proof.
  intros HQ. unfold pdfWorker.
  destruct (httpGet sv url) as [buf|]; [|intros H; injection H as <-; exact HQ].
  destruct (bool_decide _); [intros H; injection H as <-; exact HQ|].
  destruct (pdfParse sv buf) as [[rawText pageCount]|];
    [|intros H; injection H as <-; exact HQ].
  destruct (nonempty (trim _)); [|intros H; injection H as <-; exact HQ].
  destruct (embedChunk sv _ _ _) as [parent|] eqn:Ep;
    [|intros H; injection H as <-; exact HQ].
  destruct (chunks_of cfg _) as [chunks|] eqn:Ech; [|discriminate].
  destruct (pdfChunks sv _ _ _ _ _ _ 0 chunks _ _) as [seen1 out1] eqn:E.
  intros H; injection H as <-. cbn [ps_out].
  refine (pdfChunks_labelled _ _ _ _ _ _ chunks (P_chunks _ _ Ech)
            _ _ _ _ _ _ E).
  rewrite List.map_app. apply Forall_app. split; [exact HQ|].
  repeat constructor. rewrite (embedChunk_labels _ _ _ _ _ Ep). apply Q_pdf_parent.
Qed.

Lemma processPdfs_labelled (urls : list jsstring) :
  forall st st',
  Forall Q (List.map labels (ps_out st)) ->
  processPdfs cfg sv urls st = Some st' ->
  Forall Q (List.map labels (ps_out st')).
Proof.
  induction urls as [|url urls IH]; intros st st' HQ; cbn [processPdfs].
  - intros H; injection H as <-. exact HQ.
  - destruct (pdfWorker cfg sv url st) as [st1|] eqn:E; [|discriminate].
    apply IH. exact (pdfWorker_labelled url st st1 HQ E).
Qed.

Lemma ingestFolder_labelled (entities : list Entity) (pdfUrls : list jsstring)
    (w : World) :
  exists uploaded,
    store (snd (ingestFolder cfg sv entities pdfUrls w)) = store w ++ uploaded /\
    Forall (fun d => Q (labels d)) uploaded.
Proof.
  assert (Hnone : exists uploaded : list VectorDoc,
            store w = store w ++ uploaded /\
            Forall (fun d => Q (labels d)) uploaded)
    by (exists []; split; [now rewrite app_nil_r | constructor]).
  unfold ingestFolder.
  destruct (jsonEntities cfg entities (seenHashes w) [] [])
    as [[[seen1 parentDocs] childDocs]|] eqn:Ejson; [|exact Hnone].
  destruct (jsonEntities_labelled entities _ [] [] _ _ _
              (List.Forall_nil _) (List.Forall_nil _) Ejson) as [HP HC].
  destruct (await_all sv parentDocs) as [jsonParents|] eqn:Ep; [|exact Hnone].
  destruct (await_all sv childDocs) as [jsonChildren|] eqn:Ec; [|exact Hnone].
  destruct (processPdfs cfg sv pdfUrls _) as [st|] eqn:Epdf; [|exact Hnone].
  pose proof (processPdfs_labelled pdfUrls
                {| ps_seen := seen1; ps_files := seenPdfFileHashes w;
                   ps_out := [] |} st (List.Forall_nil _) Epdf) as Hpdf.
  destruct (nonempty (List.filter _ _)); [|exact Hnone].
  destruct (addDocuments sv _); [|exact Hnone].
  cbn [snd store]. eexists. split; [reflexivity|].
  apply List.Forall_forall. intros d Hd. apply List.filter_In in Hd.
  destruct Hd as [Hd _].
  assert (Hall : Forall Q (List.map labels (jsonParents ++ jsonChildren ++ ps_out st))).
  { rewrite !List.map_app.
    rewrite (await_all_labels sv _ _ Ep), (await_all_labels sv _ _ Ec).
    repeat (apply Forall_app; split); assumption. }
  rewrite List.Forall_forall in Hall. apply Hall. now apply List.in_map.
Qed.

End Labelled.

Lemma meta_no_label (k : string) (m : MachineMeta) :
  str_eqb (js k) (js "machine_id") = false ->
  str_eqb (js k) (js "asset_name") = false ->
  str_eqb (js k) (js "dt_version") = false ->
  str_eqb (js k) (js "ts_start") = false ->
  str_eqb (js k) (js "ts_end") = false ->
  forall front,
  Value.assoc (js k) (front ++ meta_labels m) = Value.assoc (js k) front.
Proof.
  intros H1 H2 H3 H4 H5 front.
  induction front as [|[k' x] front IH].
  - cbn [app]. rewrite (meta_no_fingerprint k m H1 H2 H3 H4 H5). reflexivity.
  - cbn [app Value.assoc]. now rewrite IH.
Qed.

(** [pickSectionForSpan] answers with the empty string or with a heading
    that the span includes. *)
Lemma pickSection_in_span (paragraphs : list PdfSection) (span : jsstring) :
  pickSectionForSpan paragraphs span = [] \/
  includes span (pickSectionForSpan paragraphs span) = true.
Proof.
  unfold pickSectionForSpan.
  destruct (List.find _ paragraphs) as [[t [h|]]|] eqn:E; try now left.
  right. apply List.find_some in E. destruct E as [_ E]. cbn in E.
  apply andb_prop in E. apply E.
Qed.

End StoreFacts.

Module StoreExtras.
Import stdpp.base stdpp.gmap.
Import SHA256 Ingest IngestSpec IngestFacts StoreSpec StoreFacts IngestExample.

(** X24. What is stored fits the window. For [0 <= overlap < maxTokens], the
    [text] label of every record that a run stores is a non-empty chunk of
    at most [maxTokens] words, separated by single spaces: no stored chunk
    holds a line break or exceeds the window, whatever the sources are. (A
    parent record has no [text] label.) *)
Theorem stored_chunks_fit_the_window (cfg : Config) (sv : Services)
    (entities : list Entity) (pdfUrls : list jsstring) (w : World) :
  (0 <= tokenOverlap cfg < tokenChunkMax cfg)%Z ->
  exists uploaded,
    store (snd (ingestFolder cfg sv entities pdfUrls w)) = store w ++ uploaded /\
    Forall (fun d => forall ch, chunk_text d = Some ch ->
                                fits_window (tokenChunkMax cfg) ch) uploaded.
Proof.
  intros Hov.
  apply (ingestFolder_labelled cfg sv (fits_window (tokenChunkMax cfg))
           (fun l => forall ch, label_string "text" l = Some ch ->
                                fits_window (tokenChunkMax cfg) ch)
           (fun text chunks => chunks_of_fit cfg text chunks Hov)).
  - intros e parentId ch. unfold label_string, jsonParentLabels.
    rewrite meta_no_label by reflexivity. intros H. cbv in H. discriminate H.
  - intros e parentId hash ch idx Hch c. unfold label_string, jsonChildLabels.
    rewrite meta_no_label by reflexivity.
    intros H. cbv in H. injection H as <-. exact Hch.
  - intros parentId fileHash url fileName pageCount ch H. cbv in H. discriminate H.
  - intros hash fileHash url fileName pageCount idx parentId ch paragraphs Hch c H.
    cbv in H. injection H as <-. exact Hch.
Qed.

Lemma stored_chunks_fit_the_window_witness :
  exists uploaded,
    store (snd (ingestFolder config services [entity] [pdfUrl] emptyWorld))
    = store emptyWorld ++ uploaded /\
    Forall (fun d => forall ch, chunk_text d = Some ch ->
                                fits_window (tokenChunkMax config) ch) uploaded.
Proof.
  apply (stored_chunks_fit_the_window config services [entity] [pdfUrl] emptyWorld).
  cbn. lia.
Defined.

(** X25. The section of a stored chunk. The [section_path] label of every
    record that a run stores is the empty string or a string that the
    record's [text] includes: a heading is attached to a chunk only if the
    chunk quotes it. (The records of JSON-LD entities have no
    [section_path].) *)
Theorem section_path_is_quoted (cfg : Config) (sv : Services)
    (entities : list Entity) (pdfUrls : list jsstring) (w : World) :
  exists uploaded,
    store (snd (ingestFolder cfg sv entities pdfUrls w)) = store w ++ uploaded /\
    Forall (fun d => forall path ch,
              label_string "section_path" (labels d) = Some path ->
              chunk_text d = Some ch ->
              path = [] \/ includes ch path = true) uploaded.
Proof.
  apply (ingestFolder_labelled cfg sv (fun _ => True)
           (fun l => forall path ch,
              label_string "section_path" l = Some path ->
              label_string "text" l = Some ch ->
              path = [] \/ includes ch path = true)).
  - intros text chunks _. apply List.Forall_forall. intros; exact I.
  - intros e parentId path ch. unfold label_string, jsonParentLabels.
    rewrite meta_no_label by reflexivity. intros H. cbv in H. discriminate H.
  - intros e parentId hash ch idx _ path c. unfold label_string, jsonChildLabels.
    rewrite meta_no_label by reflexivity. intros H. cbv in H. discriminate H.
  - intros parentId fileHash url fileName pageCount path ch H. cbv in H.
    discriminate H.
  - intros hash fileHash url fileName pageCount idx parentId ch paragraphs _ path c.
    unfold label_string, pdfChildLabels.
    set (found := pickSectionForSpan paragraphs ch).
    intros H1 H2.
    assert (E1 : path = found) by (cbv -[found] in H1; now injection H1).
    assert (E2 : c = ch) by (cbv -[found] in H2; now injection H2).
    subst path c. apply pickSection_in_span.
Qed.

End StoreExtras.
